(** * RedesPruebas: packet model, routing engines and shortest paths

    A shallow embedding of the Python sources
    [packets.py], [id_map.py], [dijkstra_rt.py], [router_lsr_redis.py],
    [router_flooding_redis.py] and the advertisement timer of
    [interactive_lsr_router.py], followed by the properties of the
    routing engine that the specification states about them. *)

From Stdlib Require Import ZArith String Ascii List Lia Permutation.
From stdpp Require Import base option list gmap strings pretty.

Local Open Scope string_scope.
Local Open Scope list_scope.
Local Open Scope nat_scope.
Local Set Warnings "-register-all,-clear-no-such-hyp".

(** ** JSON values

    Packets travel as JSON, so a field holds [None], a number, a string, a
    list or an object.  Python's [bool] is a subclass of [int] whose two
    values compare and hash equal to [1] and [0]; none of the modelled code
    tells them apart, so JSON [true]/[false] are [VInt 1]/[VInt 0].
    Numbers with a fractional part are not represented. *)

Inductive value : Type :=
| VNone
| VInt (z : Z)
| VStr (s : string)
| VList (l : list value)
| VDict (d : list (string * value)).

(** A Python [dict] with string keys: insertion ordered, keys unique. *)
Definition dict : Type := list (string * value).

Section AssocList.
Context {K : Type} `{EqDecision K} {V : Type}.

(** [d.get(k)] / [d[k]] / [k in d] *)
Fixpoint alist_get (k : K) (d : list (K * V)) : option V :=
  match d with
  | [] => None
  | (k', v) :: d' => if decide (k = k') then Some v else alist_get k d'
  end.

(** [d[k] = v]: overwrite in place, or append a new key at the end. *)
Fixpoint alist_set (k : K) (v : V) (d : list (K * V)) : list (K * V) :=
  match d with
  | [] => [(k, v)]
  | (k', v') :: d' =>
      if decide (k = k') then (k, v) :: d' else (k', v') :: alist_set k v d'
  end.

Definition alist_has (k : K) (d : list (K * V)) : bool :=
  match alist_get k d with Some _ => true | None => false end.
End AssocList.

(** [d.get(k, default)] *)
Definition get_default (k : string) (dflt : value) (d : dict) : value :=
  default dflt (alist_get k d).

(** Truth value of an object, as [if x:] / [not x] test it. *)
Definition truthy (v : value) : bool :=
  match v with
  | VNone => false
  | VInt z => negb (z =? 0)%Z
  | VStr s => negb (String.eqb s "")
  | VList l => match l with [] => false | _ => true end
  | VDict d => match d with [] => false | _ => true end
  end.

Definition is_str (v : value) : bool :=
  match v with VStr _ => true | _ => false end.
Definition is_int (v : value) : bool :=
  match v with VInt _ => true | _ => false end.

(** [v == s] for a string literal or string variable [s]. *)
Definition eq_str (v : value) (s : string) : bool :=
  match v with VStr t => String.eqb t s | _ => false end.

(** ** packets.py *)

Definition BROADCAST : string := "*".

(** [make_packet]; [seq_num] and [neighbors] default to [None]. *)
Definition make_packet (p_type from_channel to_channel : string) (hops : Z)
    (alg : string) (seq_num neighbors payload : value) : dict :=
  let packet :=
    [ ("type", VStr p_type); ("from", VStr from_channel);
      ("to", VStr to_channel); ("hops", VInt hops);
      ("headers", VDict [("alg", VStr alg)]); ("payload", payload) ] in
  let packet :=
    match seq_num with
    | VNone => packet
    | _ => alist_set "seq_num" seq_num packet
    end in
  let packet :=
    match neighbors with
    | VNone => packet
    | _ => alist_set "neighbors" neighbors packet
    end in
  packet.

Definition normalize_packet (pkt : value) : value := pkt.

(** [validate_packet]: nothing in the body can raise, so the [try] is inert. *)
Definition validate_packet (pkt : value) : bool :=
  match pkt with
  | VDict d =>
      if negb (forallb (fun k => alist_has k d)
                 ["type"; "from"; "to"; "hops"; "headers"]) then false
      else if negb (is_str (get_default "type" VNone d)) then false
      else if negb (is_str (get_default "from" VNone d)) then false
      else if negb (is_str (get_default "to" VNone d)) then false
      else if negb (is_int (get_default "hops" VNone d)) then false
      else
        match get_default "headers" VNone d with
        | VDict h => if negb (alist_has "alg" h) then false else true
        | _ => false
        end
  | _ => false
  end.

(** [get_packet_id].  [u] is the string [str(uuid.uuid4())] that this call
    draws: when [headers] is a dict the default argument of the inner [get]
    is evaluated before the lookup, and when it is not, the attribute
    access fails before the argument is evaluated and the handler draws
    instead.  Either way exactly one identifier is drawn per call. *)
Definition get_packet_id (pkt : dict) (u : string) : value :=
  match get_default "headers" (VDict []) pkt with
  | VDict h => get_default "id" (VStr u) h
  | _ => VStr u
  end.

(** [int(x)] on the values the model has.  For strings only an optionally
    signed run of ASCII digits is covered (Python also accepts surrounding
    blanks and underscores); every caller passes an [int]. *)
Definition digit_of (c : ascii) : option Z :=
  let n := nat_of_ascii c in
  if (48 <=? n)%nat && (n <=? 57)%nat then Some (Z.of_nat (n - 48)) else None.

Fixpoint parse_digits (s : string) (acc : Z) : option Z :=
  match s with
  | EmptyString => Some acc
  | String c r =>
      match digit_of c with
      | Some d => parse_digits r (10 * acc + d)%Z
      | None => None
      end
  end.

Definition int_of_str (s : string) : option Z :=
  match s with
  | EmptyString => None
  | String c r =>
      if Ascii.eqb c "-" then
        (if String.eqb r "" then None else Z.opp <$> parse_digits r 0%Z)
      else if Ascii.eqb c "+" then
        (if String.eqb r "" then None else parse_digits r 0%Z)
      else parse_digits s 0%Z
  end.

Definition py_int (v : value) : option Z :=
  match v with
  | VInt z => Some z
  | VStr s => int_of_str s
  | _ => None
  end.

(** [dec_hops]: the new hop count and the packet, mutated in place. *)
Definition dec_hops (pkt : dict) : Z * dict :=
  let h :=
    match py_int (get_default "hops" (VInt 0) pkt) with
    | Some z => (z - 1)%Z
    | None => (-1)%Z
    end in
  (h, alist_set "hops" (VInt h) pkt).

Definition is_deliver_to_me (pkt : dict) (my_channel : string) : bool :=
  let to_ch := get_default "to" (VStr "") pkt in
  eq_str to_ch my_channel || eq_str to_ch BROADCAST.

(** ** id_map.py

    [SECTION], [GROUP] and the contents of the names file are read from the
    environment when the module is loaded; they are parameters here.
    [NODES_TO_USER] is the names table: node identity to user name. *)

Section IdMap.
Variables SECTION GROUP : string.
Variable NODES_TO_USER : list (string * string).

Definition _mk_channel (username : string) : string :=
  "sec" +:+ SECTION +:+ ".grupo" +:+ GROUP +:+ "." +:+ username.

Definition NODE_TO_CHANNEL : list (string * string) :=
  map (fun '(node, user) => (node, _mk_channel user)) NODES_TO_USER.

(** [get_channel]; [None] is the [KeyError] of an unknown node. *)
Definition get_channel (node_id : string) : option string :=
  if String.eqb node_id "*" then Some "*"
  else alist_get node_id NODE_TO_CHANNEL.

Fixpoint has_dot (s : string) : bool :=
  match s with
  | EmptyString => false
  | String c r => Ascii.eqb c "." || has_dot r
  end.

(** [channel.split(".")[-1]] *)
Fixpoint last_segment (s : string) : string :=
  match s with
  | EmptyString => EmptyString
  | String c r =>
      if has_dot r then last_segment r
      else if Ascii.eqb c "." then r else s
  end.

Fixpoint first_node_of_user (username : string)
    (names : list (string * string)) : string :=
  match names with
  | [] => ""
  | (node, user) :: rest =>
      if String.eqb user username then node
      else first_node_of_user username rest
  end.

Definition channel_to_node (channel : string) : string :=
  first_node_of_user (last_segment channel) NODES_TO_USER.
End IdMap.

(** ** dijkstra_rt.py

    A [Graph] is the adjacency mapping, in insertion order.  A cost is a
    double that holds a whole number, as the engine produces them (a unit
    cost per neighbour, and their sums); for these [float(w)] is the
    identity.  [math.inf] is [None].  The sum [d + float(w)] is taken in
    the whole numbers: this is the sum of the doubles as long as it does
    not exceed 2^53 in magnitude, and beyond that the doubles round.  The
    correctness of the search is therefore stated for graphs with
    [exact_costs], on which no sum that the search forms leaves this
    range. *)

Definition Graph : Type := list (string * list (string * Z)).

Record route : Type := Route { destino : string; next_hop : string; costo : Z }.

(** [graph.get(u, {})] *)
Definition graph_get (g : Graph) (u : string) : list (string * Z) :=
  default [] (alist_get u g).

(** [dist.get(v, math.inf)] and [prev.get(v)] *)
Definition dist_get (dist : gmap string (option Z)) (v : string) : option Z :=
  default None (dist !! v).
Definition prev_get (prev : gmap string (option string)) (v : string)
    : option string :=
  default None (prev !! v).

(** The three locals of [routing_table_for] that the loop updates. *)
Record dstate : Type := DState {
  dist : gmap string (option Z);
  prev : gmap string (option string);
  pq : list (Z * string)
}.

(** [heapq] on [(distance, node)] tuples.  The order of tuples is total, so
    the sequence of popped tuples depends only on the multiset pushed; the
    queue is kept as a list and [heappop] takes out a least tuple. *)
Definition tuple_ltb (a b : Z * string) : bool :=
  (a.1 <? b.1)%Z || ((a.1 =? b.1)%Z && String.ltb a.2 b.2).

Definition heappush (q : list (Z * string)) (x : Z * string)
    : list (Z * string) := x :: q.

Fixpoint heap_min (m : Z * string) (q : list (Z * string)) : Z * string :=
  match q with
  | [] => m
  | y :: q' => heap_min (if tuple_ltb y m then y else m) q'
  end.

Fixpoint remove_first (x : Z * string) (q : list (Z * string))
    : list (Z * string) :=
  match q with
  | [] => []
  | y :: q' => if decide (x = y) then q' else y :: remove_first x q'
  end.

Definition heappop (q : list (Z * string))
    : option ((Z * string) * list (Z * string)) :=
  match q with
  | [] => None
  | x :: q' => let m := heap_min x q' in Some (m, remove_first m q)
  end.

(** [nd < dist.get(v, math.inf)] *)
Definition lt_inf (nd : Z) (o : option Z) : bool :=
  match o with
  | Some d => (nd <? d)%Z
  | None => true
  end.

(** [d != dist[u]] for a finite [d] *)
Definition differs (d : Z) (o : option Z) : bool :=
  match o with
  | Some d' => negb (d =? d')%Z
  | None => true
  end.

(** The body of [for v, w in graph.get(u, {}).items()]; the sum is that
    of the doubles within 2^53, see above. *)
Definition relax (u : string) (d : Z) (st : dstate) (e : string * Z) : dstate :=
  let '(v, w) := e in
  let nd := (d + w)%Z in
  if lt_inf nd (dist_get (dist st) v) then
    DState (<[v := Some nd]> (dist st)) (<[v := Some u]> (prev st))
           (heappush (pq st) (nd, v))
  else st.

(** [while pq: ...]; one unit of [fuel] per pop, [None] when it runs out. *)
Fixpoint dijkstra_loop (fuel : nat) (g : Graph) (st : dstate) : option dstate :=
  match heappop (pq st) with
  | None => Some st
  | Some ((d, u), rest) =>
      match fuel with
      | O => None
      | S fuel' =>
          let st' := DState (dist st) (prev st) rest in
          if differs d (dist_get (dist st) u) then dijkstra_loop fuel' g st'
          else dijkstra_loop fuel' g (fold_left (relax u d) (graph_get g u) st')
      end
  end.

Definition dijkstra_init (g : Graph) (source : string) : dstate :=
  DState (<[source := Some 0%Z]> (list_to_map (map (fun n => (n, None)) (map fst g))))
         (list_to_map (map (fun n => (n, None)) (map fst g)))
         [(0%Z, source)].

(** [while prev.get(hop) and prev[hop] != source: hop = prev[hop]].
    The test is on the truth value of [prev.get(hop)]: [None] and the
    empty string both end the walk. *)
Fixpoint walk_back (fuel : nat) (prev : gmap string (option string))
    (source hop : string) : option string :=
  match prev_get prev hop with
  | Some p =>
      if negb (String.eqb p "") && negb (String.eqb p source) then
        match fuel with
        | O => None
        | S fuel' => walk_back fuel' prev source p
        end
      else Some hop
  | None => Some hop
  end.

(** [for dest in graph: ...]; both arms of the conditional expression that
    sets [next_hop] are [hop]. *)
Fixpoint build_table (fuel : nat) (st : dstate) (source : string)
    (dests : list string) : option (list route) :=
  match dests with
  | [] => Some []
  | dest :: rest =>
      match dist_get (dist st) dest with
      | Some c =>
          if String.eqb dest source then build_table fuel st source rest
          else
            hop ← walk_back fuel (prev st) source dest;
            table ← build_table fuel st source rest;
            Some (Route dest hop c :: table)
      | None => build_table fuel st source rest
      end
  end.

Definition routing_table_for (fuel : nat) (g : Graph) (source : string)
    : option (list route) :=
  st ← dijkstra_loop fuel g (dijkstra_init g source);
  build_table fuel st source (map fst g).

(** ** Effects of the engines

    A handler runs over the state of its router object and over the world
    outside it: the process's source of random identifiers and what the
    handler sends out.  An exception leaves the mutations made so far in
    place.  [Unmodelled] marks the few places where Python would go on with
    a value this model cannot hold; [OutOfFuel] a shortest-path search cut
    short by the step budget. *)

Inductive exn : Type :=
| KeyError | TypeError | ValueError | AttributeError | OverflowError
| Unmodelled | OutOfFuel.

Inductive result (A : Type) : Type :=
| Ok (a : A)
| Raise (e : exn).
Arguments Ok {A} a.
Arguments Raise {A} e.

(** What leaves the router: [transport.publish(channel, packet)], which
    serialises the packet as it is at that moment, and the console lines
    that report a delivery, a recomputed table, a missing route and an
    unknown destination. *)
Inductive event : Type :=
| Publish (channel : string) (packet : dict)
| Deliver (payload : value)
| Recalc (table : list route)
| NoRoute (dst_node : string)
| UnknownDest (dst_ch : string).

Record world : Type := World { rng : nat; log : list event }.

Definition M (St A : Type) : Type := St → world → result A * St * world.

#[global] Instance M_ret {St} : MRet (M St) :=
  λ A a s w, (Ok a, s, w).
#[global] Instance M_bind {St} : MBind (M St) :=
  λ A B f m s w,
    match m s w with
    | (Ok a, s', w') => f a s' w'
    | (Raise e, s', w') => (Raise e, s', w')
    end.

Definition get_state {St} : M St St := λ s w, (Ok s, s, w).
Definition modify {St} (f : St → St) : M St unit := λ s w, (Ok tt, f s, w).
Definition raise {St A} (e : exn) : M St A := λ s w, (Raise e, s, w).
Definition lift_opt {St A} (e : exn) (o : option A) : M St A :=
  match o with Some a => mret a | None => raise e end.
Definition emit {St} (ev : event) : M St unit :=
  λ s w, (Ok tt, s, World (rng w) (log w ++ [ev])).
Definition publish {St} (channel : string) (packet : dict) : M St unit :=
  emit (Publish channel packet).

(** [str(uuid.uuid4())]: the next identifier of the source [uuid4]. *)
Definition draw_uuid {St} (uuid4 : nat → string) : M St string :=
  λ s w, (Ok (uuid4 (rng w)), s, World (S (rng w)) (log w)).

(** [for x in l: body] and [[f(x) for x in l]] *)
Fixpoint for_each {St A} (l : list A) (body : A → M St unit) : M St unit :=
  match l with
  | [] => mret tt
  | x :: rest => body x ≫= λ _, for_each rest body
  end.

Fixpoint map_m {St A B} (f : A → M St B) (l : list A) : M St (list B) :=
  match l with
  | [] => mret []
  | x :: rest => y ← f x; ys ← map_m f rest; mret (y :: ys)
  end.

(** [try: body / except Exception: print(...)] *)
Definition try_except {St} (body : M St unit) : M St unit :=
  λ s w,
    match body s w with
    | (Raise _, s', w') => (Ok tt, s', w')
    | r => r
    end.

(** Keys of sets and of the LSDB: the hashable values. *)
Inductive hkey : Type :=
| HNone
| HInt (z : Z)
| HStr (s : string).

#[global] Instance hkey_eq_dec : EqDecision hkey.
Proof. solve_decision. Defined.

#[global] Instance hkey_countable : Countable hkey.
Proof.
  refine (inj_countable'
    (λ k, match k with
          | HNone => inl tt | HInt z => inr (inl z) | HStr s => inr (inr s)
          end)
    (λ x, match x with
          | inl _ => HNone | inr (inl z) => HInt z | inr (inr s) => HStr s
          end) _).
  by intros [].
Defined.

(** [hash(v)]; [None] is the [TypeError] of a list or a dict. *)
Definition py_hash (v : value) : option hkey :=
  match v with
  | VNone => Some HNone
  | VInt z => Some (HInt z)
  | VStr s => Some (HStr s)
  | VList _ | VDict _ => None
  end.

(** [s.split(...)] and the like need a string. *)
Definition as_str {St} (v : value) : M St string :=
  match v with VStr s => mret s | _ => raise AttributeError end.

(** [dict(v)].  Python also accepts a list of two-element sequences, whose
    keys need not be strings. *)
Definition py_dict {St} (v : value) : M St dict :=
  match v with
  | VDict d => mret d
  | VList [] => mret []
  | VList _ => raise Unmodelled
  | VStr s => if String.eqb s "" then mret [] else raise ValueError
  | _ => raise TypeError
  end.

(** The double nearest to the whole number [z], as a whole number: all
    whole numbers up to 2^53 in magnitude are doubles; above, a double has
    a significand [q] of 53 bits, the nearest one is taken and of two
    equally near ones that with the even significand.  [None] when the
    result is beyond the largest double. *)
Definition round_double (z : Z) : option Z :=
  let a := Z.abs z in
  if (a <=? 2 ^ 53)%Z then Some z else
  let ulp := (2 ^ (Z.log2 a - 52))%Z in
  let q := (a / ulp)%Z in
  let r := (a mod ulp)%Z in
  let q' := if (2 * r <? ulp)%Z then q
            else if (ulp <? 2 * r)%Z then (q + 1)%Z
            else if Z.even q then q else (q + 1)%Z in
  if (2 ^ 1024 <=? q' * ulp)%Z then None
  else Some (Z.sgn z * (q' * ulp))%Z.

(** [float(c)]: an [int] is rounded to the nearest double, or is too
    large for one.  Python also parses numeric strings. *)
Definition py_float {St} (c : value) : M St Z :=
  match c with
  | VInt z => lift_opt OverflowError (round_double z)
  | VStr _ => raise Unmodelled
  | _ => raise TypeError
  end.

(** [{n: c for n in names}] *)
Definition const_dict {V} (c : V) (names : list string) : list (string * V) :=
  fold_left (λ d n, alist_set n c d) names [].

(** ** redis_transport.py: the listener

    [_listen_loop] hands every packet that arrives on the node's channel
    to the callback of the router, in the order of arrival; an exception
    that the callback raises is printed and the loop goes on with the
    next packet.  [msgs] are the packets as [json.loads] returns them. *)
Definition _listen_loop {St} (on_packet : value → M St unit)
    (msgs : list value) : M St unit :=
  for_each msgs (λ pkt, try_except (on_packet pkt)).

(** ** router_lsr_redis.py *)

Module LinkStateRouterRedis.

Record router : Type := Router {
  node_id : string;
  channel_local : string;
  neighbors : list string;
  (* originator to the copy of its neighbour costs; the one-key record
     [{"neighbors": ...}] around the copy is left out *)
  lsdb : list (hkey * dict);
  sequence_number : Z;
  seen_lsp_ids : gset hkey;
  routing_table : list route
}.

Definition set_neighbors (f : list string → list string) (r : router) : router :=
  Router (node_id r) (channel_local r) (f (neighbors r)) (lsdb r)
         (sequence_number r) (seen_lsp_ids r) (routing_table r).
Definition set_lsdb (f : list (hkey * dict) → list (hkey * dict)) (r : router)
    : router :=
  Router (node_id r) (channel_local r) (neighbors r) (f (lsdb r))
         (sequence_number r) (seen_lsp_ids r) (routing_table r).
Definition set_sequence_number (f : Z → Z) (r : router) : router :=
  Router (node_id r) (channel_local r) (neighbors r) (lsdb r)
         (f (sequence_number r)) (seen_lsp_ids r) (routing_table r).
Definition set_seen_lsp_ids (f : gset hkey → gset hkey) (r : router) : router :=
  Router (node_id r) (channel_local r) (neighbors r) (lsdb r)
         (sequence_number r) (f (seen_lsp_ids r)) (routing_table r).
Definition set_routing_table (t : list route) (r : router) : router :=
  Router (node_id r) (channel_local r) (neighbors r) (lsdb r)
         (sequence_number r) (seen_lsp_ids r) t.

Section Engine.
Variables SECTION GROUP : string.
Variable NODES_TO_USER : list (string * string).
Variable uuid4 : nat → string.
(** Step budget handed to [routing_table_for]. *)
Variable fuel : nat.

(** [__init__]: neighbours are the keys of the node's row of the topology. *)
Definition init (node : string) (graph : Graph) : option router :=
  ch ← alist_get node (NODE_TO_CHANNEL SECTION GROUP NODES_TO_USER);
  Some (Router node ch (map fst (graph_get graph node)) [] 0%Z ∅ []).

Definition channel_of (node : string) : M router string :=
  lift_opt KeyError (get_channel SECTION GROUP NODES_TO_USER node).

Definition _flood_lsp (packet : dict) (exclude : value) : M router unit :=
  st ← get_state;
  for_each (neighbors st) (λ neigh,
    ch ← channel_of neigh;
    if truthy exclude && eq_str exclude ch then mret tt
    else publish ch packet).

Definition _emit_hello : M router unit :=
  st ← get_state;
  for_each (neighbors st) (λ neigh,
    ch ← channel_of neigh;
    publish ch (make_packet "hello" (channel_local st) ch 1 "lsr"
                  VNone VNone (VStr "HELLO"))).

Definition _emit_lsp : M router unit :=
  st ← get_state;
  let neighbors_costs := const_dict (VInt 1) (neighbors st) in
  chans ← map_m channel_of (neighbors st);
  let lsp := make_packet "lsp" (channel_local st) "*" 8 "lsr"
               VNone (VList (map VStr chans)) (VStr "") in
  let lsp := alist_set "originator" (VStr (node_id st)) lsp in
  let lsp := alist_set "neighbors" (VDict neighbors_costs) lsp in
  modify (set_sequence_number (λ n, n + 1)%Z) ≫= λ _,
  _flood_lsp lsp VNone.

Definition _handle_hello (packet : dict) : M router unit :=
  sender_ch ← as_str (get_default "from" (VStr "") packet);
  let sender_node := channel_to_node NODES_TO_USER sender_ch in
  st ← get_state;
  (if negb (String.eqb sender_node "")
      && negb (bool_decide (sender_node ∈ neighbors st))
   then modify (set_neighbors (λ l, l ++ [sender_node]))
   else mret tt) ≫= λ _,
  let ack := make_packet "hello_ack" (channel_local st) sender_ch 1 "lsr"
               VNone VNone (VStr "HELLO_ACK") in
  publish sender_ch ack.

Definition _handle_hello_ack (packet : dict) : M router unit :=
  sender_ch ← as_str (get_default "from" (VStr "") packet);
  let sender_node := channel_to_node NODES_TO_USER sender_ch in
  st ← get_state;
  if negb (String.eqb sender_node "")
     && negb (bool_decide (sender_node ∈ neighbors st))
  then modify (set_neighbors (λ l, l ++ [sender_node]))
  else mret tt.

(** The rows of the LSDB as a graph, the node's own row added from its
    neighbours when no advertisement of its own is stored.  A row keyed by
    a number cannot be handed to the string-keyed search. *)
Definition _calculate_routing_table : M router unit :=
  st ← get_state;
  graph ← map_m (λ '(node, rec),
             row ← map_m (λ '(v, c), c' ← py_float c; mret (v, c')) rec;
             mret (node, row)) (lsdb st);
  let graph :=
    if alist_has (HStr (node_id st)) graph then graph
    else alist_set (HStr (node_id st)) (const_dict 1%Z (neighbors st)) graph in
  g ← map_m (λ '(k, row),
         match k with
         | HStr s => mret (s, row)
         | _ => raise Unmodelled
         end) graph;
  table ← lift_opt OutOfFuel (routing_table_for fuel g (node_id st));
  modify (set_routing_table table) ≫= λ _,
  emit (Recalc table).

Definition _handle_lsp (packet : dict) : M router unit :=
  u ← draw_uuid uuid4;
  let lsp_id := get_packet_id packet u in
  if negb (truthy lsp_id) then mret tt else
  k ← lift_opt TypeError (py_hash lsp_id);
  st ← get_state;
  if bool_decide (k ∈ seen_lsp_ids st) then mret tt else
  modify (set_seen_lsp_ids (λ s, {[k]} ∪ s)) ≫= λ _,
  let originator := get_default "originator" (VStr "") packet in
  if negb (truthy originator) then mret tt else
  record ← py_dict (get_default "neighbors" (VDict []) packet);
  key ← lift_opt TypeError (py_hash originator);
  modify (set_lsdb (alist_set key record)) ≫= λ _,
  let exclude := get_default "from" (VStr "") packet in
  _flood_lsp packet exclude ≫= λ _,
  _calculate_routing_table.

Fixpoint _get_next_hop (table : list route) (destination_node : string)
    : string :=
  match table with
  | [] => ""
  | entry :: rest =>
      if String.eqb (destino entry) destination_node then next_hop entry
      else _get_next_hop rest destination_node
  end.

Definition _forward_packet (packet : dict) (next_hop_node : string)
    : M router unit :=
  let '(h, packet) := dec_hops packet in
  if (h <=? 0)%Z then mret tt else
  ch ← channel_of next_hop_node;
  publish ch packet.

Definition _handle_data_packet (packet : dict) : M router unit :=
  st ← get_state;
  if is_deliver_to_me packet (channel_local st)
  then emit (Deliver (get_default "payload" VNone packet)) else
  dst_ch ← as_str (get_default "to" (VStr "") packet);
  let dst_node := channel_to_node NODES_TO_USER dst_ch in
  if String.eqb dst_node "" then emit (UnknownDest dst_ch) else
  let nh := _get_next_hop (routing_table st) dst_node in
  if negb (String.eqb nh "") then _forward_packet packet nh
  else emit (NoRoute dst_node).

Definition _on_packet (packet : value) : M router unit :=
  let packet := normalize_packet packet in
  if negb (validate_packet packet) then mret tt else
  match packet with
  | VDict d =>
      let ty := get_default "type" VNone d in
      if eq_str ty "hello" then _handle_hello d
      else if eq_str ty "hello_ack" then _handle_hello_ack d
      else if eq_str ty "lsp" then _handle_lsp d
      else if eq_str ty "message" then _handle_data_packet d
      else mret tt
  | _ => mret tt
  end.

Definition send (dst_node : string) (payload : value) (hops : Z)
    : M router unit :=
  st ← get_state;
  dst_ch ← channel_of dst_node;
  let pkt := make_packet "message" (channel_local st) dst_ch hops "lsr"
               VNone VNone payload in
  let nh := _get_next_hop (routing_table st) dst_node in
  if negb (String.eqb nh "") then _forward_packet pkt nh
  else for_each (neighbors st) (λ neigh,
         ch ← channel_of neigh; publish ch pkt).

End Engine.
End LinkStateRouterRedis.

(** ** router_flooding_redis.py *)

Module FloodingRouterRedis.

Record router : Type := Router {
  node_id : string;
  channel_local : string;
  neighbors : list string;
  seen : gset hkey
}.

Definition set_seen (f : gset hkey → gset hkey) (r : router) : router :=
  Router (node_id r) (channel_local r) (neighbors r) (f (seen r)).

Section Engine.
Variables SECTION GROUP : string.
Variable NODES_TO_USER : list (string * string).
Variable uuid4 : nat → string.

Definition init (node : string) (graph : Graph) : option router :=
  ch ← alist_get node (NODE_TO_CHANNEL SECTION GROUP NODES_TO_USER);
  Some (Router node ch (map fst (graph_get graph node)) ∅).

Definition channel_of (node : string) : M router string :=
  lift_opt KeyError (get_channel SECTION GROUP NODES_TO_USER node).

(** The progress line printed after each publish formats
    [get_packet_id(packet)], which draws one more identifier. *)
Definition _flood_forward (packet : dict) : M router unit :=
  st ← get_state;
  for_each (neighbors st) (λ neigh,
    try_except (
      ch ← channel_of neigh;
      publish ch packet ≫= λ _,
      draw_uuid uuid4 ≫= λ _, mret tt)).

Definition _on_packet (packet : value) : M router unit :=
  let packet := normalize_packet packet in
  if negb (validate_packet packet) then mret tt else
  match packet with
  | VDict d =>
      u ← draw_uuid uuid4;
      let pkt_id := get_packet_id d u in
      if negb (truthy pkt_id) then mret tt else
      k ← lift_opt TypeError (py_hash pkt_id);
      st ← get_state;
      if bool_decide (k ∈ seen st) then mret tt else
      modify (set_seen (λ s, {[k]} ∪ s)) ≫= λ _,
      if is_deliver_to_me d (channel_local st)
      then emit (Deliver (get_default "payload" (VStr "") d)) else
      let '(h, d) := dec_hops d in
      if (h <=? 0)%Z then mret tt else
      _flood_forward d
  | _ => mret tt
  end.

Definition send (dst_node : string) (payload : value) (hops : Z)
    : M router unit :=
  st ← get_state;
  match get_channel SECTION GROUP NODES_TO_USER dst_node with
  | None => mret tt
  | Some dst_channel =>
      let pkt := make_packet "message" (channel_local st) dst_channel hops
                   "flooding" VNone VNone payload in
      u ← draw_uuid uuid4;
      let pkt_id := get_packet_id pkt u in
      (if truthy pkt_id then
         k ← lift_opt TypeError (py_hash pkt_id);
         modify (set_seen (λ s, {[k]} ∪ s))
       else mret tt) ≫= λ _,
      for_each (neighbors st) (λ neigh,
        try_except (ch ← channel_of neigh; publish ch pkt))
  end.

End Engine.
End FloodingRouterRedis.

(** ** interactive_lsr_router.py: the advertisement timer

    [InteractiveLSRRouter] keeps the fields of [LinkStateRouterRedis] and a
    set of discovered neighbours that the timer does not touch; its
    [_flood_lsp] is the same function.  The costs are keyed by channel,
    and the headers are replaced by a one-element list that holds the
    identity. *)

Module InteractiveLSRRouter.
Section Engine.
Variables SECTION GROUP : string.
Variable NODES_TO_USER : list (string * string).

Definition _emit_lsp : M LinkStateRouterRedis.router unit :=
  st ← get_state;
  chans ← map_m (LinkStateRouterRedis.channel_of SECTION GROUP NODES_TO_USER)
             (LinkStateRouterRedis.neighbors st);
  let neighbors_costs := const_dict (VInt 1) chans in
  let lsp := make_packet "info" (LinkStateRouterRedis.channel_local st) "*" 8
               "lsr" VNone VNone (VStr "") in
  let lsp := alist_set "originator"
               (VStr (LinkStateRouterRedis.node_id st)) lsp in
  let lsp := alist_set "neighbors" (VDict neighbors_costs) lsp in
  let lsp := alist_set "headers"
               (VList [VDict [("id",
                  VStr ("LSP-" +:+ LinkStateRouterRedis.node_id st +:+ "-"
                        +:+ pretty (LinkStateRouterRedis.sequence_number st)))]])
               lsp in
  modify (LinkStateRouterRedis.set_sequence_number (λ n, n + 1)%Z) ≫= λ _,
  LinkStateRouterRedis._flood_lsp SECTION GROUP NODES_TO_USER lsp VNone.

End Engine.
End InteractiveLSRRouter.

(** ** dijkstra_rt.py: [load_topology]

    What follows [json.load]: [data] is the parsed file.  A row given as a
    list names its neighbours, which get the unit cost; a name that is a
    number would become a key that is no string. *)

Definition topology_row {St} (neigh : value) : M St (list (string * Z)) :=
  match neigh with
  | VDict d => map_m (λ '(v, w), c ← py_float w; mret (v, c)) d
  | VList l =>
      names ← map_m (λ v, match v with
                          | VStr n => mret n
                          | VList _ | VDict _ => raise TypeError
                          | _ => raise Unmodelled
                          end) l;
      mret (const_dict 1%Z names)
  | _ => mret []
  end.

Definition load_topology {St} (data : value) : M St Graph :=
  match data with
  | VDict d =>
      match get_default "config" data d with
      | VDict cfg =>
          map_m (λ '(u, neigh), row ← topology_row neigh; mret (u, row)) cfg
      | _ => raise AttributeError
      end
  | _ => raise AttributeError
  end.

(** ** A small deployment for the examples

    Three nodes in section 10, group 0, and a source of identifiers that
    never repeats. *)

Definition demo_names : list (string * string) :=
  [("A", "alice"); ("B", "bob"); ("C", "carol")].

Definition demo_uuid4 (n : nat) : string := "uuid-" +:+ pretty n.

(** Node A of the link-state engine with B as its only neighbour. *)
Definition demo_lsr_A : LinkStateRouterRedis.router :=
  LinkStateRouterRedis.Router "A" "sec10.grupo0.alice" ["B"] [] 0%Z ∅ [].

(** An advertisement of C with no hops left, as it reaches A from C. *)
Definition demo_lsp : dict :=
  [ ("type", VStr "lsp"); ("from", VStr "sec10.grupo0.carol");
    ("to", VStr "*"); ("hops", VInt 0);
    ("headers", VDict [("alg", VStr "lsr"); ("id", VStr "LSP-C-0")]);
    ("payload", VStr ""); ("originator", VStr "C");
    ("neighbors", VDict [("B", VInt 1)]) ].

(** A data packet from B for C, as it reaches A. *)
Definition demo_message : dict :=
  make_packet "message" "sec10.grupo0.bob" "sec10.grupo0.carol" 5 "lsr"
    VNone VNone (VStr "hi").

(** Nodes of the flooding engine on the line A - B - C. *)
Definition demo_flood_A : FloodingRouterRedis.router :=
  FloodingRouterRedis.Router "A" "sec10.grupo0.alice" ["B"] ∅.
Definition demo_flood_B : FloodingRouterRedis.router :=
  FloodingRouterRedis.Router "B" "sec10.grupo0.bob" ["A"; "C"] ∅.
Definition demo_flood_C : FloodingRouterRedis.router :=
  FloodingRouterRedis.Router "C" "sec10.grupo0.carol" ["B"] ∅.

(** The topology A - B - C of unit costs with a costly link A - C and the
    isolated node D. *)
Definition demo_graph : Graph :=
  [ ("A", [("B", 1%Z); ("C", 5%Z)]); ("B", [("A", 1%Z); ("C", 1%Z)]);
    ("C", [("B", 1%Z); ("A", 5%Z)]); ("D", []) ].

(** A topology in which the node between S and B is named by the empty
    string. *)
Definition unnamed_graph : Graph :=
  [ ("S", [("", 1%Z)]); ("", [("B", 1%Z)]); ("B", []) ].

(** The line A - B - C with the unit costs of the engine. *)
Definition line_graph : Graph :=
  [ ("A", [("B", 1%Z)]); ("B", [("A", 1%Z); ("C", 1%Z)]);
    ("C", [("B", 1%Z)]) ].

(** A data packet from A for C that carries an identity of its own, as the
    flooding engine needs it; and a broadcast with one. *)
Definition demo_flood_packet : dict :=
  alist_set "headers" (VDict [("alg", VStr "flooding"); ("id", VStr "m-1")])
    (make_packet "message" "sec10.grupo0.alice" "sec10.grupo0.carol" 3
       "flooding" VNone VNone (VStr "hi")).
Definition demo_flood_broadcast : dict :=
  alist_set "headers" (VDict [("alg", VStr "flooding"); ("id", VStr "m-2")])
    (make_packet "message" "sec10.grupo0.alice" "*" 3
       "flooding" VNone VNone (VStr "all")).

(** Node A after the advertisements of B and C have been stored. *)
Definition demo_lsr_A_learned : LinkStateRouterRedis.router :=
  LinkStateRouterRedis.Router "A" "sec10.grupo0.alice" ["B"]
    [ (HStr "B", [("A", VInt 1); ("C", VInt 1)]);
      (HStr "C", [("B", VInt 1)]) ]
    0%Z ∅ [].

(** A topology file of the line A - B - C, rows given as lists. *)
Definition demo_topology : dict :=
  [ ("type", VStr "topo");
    ("config", VDict [ ("A", VList [VStr "B"]);
                       ("B", VList [VStr "A"; VStr "C"]);
                       ("C", VList [VStr "B"]) ]) ].

(** ** Vocabulary of the properties *)

(** A handler [respects] a relation between the configuration before and
    the configuration after when every run of it, returning or raising,
    relates the two. *)
Definition respects {St A} (R : St * world → St * world → Prop)
    (m : M St A) : Prop :=
  ∀ s w, R (s, w) ((m s w).1.2, (m s w).2).

(** Growth of the link-state router: the neighbour list is extended at its
    end and the set of seen advertisement identities is enlarged. *)
Definition grows (c c' : LinkStateRouterRedis.router * world) : Prop :=
  LinkStateRouterRedis.neighbors c.1 `prefix_of`
    LinkStateRouterRedis.neighbors c'.1
  ∧ LinkStateRouterRedis.seen_lsp_ids c.1 ⊆
    LinkStateRouterRedis.seen_lsp_ids c'.1.

(** What a run appends to the log consists of events that satisfy [P]. *)
Definition emits {St} (P : event → Prop) (c c' : St * world) : Prop :=
  ∃ evs, log c'.2 = log c.2 ++ evs ∧ Forall P evs.

(** A packet published by a forwarding step that received it with
    [hops_in] hops left: the hop count went down by one and is positive. *)
Definition ttl_ok (hops_in : Z) (ev : event) : Prop :=
  match ev with
  | Publish _ p =>
      alist_get "hops" p = Some (VInt (hops_in - 1)) ∧ (0 < hops_in - 1)%Z
  | _ => True
  end.

(** A published packet is the packet [d], field for field. *)
Definition publishes_only (d : dict) (ev : event) : Prop :=
  match ev with
  | Publish _ p => p = d
  | _ => True
  end.

(** *** Paths in a graph *)

(** [v] stands with cost [w] in the row of [u]. *)
Definition edge (g : Graph) (u v : string) (w : Z) : Prop :=
  (v, w) ∈ graph_get g u.

Definition nonneg (g : Graph) : Prop :=
  ∀ u v w, edge g u v w → (0 ≤ w)%Z.

(** [walk g s l v c]: starting at [s] and visiting the nodes [l] in this
    order, the last of them [v], one follows edges of [g] whose costs,
    added up from the source on as the search adds them, come to [c]. *)
Inductive walk (g : Graph) (s : string) : list string → string → Z → Prop :=
| walk_nil : walk g s [] s 0%Z
| walk_snoc l u c v w :
    walk g s l u c → edge g u v w → walk g s (l ++ [v]) v (c + w)%Z.

(** [d] is the cost of a cheapest walk from [s] to [v]. *)
Definition shortest (g : Graph) (s v : string) (d : Z) : Prop :=
  (∃ l, walk g s l v d) ∧ ∀ l' d', walk g s l' v d' → (d ≤ d')%Z.

Definition reachable (g : Graph) (s v : string) : Prop :=
  ∃ l c, walk g s l v c.

(** The number of edges, an upper bound on the pushes of the search. *)
Definition edge_count (g : Graph) : nat :=
  sum_list (map (λ row, length row.2) g).

(** *** The invariant of the search

    [S] is the set of nodes popped with their current distance (settled),
    [done] the part of the row of the node [u] under relaxation that the
    inner loop has gone through, [k] the number of nodes settled. *)

(** The rows not yet used: what the search may still push. *)
Definition pending (S : gset string) (g : Graph) : nat :=
  sum_list (map (λ row, if decide (row.1 ∈ S) then 0 else length row.2) g).

(** The chain of predecessors of [v], from the neighbour of the source
    down to [v]; all but [v] are settled. *)
Inductive schain (S : gset string) (prev : gmap string (option string))
    (s : string) : string → list string → Prop :=
| sc_first v : prev_get prev v = Some s → schain S prev s v [v]
| sc_step v u l :
    prev_get prev v = Some u → u ≠ s → u ∈ S →
    schain S prev s u l → schain S prev s v (l ++ [v]).

Definition relaxed_edges (g : Graph) (S : gset string) (u : string)
    (done : list (string * Z)) (u' v' : string) (w' : Z) : Prop :=
  (u' ∈ S ∧ edge g u' v' w') ∨ (u' = u ∧ (v', w') ∈ done).

Record inv (g : Graph) (s : string) (S : gset string)
    (E : string → string → Z → Prop) (k : nat) (st : dstate) : Prop := Inv {
  inv_src : dist_get (dist st) s = Some 0%Z;
  inv_prev_src : prev_get (prev st) s = None;
  inv_pos : ∀ v d, dist_get (dist st) v = Some d → (0 ≤ d)%Z;
  inv_settled_fin : ∀ u, u ∈ S → is_Some (dist_get (dist st) u);
  inv_edges : ∀ u v w du,
    E u v w → dist_get (dist st) u = Some du →
    ∃ dv, dist_get (dist st) v = Some dv ∧ (dv ≤ du + w)%Z;
  inv_queued : ∀ v d,
    dist_get (dist st) v = Some d → v ∉ S → (d, v) ∈ pq st;
  inv_settled_le : ∀ u du d v,
    u ∈ S → dist_get (dist st) u = Some du → (d, v) ∈ pq st → (du ≤ d)%Z;
  inv_prev : ∀ v u,
    prev_get (prev st) v = Some u →
    u ∈ S ∧ v ≠ s ∧
    ∃ du w, dist_get (dist st) u = Some du ∧ edge g u v w
            ∧ dist_get (dist st) v = Some (du + w)%Z;
  inv_chain : ∀ v d,
    dist_get (dist st) v = Some d → v ≠ s →
    ∃ l, schain S (prev st) s v l ∧ (length l ≤ k)%nat
}.

(** What holds in addition while the row of the settled node [u], popped
    at distance [d], is gone through; [k] counts the nodes settled before
    [u]. *)
Record relaxing (s : string) (S : gset string) (u : string) (d : Z)
    (k : nat) (st : dstate) : Prop := Relaxing {
  rx_in : u ∈ S;
  rx_dist : dist_get (dist st) u = Some d;
  rx_le : ∀ x dx, x ∈ S → dist_get (dist st) x = Some dx → (dx ≤ d)%Z;
  rx_chain : u ≠ s → ∃ l, schain S (prev st) s u l ∧ (length l ≤ k)%nat
}.

(** *** Further vocabulary *)

(** A relation between the router object before and after, whatever
    happens to the world. *)
Definition on_state {St} (Rs : St → St → Prop) (c c' : St * world) : Prop :=
  Rs c.1 c'.1.

(** Every node of the list has a channel. *)
Definition resolvable (SECTION GROUP : string)
    (names : list (string * string)) (l : list string) : Prop :=
  Forall (λ n, is_Some (get_channel SECTION GROUP names n)) l.

(** Nothing is published to the channel [ex]. *)
Definition not_to (ex : string) (ev : event) : Prop :=
  match ev with
  | Publish ch _ => ch ≠ ex
  | _ => True
  end.

(** What is published does not pass [validate_packet]. *)
Definition rejected (ev : event) : Prop :=
  match ev with
  | Publish _ p => validate_packet (VDict p) = false
  | _ => True
  end.

(** No packet is published at all. *)
Definition silent (ev : event) : Prop :=
  match ev with
  | Publish _ _ => False
  | _ => True
  end.

(** The largest cost of the graph, 0 when it has no edge. *)
Definition max_cost (g : Graph) : Z :=
  fold_right Z.max 0%Z (map snd (concat (map snd g))).

(** Costs for which the search stays within the whole numbers that
    doubles add without rounding.  A sum that the search forms is the
    distance of a node, the cost of a walk through nodes that were
    reached over different edges, plus the cost of one more edge: with
    this bound it is at most 2^53. *)
Definition exact_costs (g : Graph) : Prop :=
  (Z.of_nat (S (S (edge_count g))) * max_cost g ≤ 2 ^ 53)%Z.

Definition unit_costs (g : Graph) : Prop :=
  ∀ u v w, edge g u v w → w = 1%Z.

(** Relations between the link-state router before and after. *)
Definition keeps_reach (SECTION GROUP : string)
    (names : list (string * string)) (s s' : LinkStateRouterRedis.router)
    : Prop :=
  resolvable SECTION GROUP names (LinkStateRouterRedis.neighbors s) →
  resolvable SECTION GROUP names (LinkStateRouterRedis.neighbors s').

Definition keeps_rows (s s' : LinkStateRouterRedis.router) : Prop :=
  ∀ k, is_Some (alist_get k (LinkStateRouterRedis.lsdb s)) →
       is_Some (alist_get k (LinkStateRouterRedis.lsdb s')).

Definition keeps_identity (s s' : LinkStateRouterRedis.router) : Prop :=
  LinkStateRouterRedis.node_id s' = LinkStateRouterRedis.node_id s
  ∧ LinkStateRouterRedis.channel_local s'
    = LinkStateRouterRedis.channel_local s
  ∧ (LinkStateRouterRedis.sequence_number s
     ≤ LinkStateRouterRedis.sequence_number s')%Z.

(** What the flooding router keeps: its identity and its neighbours are
    fixed, the set of seen identities only gets larger. *)
Definition flood_keeps (s s' : FloodingRouterRedis.router) : Prop :=
  FloodingRouterRedis.node_id s' = FloodingRouterRedis.node_id s
  ∧ FloodingRouterRedis.channel_local s' = FloodingRouterRedis.channel_local s
  ∧ FloodingRouterRedis.neighbors s' = FloodingRouterRedis.neighbors s
  ∧ FloodingRouterRedis.seen s ⊆ FloodingRouterRedis.seen s'.

(** A topology file that gives every node the list of its neighbours'
    names. *)
Definition rows_of_names (cfg : dict) : Prop :=
  Forall (λ row, ∃ names, row.2 = VList (map VStr names)) cfg.

(* ================================================================== *)
(** * Properties *)

(** ** Packet model *)

Lemma alist_get_set_eq {K} `{EqDecision K} {V} (k : K) (v : V) d :
  alist_get k (alist_set k v d) = Some v.
Proof.
  induction d as [|[k' v'] d IH]; simpl.
  - by rewrite decide_True.
  - destruct (decide (k = k')) as [->|Hne]; simpl.
    + by rewrite decide_True.
    + by rewrite decide_False.
Qed.

Lemma alist_get_set_ne {K} `{EqDecision K} {V} (k k' : K) (v : V) d :
  k ≠ k' → alist_get k' (alist_set k v d) = alist_get k' d.
Proof.
  intros Hne. induction d as [|[k0 v0] d IH]; simpl.
  - by rewrite decide_False.
  - destruct (decide (k = k0)) as [->|Hne0]; simpl.
    + by rewrite !decide_False.
    + destruct (decide (k' = k0)); [done|apply IH].
Qed.

(** ** Reasoning about handlers

    A relation between the configuration before and after, reflexive and
    transitive, that every primitive step of a handler respects is
    respected by the handler, whether it returns or raises. *)

Section Respects.
Context {St : Type}.
Variable R : St * world → St * world → Prop.
Hypothesis R_refl : ∀ c, R c c.
Hypothesis R_trans : ∀ a b c, R a b → R b c → R a c.

Lemma respects_ret {A} (a : A) : respects R (mret a).
Proof. intros s w. apply R_refl. Qed.

Lemma respects_raise {A} e : respects R (raise e : M St A).
Proof. intros s w. apply R_refl. Qed.

Lemma respects_get : respects R get_state.
Proof. intros s w. apply R_refl. Qed.

Lemma respects_lift_opt {A} e (o : option A) : respects R (lift_opt e o).
Proof. destruct o; [apply respects_ret|apply respects_raise]. Qed.

Lemma respects_bind {A B} (m : M St A) (f : A → M St B) :
  respects R m → (∀ a, respects R (f a)) → respects R (m ≫= f).
Proof.
  intros Hm Hf s w. unfold mbind, M_bind.
  specialize (Hm s w). destruct (m s w) as [[[a|e] s'] w']; simpl in *.
  - eapply R_trans; [exact Hm|apply Hf].
  - exact Hm.
Qed.

Lemma respects_for_each {A} (l : list A) (body : A → M St unit) :
  (∀ x, respects R (body x)) → respects R (for_each l body).
Proof.
  intros Hb. induction l as [|x l IH]; simpl.
  - apply respects_ret.
  - apply respects_bind; [apply Hb|intros _; exact IH].
Qed.

Lemma respects_map_m {A B} (f : A → M St B) (l : list A) :
  (∀ x, respects R (f x)) → respects R (map_m f l).
Proof.
  intros Hf. induction l as [|x l IH]; simpl.
  - apply respects_ret.
  - apply respects_bind; [apply Hf|intros y].
    apply respects_bind; [exact IH|intros ys; apply respects_ret].
Qed.

Lemma respects_try_except (body : M St unit) :
  respects R body → respects R (try_except body).
Proof.
  intros Hb s w. unfold try_except. specialize (Hb s w).
  by destruct (body s w) as [[[a|e] s'] w'].
Qed.

Lemma respects_as_str v : respects R (as_str v).
Proof. destruct v; first [apply respects_ret|apply respects_raise]. Qed.

Lemma respects_py_dict v : respects R (py_dict v).
Proof.
  destruct v as [| |s|[|]|]; simpl;
    try first [apply respects_ret|apply respects_raise].
  destruct (String.eqb s ""); [apply respects_ret|apply respects_raise].
Qed.

Lemma respects_py_float v : respects R (py_float v).
Proof.
  destruct v;
    first [apply respects_ret|apply respects_raise|apply respects_lift_opt].
Qed.

Lemma respects_if {A} (b : bool) (m1 m2 : M St A) :
  respects R m1 → respects R m2 → respects R (if b then m1 else m2).
Proof. by destruct b. Qed.

End Respects.

Section Emits.
Context {St : Type}.
Variable P : event → Prop.

Lemma emits_refl (c : St * world) : emits P c c.
Proof. exists []. by rewrite app_nil_r. Qed.

Lemma emits_trans (a b c : St * world) :
  emits P a b → emits P b c → emits P a c.
Proof.
  intros (e1 & H1 & F1) (e2 & H2 & F2). exists (e1 ++ e2). split.
  - by rewrite H2, H1, app_assoc.
  - by apply Forall_app.
Qed.

Lemma emits_modify (f : St → St) : respects (emits P) (modify f).
Proof. intros s w. exists []. simpl. by rewrite app_nil_r. Qed.

Lemma emits_draw uuid4 : respects (emits P) (draw_uuid uuid4 : M St string).
Proof. intros s w. exists []. simpl. by rewrite app_nil_r. Qed.

Lemma emits_emit ev : P ev → respects (emits P) (emit ev : M St unit).
Proof. intros Hev s w. exists [ev]. simpl. split; [done|by constructor]. Qed.

End Emits.

Ltac emits_step :=
  first
    [ apply (respects_ret _ (emits_refl _))
    | apply (respects_raise _ (emits_refl _))
    | apply (respects_get _ (emits_refl _))
    | apply (respects_lift_opt _ (emits_refl _))
    | apply (respects_as_str _ (emits_refl _))
    | apply (respects_py_dict _ (emits_refl _))
    | apply (respects_py_float _ (emits_refl _))
    | apply emits_modify
    | apply emits_draw
    | apply (respects_for_each _ (emits_refl _) (emits_trans _)); intros ?
    | apply (respects_map_m _ (emits_refl _) (emits_trans _)); intros ?
    | apply respects_try_except
    | apply respects_if
    | apply (respects_bind _ (emits_trans _)); [|intros ?] ].

(** ** Link-state engine: neighbours and seen identities only grow *)

Module LSRFacts.
Import LinkStateRouterRedis.

Lemma grows_refl c : grows c c.
Proof. by unfold grows. Qed.

Lemma grows_trans a b c : grows a b → grows b c → grows a c.
Proof. unfold grows. intros [? ?] [? ?]. split; by etrans. Qed.

Lemma grows_modify f :
  (∀ s, neighbors s `prefix_of` neighbors (f s)
        ∧ seen_lsp_ids s ⊆ seen_lsp_ids (f s)) →
  respects grows (modify f).
Proof. intros Hf s w. apply Hf. Qed.

Lemma grows_emit ev : respects grows (emit ev : M router unit).
Proof. intros s w. by unfold grows. Qed.

Lemma grows_draw uuid4 : respects grows (draw_uuid uuid4 : M router string).
Proof. intros s w. by unfold grows. Qed.

Ltac grows_step :=
  first
    [ apply (respects_ret grows grows_refl)
    | apply (respects_raise grows grows_refl)
    | apply (respects_get grows grows_refl)
    | apply (respects_lift_opt grows grows_refl)
    | apply (respects_as_str grows grows_refl)
    | apply (respects_py_dict grows grows_refl)
    | apply (respects_py_float grows grows_refl)
    | apply grows_emit
    | apply grows_draw
    | apply grows_modify; intros ?; simpl; split;
        first [done | by apply prefix_app_r | set_solver]
    | apply (respects_for_each grows grows_refl grows_trans); intros ?
    | apply (respects_map_m grows grows_refl grows_trans); intros ?
    | apply respects_if
    | apply (respects_bind grows grows_trans); [|intros ?] ].

Section Grows.
Variables SECTION GROUP : string.
Variable NODES_TO_USER : list (string * string).
Variable uuid4 : nat → string.
Variable fuel : nat.

Lemma grows_flood_lsp packet exclude :
  respects grows (_flood_lsp SECTION GROUP NODES_TO_USER packet exclude).
Proof. unfold _flood_lsp, channel_of, publish. repeat grows_step. Qed.

Lemma grows_emit_hello :
  respects grows (_emit_hello SECTION GROUP NODES_TO_USER).
Proof. unfold _emit_hello, channel_of, publish. repeat grows_step. Qed.

Lemma grows_emit_lsp :
  respects grows (_emit_lsp SECTION GROUP NODES_TO_USER).
Proof.
  unfold _emit_lsp, channel_of.
  repeat first [ apply grows_flood_lsp | grows_step ].
Qed.

Lemma grows_handle_hello packet :
  respects grows (_handle_hello NODES_TO_USER packet).
Proof. unfold _handle_hello, publish. repeat grows_step. Qed.

Lemma grows_handle_hello_ack packet :
  respects grows (_handle_hello_ack NODES_TO_USER packet).
Proof. unfold _handle_hello_ack. repeat grows_step. Qed.

Lemma grows_calculate_routing_table :
  respects grows (_calculate_routing_table fuel).
Proof.
  unfold _calculate_routing_table.
  grows_step; [grows_step|].
  grows_step.
  { grows_step. destruct x as [node rec].
    grows_step; [|grows_step].
    grows_step. destruct x as [v c]. repeat grows_step. }
  grows_step.
  { grows_step. destruct x as [[| |s] row]; grows_step. }
  repeat grows_step.
Qed.

Lemma grows_handle_lsp packet :
  respects grows
    (_handle_lsp SECTION GROUP NODES_TO_USER uuid4 fuel packet).
Proof.
  unfold _handle_lsp.
  repeat first
    [ apply grows_flood_lsp | apply grows_calculate_routing_table
    | grows_step ].
Qed.

Lemma grows_forward_packet packet nh :
  respects grows (_forward_packet SECTION GROUP NODES_TO_USER packet nh).
Proof.
  unfold _forward_packet, channel_of, publish.
  destruct (dec_hops packet) as [h p]. repeat grows_step.
Qed.

Lemma grows_handle_data_packet packet :
  respects grows
    (_handle_data_packet SECTION GROUP NODES_TO_USER packet).
Proof.
  unfold _handle_data_packet.
  repeat first [ apply grows_forward_packet | grows_step ].
Qed.

Lemma grows_on_packet packet :
  respects grows (_on_packet SECTION GROUP NODES_TO_USER uuid4 fuel packet).
Proof.
  unfold _on_packet. grows_step; [grows_step|].
  destruct (normalize_packet packet);
  repeat first
    [ apply grows_handle_hello | apply grows_handle_hello_ack
    | apply grows_handle_lsp | apply grows_handle_data_packet
    | grows_step ].
Qed.

Lemma grows_send dst payload hops :
  respects grows (send SECTION GROUP NODES_TO_USER dst payload hops).
Proof.
  unfold send, channel_of, publish.
  repeat first [ apply grows_forward_packet | grows_step ].
Qed.

End Grows.
End LSRFacts.

Section LinkStateProperties.
Import LinkStateRouterRedis.
Variables SECTION GROUP : string.
Variable NODES_TO_USER : list (string * string).
Variable uuid4 : nat → string.
Variable fuel : nat.

Local Abbreviation on_packet :=
  (_on_packet SECTION GROUP NODES_TO_USER uuid4 fuel).
Local Abbreviation handle_lsp :=
  (_handle_lsp SECTION GROUP NODES_TO_USER uuid4 fuel).
Local Abbreviation to_node := (channel_to_node NODES_TO_USER).

Lemma get_default_some k dflt d v :
  alist_get k d = Some v → get_default k dflt d = v.
Proof. unfold get_default. by intros ->. Qed.

Lemma get_default_none k dflt d :
  alist_get k d = None → get_default k dflt d = dflt.
Proof. unfold get_default. by intros ->. Qed.

Lemma on_packet_hello d sender_ch st w :
  validate_packet (VDict d) = true →
  alist_get "type" d = Some (VStr "hello") →
  alist_get "from" d = Some (VStr sender_ch) →
  on_packet (VDict d) st w =
    ( Ok tt,
      (if negb (String.eqb (to_node sender_ch) "")
          && negb (bool_decide (to_node sender_ch ∈ neighbors st))
       then set_neighbors (λ l, l ++ [to_node sender_ch]) st else st),
      World (rng w)
        (log w ++ [Publish sender_ch
                     (make_packet "hello_ack" (channel_local st) sender_ch 1
                        "lsr" VNone VNone (VStr "HELLO_ACK"))]) ).
Proof.
  intros Hv Hty Hfrom. unfold _on_packet, normalize_packet.
  rewrite Hv. simpl. rewrite (get_default_some _ _ _ _ Hty). simpl.
  unfold _handle_hello. rewrite (get_default_some _ _ _ _ Hfrom).
  unfold mbind, M_bind; simpl.
  by destruct (negb (to_node sender_ch =? "")%string
               && negb (bool_decide (to_node sender_ch ∈ neighbors st))).
Qed.

Lemma on_packet_hello_ack d sender_ch st w :
  validate_packet (VDict d) = true →
  alist_get "type" d = Some (VStr "hello_ack") →
  alist_get "from" d = Some (VStr sender_ch) →
  on_packet (VDict d) st w =
    ( Ok tt,
      (if negb (String.eqb (to_node sender_ch) "")
          && negb (bool_decide (to_node sender_ch ∈ neighbors st))
       then set_neighbors (λ l, l ++ [to_node sender_ch]) st else st),
      w ).
Proof.
  intros Hv Hty Hfrom. unfold _on_packet, normalize_packet.
  rewrite Hv. simpl. rewrite (get_default_some _ _ _ _ Hty). simpl.
  unfold _handle_hello_ack. rewrite (get_default_some _ _ _ _ Hfrom).
  unfold mbind, M_bind; simpl.
  by destruct (negb (to_node sender_ch =? "")%string
               && negb (bool_decide (to_node sender_ch ∈ neighbors st))).
Qed.

Lemma unknown_sender_test sender (l : list string) :
  sender ≠ "" → sender ∉ l →
  negb (String.eqb sender "") && negb (bool_decide (sender ∈ l)) = true.
Proof.
  intros Hne Hnin. apply String.eqb_neq in Hne. rewrite Hne.
  by rewrite bool_decide_eq_false_2.
Qed.

(** C8, as the code has it.  The neighbour list never loses an entry:
    whatever packet the listener is given, and whenever the hello or the
    advertisement timer fires, the list before is a prefix of the list
    after.  A hello or a hello_ack whose sender address resolves to a node
    that is not yet a neighbour appends exactly that node; one whose
    sender address resolves to no node, or to a node that is a neighbour
    already, leaves the list and the rest of the router as they were.  A
    hello is answered with exactly one hello_ack, published to the
    sender's address, in either case. *)
Theorem neighbors_only_grow (st : router) (w : world) :
  (∀ packet, neighbors st `prefix_of` neighbors (on_packet packet st w).1.2) ∧
  neighbors st `prefix_of`
    neighbors (_emit_hello SECTION GROUP NODES_TO_USER st w).1.2 ∧
  neighbors st `prefix_of`
    neighbors (_emit_lsp SECTION GROUP NODES_TO_USER st w).1.2 ∧
  (∀ d ty sender_ch,
     validate_packet (VDict d) = true →
     alist_get "type" d = Some (VStr ty) →
     ty = "hello" ∨ ty = "hello_ack" →
     alist_get "from" d = Some (VStr sender_ch) →
     to_node sender_ch ≠ "" →
     to_node sender_ch ∉ neighbors st →
     neighbors (on_packet (VDict d) st w).1.2
       = neighbors st ++ [to_node sender_ch]
     ∧ length (neighbors (on_packet (VDict d) st w).1.2)
       = S (length (neighbors st))) ∧
  (∀ d ty sender_ch,
     validate_packet (VDict d) = true →
     alist_get "type" d = Some (VStr ty) →
     ty = "hello" ∨ ty = "hello_ack" →
     alist_get "from" d = Some (VStr sender_ch) →
     to_node sender_ch = "" ∨ to_node sender_ch ∈ neighbors st →
     (on_packet (VDict d) st w).1.2 = st) ∧
  (∀ d sender_ch,
     validate_packet (VDict d) = true →
     alist_get "type" d = Some (VStr "hello") →
     alist_get "from" d = Some (VStr sender_ch) →
     (on_packet (VDict d) st w).1.1 = Ok tt ∧
     log (on_packet (VDict d) st w).2 =
       log w ++ [Publish sender_ch
                   (make_packet "hello_ack" (channel_local st) sender_ch 1
                      "lsr" VNone VNone (VStr "HELLO_ACK"))]).
Proof.
  split; [|split; [|split; [|split; [|split]]]].
  - intros packet. apply (LSRFacts.grows_on_packet _ _ _ _ _ packet st w).
  - apply (LSRFacts.grows_emit_hello _ _ _ st w).
  - apply (LSRFacts.grows_emit_lsp _ _ _ st w).
  - intros d ty sender_ch Hv Hty [-> | ->] Hfrom Hne Hnin.
    + rewrite (on_packet_hello d sender_ch st w Hv Hty Hfrom).
      rewrite (unknown_sender_test _ _ Hne Hnin). simpl.
      split; [done|]. rewrite length_app. simpl. lia.
    + rewrite (on_packet_hello_ack d sender_ch st w Hv Hty Hfrom).
      rewrite (unknown_sender_test _ _ Hne Hnin). simpl.
      split; [done|]. rewrite length_app. simpl. lia.
  - intros d ty sender_ch Hv Hty Hkind Hfrom Hold.
    assert (Htest : negb (String.eqb (to_node sender_ch) "")
                    && negb (bool_decide (to_node sender_ch ∈ neighbors st))
                    = false).
    { destruct Hold as [->|Hin]; [done|].
      rewrite (bool_decide_eq_true_2 _ Hin). apply andb_false_r. }
    destruct Hkind as [-> | ->].
    + rewrite (on_packet_hello d sender_ch st w Hv Hty Hfrom).
      by rewrite Htest.
    + rewrite (on_packet_hello_ack d sender_ch st w Hv Hty Hfrom).
      by rewrite Htest.
  - intros d sender_ch Hv Hty Hfrom.
    by rewrite (on_packet_hello d sender_ch st w Hv Hty Hfrom).
Qed.

Lemma handle_lsp_seen d st w k :
  py_hash (get_packet_id d (uuid4 (rng w))) = Some k →
  k ∈ seen_lsp_ids st →
  handle_lsp d st w = (Ok tt, st, World (S (rng w)) (log w)).
Proof.
  intros Hk Hin. unfold _handle_lsp, mbind, M_bind, draw_uuid. simpl.
  destruct (truthy (get_packet_id d (uuid4 (rng w)))); simpl; [|done].
  rewrite Hk. simpl. by rewrite bool_decide_eq_true_2.
Qed.

Lemma on_packet_lsp d st w :
  validate_packet (VDict d) = true →
  alist_get "type" d = Some (VStr "lsp") →
  on_packet (VDict d) st w = handle_lsp d st w.
Proof.
  intros Hv Hty. unfold _on_packet, normalize_packet.
  rewrite Hv. simpl. by rewrite (get_default_some _ _ _ _ Hty).
Qed.

(** Once its identity passed the two tests at the top of [_handle_lsp], an
    advertisement leaves that identity in the seen set, whatever happens
    to it afterwards. *)
Lemma handle_lsp_marks d st w k :
  truthy (get_packet_id d (uuid4 (rng w))) = true →
  py_hash (get_packet_id d (uuid4 (rng w))) = Some k →
  k ∈ seen_lsp_ids (handle_lsp d st w).1.2.
Proof.
  intros Ht Hk.
  destruct (decide (k ∈ seen_lsp_ids st)) as [Hin|Hnin].
  - by rewrite (handle_lsp_seen d st w k Hk Hin).
  - unfold _handle_lsp, mbind at 1, M_bind at 1, draw_uuid. simpl.
    rewrite Ht. simpl. unfold mbind at 1, M_bind at 1. rewrite Hk. simpl.
    unfold mbind at 1, M_bind at 1. simpl.
    rewrite bool_decide_eq_false_2 by done.
    unfold mbind at 1, M_bind at 1. simpl.
    match goal with
    | |- context [?m (set_seen_lsp_ids ?f st) ?w'] =>
        assert (Hg : grows (set_seen_lsp_ids f st, w')
                       ((m (set_seen_lsp_ids f st) w').1.2,
                        (m (set_seen_lsp_ids f st) w').2));
        [|destruct Hg as [_ Hsub]; apply Hsub; simpl; set_solver]
    end.
    match goal with
    | |- grows (?s, ?w') ((?m ?s ?w').1.2, _) =>
        cut (respects grows m); [intros Hr; apply Hr|]
    end.
    repeat first
      [ apply LSRFacts.grows_flood_lsp
      | apply LSRFacts.grows_calculate_routing_table
      | LSRFacts.grows_step ].
Qed.

(** C2.  An advertisement whose identity is already in the set of seen
    identities is not processed: the router object (LSDB, routing table,
    neighbours, seen set) is returned as it was and nothing is appended to
    the log, so nothing is published and the table is not recomputed; only
    the identifier drawn by the identity helper is consumed.  In
    particular the second delivery of an advertisement that carries an
    identity is such a no-op. *)
Theorem seen_advertisement_is_noop (st : router) (w : world) (d : dict)
    (k : hkey) :
  validate_packet (VDict d) = true →
  alist_get "type" d = Some (VStr "lsp") →
  (py_hash (get_packet_id d (uuid4 (rng w))) = Some k →
   k ∈ seen_lsp_ids st →
   on_packet (VDict d) st w = (Ok tt, st, World (S (rng w)) (log w)))
  ∧
  (∀ h id,
     alist_get "headers" d = Some (VDict h) →
     alist_get "id" h = Some id →
     truthy id = true →
     py_hash id = Some k →
     let first := on_packet (VDict d) st w in
     on_packet (VDict d) first.1.2 first.2
       = (Ok tt, first.1.2, World (S (rng first.2)) (log first.2))).
Proof.
  intros Hv Hty. split.
  - intros Hk Hin. rewrite on_packet_lsp by done.
    by apply handle_lsp_seen with (k := k).
  - intros h id Hh Hid Htr Hk first.
    assert (Hget : ∀ u, get_packet_id d u = id).
    { intros u. unfold get_packet_id.
      rewrite (get_default_some _ _ _ _ Hh).
      by rewrite (get_default_some _ _ _ _ Hid). }
    rewrite on_packet_lsp by done.
    apply handle_lsp_seen with (k := k); [by rewrite Hget|].
    subst first. rewrite on_packet_lsp by done.
    apply handle_lsp_marks; by rewrite Hget.
Qed.

(** C10.  An advertisement with a fresh identity and no originator is
    dropped after its identity has been recorded: LSDB, routing table and
    log are as before, the seen set has gained the identity.  From then on
    every advertisement with that identity is ignored, whether or not it
    names an originator. *)
Theorem missing_originator_poisons_identity (st : router) (w : world)
    (d : dict) (k : hkey) :
  truthy (get_packet_id d (uuid4 (rng w))) = true →
  py_hash (get_packet_id d (uuid4 (rng w))) = Some k →
  k ∉ seen_lsp_ids st →
  alist_get "originator" d = None →
  handle_lsp d st w
    = (Ok tt, set_seen_lsp_ids (λ s, {[k]} ∪ s) st,
       World (S (rng w)) (log w))
  ∧ lsdb (handle_lsp d st w).1.2 = lsdb st
  ∧ routing_table (handle_lsp d st w).1.2 = routing_table st
  ∧ ∀ d' w',
      py_hash (get_packet_id d' (uuid4 (rng w'))) = Some k →
      handle_lsp d' (handle_lsp d st w).1.2 w'
        = (Ok tt, (handle_lsp d st w).1.2, World (S (rng w')) (log w')).
Proof.
  intros Ht Hk Hnin Horig.
  assert (Heq : handle_lsp d st w
    = (Ok tt, set_seen_lsp_ids (λ s, {[k]} ∪ s) st,
       World (S (rng w)) (log w))).
  { unfold _handle_lsp, mbind, M_bind, draw_uuid. simpl.
    rewrite Ht. simpl. rewrite Hk. simpl.
    rewrite bool_decide_eq_false_2 by done. simpl.
    by rewrite (get_default_none _ _ _ Horig). }
  rewrite Heq. simpl. repeat split.
  intros d' w' Hk'. apply handle_lsp_seen with (k := k); [done|].
  simpl. set_solver.
Qed.

(** *** Hop limit *)

Lemma dec_hops_int d h :
  alist_get "hops" d = Some (VInt h) →
  dec_hops d = ((h - 1)%Z, alist_set "hops" (VInt (h - 1)) d).
Proof.
  intros Hh. unfold dec_hops. by rewrite (get_default_some _ _ _ _ Hh).
Qed.

Lemma forward_packet_ttl d nh h :
  alist_get "hops" d = Some (VInt h) →
  respects (emits (ttl_ok h))
    (_forward_packet SECTION GROUP NODES_TO_USER d nh).
Proof.
  intros Hh. unfold _forward_packet. rewrite (dec_hops_int d h Hh).
  destruct (h - 1 <=? 0)%Z eqn:Hle; [emits_step|].
  apply Z.leb_gt in Hle. unfold channel_of, publish.
  repeat emits_step. apply emits_emit. simpl.
  split; [apply alist_get_set_eq|done].
Qed.

Lemma handle_data_packet_ttl d h :
  alist_get "hops" d = Some (VInt h) →
  respects (emits (ttl_ok h))
    (_handle_data_packet SECTION GROUP NODES_TO_USER d).
Proof.
  intros Hh. unfold _handle_data_packet.
  repeat first
    [ by apply forward_packet_ttl | by apply emits_emit | emits_step ].
Qed.

Lemma flood_lsp_unmodified d exclude :
  respects (emits (publishes_only d))
    (_flood_lsp SECTION GROUP NODES_TO_USER d exclude).
Proof.
  unfold _flood_lsp, channel_of, publish.
  repeat first [ by apply emits_emit | emits_step ].
Qed.

Lemma calculate_routing_table_silent d :
  respects (emits (publishes_only d)) (_calculate_routing_table fuel).
Proof.
  unfold _calculate_routing_table.
  emits_step; [emits_step|].
  emits_step.
  { emits_step. destruct x as [node rec].
    emits_step; [|emits_step].
    emits_step. destruct x as [v c]. repeat emits_step. }
  emits_step.
  { emits_step. destruct x as [[| |s] row]; emits_step. }
  repeat first [ by apply emits_emit | emits_step ].
Qed.

Lemma handle_lsp_unmodified d :
  respects (emits (publishes_only d)) (handle_lsp d).
Proof.
  unfold _handle_lsp.
  repeat first
    [ apply flood_lsp_unmodified | apply calculate_routing_table_silent
    | emits_step ].
Qed.

(** *** No route *)

Lemma for_each_publish (l : list string) (pkt : dict) chans (st : router) w :
  mapM (get_channel SECTION GROUP NODES_TO_USER) l = Some chans →
  for_each l (λ neigh,
      ch ← channel_of SECTION GROUP NODES_TO_USER neigh; publish ch pkt) st w
  = (Ok tt, st, World (rng w) (log w ++ map (λ ch, Publish ch pkt) chans)).
Proof.
  revert chans w. induction l as [|n l IH]; intros chans w Hm.
  - simpl in Hm. injection Hm as <-. simpl. rewrite app_nil_r.
    by destruct w.
  - rewrite mapM_Some in Hm. apply Forall2_cons_inv_l in Hm
      as (ch & chans' & Hch & Hrest & ->).
    apply mapM_Some in Hrest. simpl.
    unfold mbind at 1, M_bind at 1. unfold mbind at 1, M_bind at 1.
    unfold channel_of at 1. rewrite Hch. simpl.
    rewrite (IH chans' _ Hrest). simpl. by rewrite <- app_assoc.
Qed.

Lemma get_next_hop_no_entry table dst :
  Forall (λ e, destino e ≠ dst) table → _get_next_hop table dst = "".
Proof.
  induction 1 as [|e table He _ IH]; simpl; [done|].
  apply String.eqb_neq in He. by rewrite He.
Qed.

(** C5, as the code has it.  An inbound data packet for a known node to
    which the routing table has no entry is dropped with a diagnostic: the
    handler returns normally, the router is unchanged and nothing is
    published.  The fall-back to flooding belongs to [send]: a locally
    originated packet with no route is published, hops untouched, to every
    neighbour. *)
Theorem no_route_inbound_dropped_send_floods (st : router) (w : world) :
  (∀ d dst_ch,
     is_deliver_to_me d (channel_local st) = false →
     alist_get "to" d = Some (VStr dst_ch) →
     to_node dst_ch ≠ "" →
     Forall (λ e, destino e ≠ to_node dst_ch) (routing_table st) →
     _handle_data_packet SECTION GROUP NODES_TO_USER d st w
       = (Ok tt, st, World (rng w) (log w ++ [NoRoute (to_node dst_ch)])))
  ∧
  (∀ dst_node dst_ch payload hops chans,
     get_channel SECTION GROUP NODES_TO_USER dst_node = Some dst_ch →
     Forall (λ e, destino e ≠ dst_node) (routing_table st) →
     mapM (get_channel SECTION GROUP NODES_TO_USER) (neighbors st)
       = Some chans →
     send SECTION GROUP NODES_TO_USER dst_node payload hops st w
       = (Ok tt, st,
          World (rng w)
            (log w ++ map (λ ch, Publish ch
                             (make_packet "message" (channel_local st) dst_ch
                                hops "lsr" VNone VNone payload)) chans))).
Proof.
  split.
  - intros d dst_ch Hme Hto Hnode Hnh. apply get_next_hop_no_entry in Hnh.
    unfold _handle_data_packet.
    unfold mbind, M_bind. simpl. rewrite Hme.
    rewrite (get_default_some _ _ _ _ Hto). simpl.
    apply String.eqb_neq in Hnode. rewrite Hnode, Hnh. by simpl.
  - intros dst_node dst_ch payload hops chans Hdst Hnh Hm.
    apply get_next_hop_no_entry in Hnh. unfold send.
    unfold mbind at 1, M_bind at 1. simpl.
    unfold mbind at 1, M_bind at 1. unfold channel_of at 1.
    rewrite Hdst. simpl. rewrite Hnh. simpl.
    by apply for_each_publish.
Qed.

(** *** The advertisement timer *)

Lemma map_m_channel_of (l : list string) chans (st : router) w :
  mapM (get_channel SECTION GROUP NODES_TO_USER) l = Some chans →
  map_m (channel_of SECTION GROUP NODES_TO_USER) l st w = (Ok chans, st, w).
Proof.
  revert chans. induction l as [|n l IH]; intros chans Hm.
  - simpl in Hm. by injection Hm as <-.
  - rewrite mapM_Some in Hm. apply Forall2_cons_inv_l in Hm
      as (ch & chans' & Hch & Hrest & ->).
    apply mapM_Some in Hrest. simpl.
    unfold mbind at 1, M_bind at 1. unfold channel_of at 1.
    rewrite Hch. simpl. unfold mbind at 1, M_bind at 1.
    by rewrite (IH chans' Hrest).
Qed.

Lemma flood_lsp_all (pkt : dict) chans (st : router) w :
  mapM (get_channel SECTION GROUP NODES_TO_USER) (neighbors st) = Some chans →
  _flood_lsp SECTION GROUP NODES_TO_USER pkt VNone st w
  = (Ok tt, st, World (rng w) (log w ++ map (λ ch, Publish ch pkt) chans)).
Proof.
  intros Hm. unfold _flood_lsp. unfold mbind at 1, M_bind at 1. simpl.
  by apply for_each_publish.
Qed.

(** C4, the advertisement that [LinkStateRouterRedis._emit_lsp] sends.  It
    goes to every neighbour with hop limit 8, the node as originator and a
    unit cost per neighbour, but its headers hold the algorithm tag only:
    there is no [id], and the identity helper has to invent one on every
    call. *)
Theorem emit_lsp_carries_no_id (st : router) (w : world) (chans : list string) :
  mapM (get_channel SECTION GROUP NODES_TO_USER) (neighbors st) = Some chans →
  ∃ lsp,
    _emit_lsp SECTION GROUP NODES_TO_USER st w
      = (Ok tt, set_sequence_number (λ n, (n + 1)%Z) st,
         World (rng w) (log w ++ map (λ ch, Publish ch lsp) chans))
    ∧ alist_get "hops" lsp = Some (VInt 8)
    ∧ alist_get "originator" lsp = Some (VStr (node_id st))
    ∧ alist_get "neighbors" lsp
        = Some (VDict (const_dict (VInt 1) (neighbors st)))
    ∧ alist_get "headers" lsp = Some (VDict [("alg", VStr "lsr")])
    ∧ ∀ u, get_packet_id lsp u = VStr u.
Proof.
  intros Hm. eexists. split.
  - unfold _emit_lsp. unfold mbind at 1, M_bind at 1. simpl.
    unfold mbind at 1, M_bind at 1.
    rewrite (map_m_channel_of _ chans st w Hm).
    unfold mbind at 1, M_bind at 1. simpl.
    rewrite (flood_lsp_all _ chans) by done. reflexivity.
  - by repeat split.
Qed.

End LinkStateProperties.

(** ** Flooding engine *)

Section FloodingProperties.
Import FloodingRouterRedis.
Variables SECTION GROUP : string.
Variable NODES_TO_USER : list (string * string).
Variable uuid4 : nat → string.

Local Abbreviation flood_on_packet :=
  (_on_packet SECTION GROUP NODES_TO_USER uuid4).

Lemma flood_forward_ttl d h :
  alist_get "hops" d = Some (VInt (h - 1)) → (0 < h - 1)%Z →
  respects (emits (ttl_ok h))
    (_flood_forward SECTION GROUP NODES_TO_USER uuid4 d).
Proof.
  intros Hh Hpos. unfold _flood_forward, channel_of, publish.
  repeat first [ by apply emits_emit | emits_step ].
Qed.

Lemma flooding_on_packet_ttl d h :
  alist_get "hops" d = Some (VInt h) →
  respects (emits (ttl_ok h)) (flood_on_packet (VDict d)).
Proof.
  intros Hh. unfold _on_packet, normalize_packet.
  rewrite (dec_hops_int d h Hh).
  destruct (h - 1 <=? 0)%Z eqn:Hle.
  - repeat first [ by apply emits_emit | emits_step ].
  - apply Z.leb_gt in Hle.
    repeat first
      [ by apply emits_emit
      | apply flood_forward_ttl; [apply alist_get_set_eq|done]
      | emits_step ].
Qed.

(** A packet without an identity of its own that is addressed to the node
    is delivered on every arrival, as long as the identifiers drawn for it
    are new to the seen set. *)
Lemma flooding_delivers_idless d st w :
  validate_packet (VDict d) = true →
  (∀ h, alist_get "headers" d = Some (VDict h) → alist_get "id" h = None) →
  is_deliver_to_me d (channel_local st) = true →
  uuid4 (rng w) ≠ "" →
  HStr (uuid4 (rng w)) ∉ seen st →
  flood_on_packet (VDict d) st w
    = (Ok tt, set_seen (λ s, {[HStr (uuid4 (rng w))]} ∪ s) st,
       World (S (rng w))
         (log w ++ [Deliver (get_default "payload" (VStr "") d)])).
Proof.
  intros Hv Hid Hme Hne Hnin. unfold _on_packet, normalize_packet.
  rewrite Hv. simpl. unfold mbind, M_bind, draw_uuid. simpl.
  assert (Hget : get_packet_id d (uuid4 (rng w)) = VStr (uuid4 (rng w))).
  { unfold get_packet_id, get_default.
    destruct (alist_get "headers" d) as [[| | | |h]|] eqn:Hh; simpl; try done.
    by rewrite (Hid h eq_refl). }
  rewrite Hget. simpl. apply String.eqb_neq in Hne. rewrite Hne. simpl.
  rewrite bool_decide_eq_false_2 by done. simpl. by rewrite Hme.
Qed.

End FloodingProperties.

(** ** The claims on the packet model *)

(** C9.  A packet built by [make_packet] passes [validate_packet], and its
    headers hold the algorithm tag and nothing else: there is no [id]. *)
Theorem make_packet_validates (p_type from_channel to_channel : string)
    (hops : Z) (alg : string) (seq_num neighbors payload : value) :
  let pkt := make_packet p_type from_channel to_channel hops alg
               seq_num neighbors payload in
  validate_packet (VDict pkt) = true
  ∧ alist_get "headers" pkt = Some (VDict [("alg", VStr alg)])
  ∧ alist_get "id" [("alg", VStr alg)] = None.
Proof. destruct seq_num, neighbors; by repeat split. Qed.




(** ** The claims on the two engines, on the example deployment *)

Lemma neighbors_only_grow_witness :
  let hello := make_packet "hello" "sec10.grupo0.carol" "sec10.grupo0.alice"
                 1 "lsr" VNone VNone (VStr "HELLO") in
  let run := LinkStateRouterRedis._on_packet "10" "0" demo_names demo_uuid4 10
               (VDict hello) demo_lsr_A (World 0 []) in
  LinkStateRouterRedis.neighbors run.1.2 = ["B"; "C"]
  ∧ log run.2
    = [Publish "sec10.grupo0.carol"
         (make_packet "hello_ack" "sec10.grupo0.alice" "sec10.grupo0.carol"
            1 "lsr" VNone VNone (VStr "HELLO_ACK"))].
Proof.
  intros hello run.
  destruct (neighbors_only_grow "10" "0" demo_names demo_uuid4 10
              demo_lsr_A (World 0 [])) as (_ & _ & _ & Hadd & _ & Hack).
  split.
  - apply (Hadd hello "hello" "sec10.grupo0.carol");
      [reflexivity|reflexivity|by left|reflexivity|discriminate|].
    simpl. rewrite list_elem_of_singleton. discriminate.
  - apply (Hack hello "sec10.grupo0.carol"); reflexivity.
Defined.

(** C8 as stated fails for a sender that the names table does not know.
    A hello from the address [sec10.grupo0.zed], which is the address of
    no neighbour of A, is answered, but the neighbour list of A stays as
    it was: the address resolves to no node. *)
Lemma unresolved_sender_not_added_counterexample :
  validate_packet
    (VDict (make_packet "hello" "sec10.grupo0.zed" "sec10.grupo0.alice" 1
              "lsr" VNone VNone (VStr "HELLO"))) = true
  ∧ get_channel "10" "0" demo_names "B" ≠ Some "sec10.grupo0.zed"
  ∧ LinkStateRouterRedis.neighbors demo_lsr_A = ["B"]
  ∧ LinkStateRouterRedis._on_packet "10" "0" demo_names demo_uuid4 10
      (VDict (make_packet "hello" "sec10.grupo0.zed" "sec10.grupo0.alice" 1
                "lsr" VNone VNone (VStr "HELLO")))
      demo_lsr_A (World 0 [])
    = (Ok tt, demo_lsr_A,
       World 0 [Publish "sec10.grupo0.zed"
                  (make_packet "hello_ack" "sec10.grupo0.alice"
                     "sec10.grupo0.zed" 1 "lsr" VNone VNone
                     (VStr "HELLO_ACK"))]).
Proof. split; [reflexivity|]. split; [discriminate|]. by split. Qed.

Lemma seen_advertisement_is_noop_witness :
  let on_packet := LinkStateRouterRedis._on_packet "10" "0" demo_names
                     demo_uuid4 10 in
  let st := LinkStateRouterRedis.set_seen_lsp_ids
              (λ _, {[HStr "LSP-C-0"]}) demo_lsr_A in
  let first := on_packet (VDict demo_lsp) demo_lsr_A (World 0 []) in
  on_packet (VDict demo_lsp) st (World 0 []) = (Ok tt, st, World 1 [])
  ∧ on_packet (VDict demo_lsp) first.1.2 first.2
    = (Ok tt, first.1.2, World (S (rng first.2)) (log first.2)).
Proof.
  intros on_packet st first. split.
  - apply (seen_advertisement_is_noop "10" "0" demo_names demo_uuid4 10
             st (World 0 []) demo_lsp (HStr "LSP-C-0"));
      [reflexivity|reflexivity|reflexivity|].
    simpl. by apply elem_of_singleton.
  - apply (seen_advertisement_is_noop "10" "0" demo_names demo_uuid4 10
             demo_lsr_A (World 0 []) demo_lsp (HStr "LSP-C-0"))
      with (h := [("alg", VStr "lsr"); ("id", VStr "LSP-C-0")])
           (id := VStr "LSP-C-0"); reflexivity.
Defined.

Lemma missing_originator_poisons_identity_witness :
  let anonymous := alist_set "headers"
                     (VDict [("alg", VStr "lsr"); ("id", VStr "LSP-C-0")])
                     (make_packet "lsp" "sec10.grupo0.carol" "*" 8 "lsr"
                        VNone VNone (VStr "")) in
  let st1 := (LinkStateRouterRedis._handle_lsp "10" "0" demo_names demo_uuid4
                10 anonymous demo_lsr_A (World 0 [])).1.2 in
  LinkStateRouterRedis.lsdb st1 = []
  ∧ LinkStateRouterRedis._handle_lsp "10" "0" demo_names demo_uuid4 10
      demo_lsp st1 (World 1 [])
    = (Ok tt, st1, World 2 []).
Proof.
  intros anonymous st1.
  destruct (missing_originator_poisons_identity "10" "0" demo_names
              demo_uuid4 10 demo_lsr_A (World 0 []) anonymous
              (HStr "LSP-C-0"))
    as (_ & Hlsdb & _ & Hlater);
    [reflexivity|reflexivity|apply not_elem_of_empty|reflexivity|].
  split; [exact Hlsdb|].
  apply (Hlater demo_lsp (World 1 [])). reflexivity.
Defined.

(** C5 as stated fails.  A, whose only neighbour is B and whose routing
    table is empty, is handed a data packet for C: the destination is a
    known node, there is no route, and nothing is published to B. *)
Lemma no_route_inbound_counterexample :
  is_deliver_to_me demo_message
    (LinkStateRouterRedis.channel_local demo_lsr_A) = false
  ∧ channel_to_node demo_names "sec10.grupo0.carol" = "C"
  ∧ LinkStateRouterRedis.neighbors demo_lsr_A = ["B"]
  ∧ LinkStateRouterRedis.routing_table demo_lsr_A = []
  ∧ LinkStateRouterRedis._on_packet "10" "0" demo_names demo_uuid4 10
      (VDict demo_message) demo_lsr_A (World 0 [])
    = (Ok tt, demo_lsr_A, World 0 [NoRoute "C"]).
Proof. by repeat split. Qed.

Lemma no_route_inbound_dropped_send_floods_witness :
  LinkStateRouterRedis._handle_data_packet "10" "0" demo_names
    demo_message demo_lsr_A (World 0 [])
  = (Ok tt, demo_lsr_A, World 0 [NoRoute "C"])
  ∧ LinkStateRouterRedis.send "10" "0" demo_names "C" (VStr "hi") 8
      demo_lsr_A (World 0 [])
    = (Ok tt, demo_lsr_A,
       World 0 [Publish "sec10.grupo0.bob"
                  (make_packet "message" "sec10.grupo0.alice"
                     "sec10.grupo0.carol" 8 "lsr" VNone VNone (VStr "hi"))]).
Proof.
  destruct (no_route_inbound_dropped_send_floods "10" "0" demo_names
              demo_lsr_A (World 0 [])) as [Hin Hsend].
  split.
  - apply (Hin demo_message "sec10.grupo0.carol");
      [reflexivity|reflexivity|discriminate|constructor].
  - apply (Hsend "C" "sec10.grupo0.carol" (VStr "hi") 8%Z
             ["sec10.grupo0.bob"]); [reflexivity|constructor|reflexivity].
Defined.

Lemma emit_lsp_carries_no_id_witness :
  ∃ lsp,
    log (LinkStateRouterRedis._emit_lsp "10" "0" demo_names demo_lsr_A
           (World 0 [])).2 = [Publish "sec10.grupo0.bob" lsp]
    ∧ alist_get "headers" lsp = Some (VDict [("alg", VStr "lsr")])
    ∧ get_packet_id lsp (demo_uuid4 0) ≠ get_packet_id lsp (demo_uuid4 1).
Proof.
  destruct (emit_lsp_carries_no_id "10" "0" demo_names demo_lsr_A
              (World 0 []) ["sec10.grupo0.bob"] eq_refl)
    as (lsp & Hrun & _ & _ & _ & Hheaders & Hid).
  exists lsp. split; [by rewrite Hrun|]. split; [exact Hheaders|].
  rewrite !Hid. discriminate.
Defined.

(** C3 as stated fails for advertisements.  A receives an advertisement
    with no hops left and publishes it to B, hop count and all. *)
Lemma reflood_ignores_hops_counterexample :
  alist_get "hops" demo_lsp = Some (VInt 0)
  ∧ log (LinkStateRouterRedis._on_packet "10" "0" demo_names demo_uuid4 10
           (VDict demo_lsp) demo_lsr_A (World 0 [])).2
    = [Publish "sec10.grupo0.bob" demo_lsp; Recalc []]
  ∧ ¬ Forall (ttl_ok 0)
        (log (LinkStateRouterRedis._on_packet "10" "0" demo_names demo_uuid4
                10 (VDict demo_lsp) demo_lsr_A (World 0 [])).2).
Proof.
  assert (Hlog : log (LinkStateRouterRedis._on_packet "10" "0" demo_names
                        demo_uuid4 10 (VDict demo_lsp) demo_lsr_A
                        (World 0 [])).2
                 = [Publish "sec10.grupo0.bob" demo_lsp; Recalc []])
    by (vm_compute; reflexivity).
  split; [reflexivity|]. split; [exact Hlog|].
  rewrite Hlog. intros HF. apply Forall_cons_1 in HF as [[_ Hpos] _].
  simpl in Hpos. lia.
Qed.


(** C6 on the line A - B - C, flooding engine, after the single call
    [A.send("C", "hi", hops=8)].  A marks an identifier as seen, but the
    packet it publishes carries none.  B forwards the packet to A and to
    C, and C delivers it.  A, handed its own packet, finds nothing in its
    seen set and floods it again; B, handed the packet a second time,
    forwards it a second time; C delivers it a second time. *)
Theorem flooding_dedup_misses_unidentified_packets :
  let pkt hops := alist_set "hops" (VInt hops)
                    (make_packet "message" "sec10.grupo0.alice"
                       "sec10.grupo0.carol" 8 "flooding" VNone VNone
                       (VStr "hi")) in
  let on_packet := FloodingRouterRedis._on_packet "10" "0" demo_names
                     demo_uuid4 in
  let A1 := FloodingRouterRedis.send "10" "0" demo_names demo_uuid4
              "C" (VStr "hi") 8 demo_flood_A (World 0 []) in
  let B1 := on_packet (VDict (pkt 8%Z)) demo_flood_B (World 0 []) in
  let C1 := on_packet (VDict (pkt 7%Z)) demo_flood_C (World 0 []) in
  let A2 := on_packet (VDict (pkt 7%Z)) A1.1.2 A1.2 in
  let B2 := on_packet (VDict (pkt 6%Z)) B1.1.2 B1.2 in
  let C2 := on_packet (VDict (pkt 5%Z)) C1.1.2 C1.2 in
  log A1.2 = [Publish "sec10.grupo0.bob" (pkt 8%Z)]
  ∧ FloodingRouterRedis.seen A1.1.2 = {[HStr (demo_uuid4 0)]}
  ∧ log B1.2 = [Publish "sec10.grupo0.alice" (pkt 7%Z);
                Publish "sec10.grupo0.carol" (pkt 7%Z)]
  ∧ log C1.2 = [Deliver (VStr "hi")]
  ∧ log A2.2 = log A1.2 ++ [Publish "sec10.grupo0.bob" (pkt 6%Z)]
  ∧ log B2.2 = log B1.2 ++ [Publish "sec10.grupo0.alice" (pkt 5%Z);
                            Publish "sec10.grupo0.carol" (pkt 5%Z)]
  ∧ log C2.2 = [Deliver (VStr "hi"); Deliver (VStr "hi")].
Proof. vm_compute. repeat split. Qed.

(** ** Shortest paths *)

(** *** The queue *)

Lemma tuple_ltb_le (y m : Z * string) : tuple_ltb y m = true → (y.1 ≤ m.1)%Z.
Proof.
  unfold tuple_ltb. intros H. apply orb_true_iff in H as [H|H].
  - apply Z.ltb_lt in H. lia.
  - apply andb_true_iff in H as [H _]. apply Z.eqb_eq in H. lia.
Qed.

Lemma heap_min_in (m : Z * string) q : heap_min m q ∈ m :: q.
Proof.
  revert m. induction q as [|y q IH]; intros m; simpl.
  - by left.
  - specialize (IH (if tuple_ltb y m then y else m)).
    apply elem_of_cons in IH as [IH|IH].
    + rewrite IH. destruct (tuple_ltb y m); [right; by left|by left].
    + by do 2 right.
Qed.

Lemma heap_min_le (m : Z * string) q x :
  x ∈ m :: q → ((heap_min m q).1 ≤ x.1)%Z.
Proof.
  revert m x. induction q as [|y q IH]; intros m x Hx; simpl.
  - apply list_elem_of_singleton in Hx as ->. lia.
  - destruct (tuple_ltb y m) eqn:Hlt.
    + apply tuple_ltb_le in Hlt.
      apply elem_of_cons in Hx as [->|Hx].
      * etrans; [apply (IH y y); by left|done].
      * by apply IH.
    + assert (m.1 ≤ y.1)%Z as Hle.
      { unfold tuple_ltb in Hlt. apply orb_false_iff in Hlt as [Hlt _].
        by apply Z.ltb_ge in Hlt. }
      apply elem_of_cons in Hx as [->|Hx].
      * apply IH. by left.
      * apply elem_of_cons in Hx as [->|Hx].
        -- etrans; [apply (IH m m); by left|done].
        -- apply IH. by right.
Qed.

Lemma remove_first_in (x m : Z * string) q :
  x ∈ q → x ≠ m → x ∈ remove_first m q.
Proof.
  intros Hx Hne. induction q as [|y q IH]; simpl; [done|].
  destruct (decide (m = y)) as [->|Hmy].
  - apply elem_of_cons in Hx as [->|Hx]; done.
  - apply elem_of_cons in Hx as [->|Hx]; [by left|right; by apply IH].
Qed.

Lemma remove_first_sub (x m : Z * string) q :
  x ∈ remove_first m q → x ∈ q.
Proof.
  induction q as [|y q IH]; simpl; [done|].
  destruct (decide (m = y)) as [->|Hmy]; intros Hx.
  - by right.
  - apply elem_of_cons in Hx as [->|Hx]; [by left|right; by apply IH].
Qed.

Lemma remove_first_length (m : Z * string) q :
  m ∈ q → S (length (remove_first m q)) = length q.
Proof.
  induction q as [|y q IH]; simpl; intros Hm.
  - by apply elem_of_nil in Hm.
  - destruct (decide (m = y)) as [->|Hmy]; [done|].
    apply elem_of_cons in Hm as [->|Hm]; [done|].
    simpl. by rewrite IH.
Qed.

Lemma heappop_some q m rest :
  heappop q = Some (m, rest) →
  m ∈ q
  ∧ (∀ x, x ∈ q → (m.1 ≤ x.1)%Z)
  ∧ (∀ x, x ∈ q → x ≠ m → x ∈ rest)
  ∧ (∀ x, x ∈ rest → x ∈ q)
  ∧ S (length rest) = length q.
Proof.
  destruct q as [|x q]; [done|]. unfold heappop. intros [= <- <-].
  pose proof (heap_min_in x q) as Hin.
  split; [done|]. split; [intros y; apply heap_min_le|].
  split; [intros y; apply (remove_first_in y (heap_min x q) (x :: q))|].
  split; [intros y; apply (remove_first_sub y (heap_min x q) (x :: q))|].
  by apply (remove_first_length (heap_min x q) (x :: q)).
Qed.

Lemma heappop_none q : heappop q = None → q = [].
Proof. by destruct q. Qed.

(** *** The rows still to be used *)

Lemma pending_mono (S S' : gset string) g :
  S ⊆ S' → pending S' g ≤ pending S g.
Proof.
  intros Hsub. unfold pending. induction g as [|row g IH]; simpl; [done|].
  destruct (decide (row.1 ∈ S)) as [Hin|Hnin].
  - rewrite decide_True by set_solver. lia.
  - destruct (decide (row.1 ∈ S')); lia.
Qed.

Lemma pending_settle (S : gset string) (u : string) g :
  u ∉ S →
  pending ({[u]} ∪ S) g + length (graph_get g u) ≤ pending S g.
Proof.
  intros Hu. unfold graph_get. induction g as [|[k adj] g IH]; simpl.
  - done.
  - unfold pending in *. simpl.
    destruct (decide (u = k)) as [->|Hne]; simpl.
    + rewrite decide_True by set_solver. rewrite decide_False by done.
      pose proof (pending_mono S ({[k]} ∪ S) g) as Hm.
      unfold pending in Hm. specialize (Hm ltac:(set_solver)). lia.
    + destruct (decide (k ∈ S)) as [Hin|Hnin].
      * rewrite decide_True by set_solver. lia.
      * rewrite decide_False by set_solver. lia.
Qed.

Lemma pending_empty g : pending ∅ g = edge_count g.
Proof.
  unfold pending, edge_count. induction g as [|row g IH]; simpl; [done|].
  rewrite decide_False by set_solver. by rewrite IH.
Qed.

(** *** The two maps *)

Lemma dist_get_insert (m : gmap string (option Z)) v d x :
  dist_get (<[v := Some d]> m) x
  = if decide (v = x) then Some d else dist_get m x.
Proof.
  unfold dist_get. rewrite lookup_insert. by destruct (decide (v = x)).
Qed.

Lemma prev_get_insert (m : gmap string (option string)) v u x :
  prev_get (<[v := Some u]> m) x
  = if decide (v = x) then Some u else prev_get m x.
Proof.
  unfold prev_get. rewrite lookup_insert. by destruct (decide (v = x)).
Qed.

Lemma all_none_lookup {A} (l : list string) x :
  default None
    ((list_to_map (map (λ n, (n, None)) l) : gmap string (option A)) !! x)
  = None.
Proof.
  destruct (_ !! x) as [o|] eqn:Hx; [|done].
  apply elem_of_list_to_map_2 in Hx.
  apply list_elem_of_fmap in Hx as (n & [= -> ->] & _). done.
Qed.

Lemma schain_mono (X X' : gset string) prev s x l :
  X ⊆ X' → schain X prev s x l → schain X' prev s x l.
Proof.
  intros Hsub. induction 1 as [x Hx|x y l Hx Hy Hin _ IH].
  - by apply sc_first.
  - apply sc_step with (u := y); [done|done|set_solver|done].
Qed.

Lemma schain_update (X : gset string) prev s v u x l :
  v ∉ X → x ≠ v →
  schain X prev s x l → schain X (<[v := Some u]> prev) s x l.
Proof.
  intros Hv Hxv Hc. induction Hc as [x Hx|x y l Hx Hy Hin _ IH].
  - apply sc_first. rewrite prev_get_insert. by rewrite decide_False.
  - apply sc_step with (u := y); [|done|done|].
    + rewrite prev_get_insert. by rewrite decide_False.
    + apply IH. intros ->. done.
Qed.

Lemma schain_nonempty X prev s x l : schain X prev s x l → l ≠ [].
Proof. destruct 1; [done|]. by destruct l. Qed.

(** *** One relaxation *)

Section Search.
Variable g : Graph.
Variable s : string.
Hypothesis Hnonneg : nonneg g.

Lemma relax_keeps X0 u d k done st v w :
  inv g s ({[u]} ∪ X0) (relaxed_edges g X0 u done) (S k) st →
  relaxing s ({[u]} ∪ X0) u d k st →
  edge g u v w →
  lt_inf (d + w) (dist_get (dist st) v) = false →
  inv g s ({[u]} ∪ X0) (relaxed_edges g X0 u (done ++ [(v, w)])) (S k) st.
Proof.
  intros [] [] He Hlt. constructor; try done.
  intros u' v' w' du' [HE|[-> Hin]] Hdu.
  - apply (inv_edges0 u' v' w' du'); [by left|done].
  - apply elem_of_app in Hin as [Hin|Hin].
    + apply (inv_edges0 u v' w' du'); [by right|done].
    + apply list_elem_of_singleton in Hin as [= -> ->].
      rewrite rx_dist0 in Hdu. injection Hdu as <-.
      destruct (dist_get (dist st) v) as [dv|]; [|done].
      exists dv. split; [done|]. simpl in Hlt. apply Z.ltb_ge in Hlt. lia.
Qed.

Lemma relax_lowers X0 u d k done st v w :
  inv g s ({[u]} ∪ X0) (relaxed_edges g X0 u done) (S k) st →
  relaxing s ({[u]} ∪ X0) u d k st →
  edge g u v w →
  lt_inf (d + w) (dist_get (dist st) v) = true →
  let st' := DState (<[v := Some (d + w)%Z]> (dist st))
                    (<[v := Some u]> (prev st))
                    (heappush (pq st) ((d + w)%Z, v)) in
  inv g s ({[u]} ∪ X0) (relaxed_edges g X0 u (done ++ [(v, w)])) (S k) st'
  ∧ relaxing s ({[u]} ∪ X0) u d k st'.
Proof.
  intros Hinv Hrx He Hlt st'.
  pose proof Hinv as []. pose proof Hrx as [].
  assert (Hw : (0 ≤ w)%Z) by (by eapply Hnonneg).
  assert (Hd : (0 ≤ d)%Z) by (by eapply inv_pos0).
  assert (Hvs : v ≠ s).
  { intros ->. rewrite inv_src0 in Hlt. simpl in Hlt.
    apply Z.ltb_lt in Hlt. lia. }
  assert (HvX : v ∉ {[u]} ∪ X0).
  { intros Hin. destruct (inv_settled_fin0 v Hin) as [dv Hdv].
    pose proof (rx_le0 v dv Hin Hdv). rewrite Hdv in Hlt. simpl in Hlt.
    apply Z.ltb_lt in Hlt. lia. }
  assert (Hvu : v ≠ u) by set_solver.
  assert (Hsame : ∀ x, x ∈ {[u]} ∪ X0 →
            dist_get (<[v := Some (d + w)%Z]> (dist st)) x
            = dist_get (dist st) x).
  { intros x Hx. rewrite dist_get_insert.
    rewrite decide_False; [done|]. intros ->. done. }
  split.
  - constructor; simpl.
    + rewrite dist_get_insert. by rewrite decide_False.
    + rewrite prev_get_insert. by rewrite decide_False.
    + intros x dx. rewrite dist_get_insert.
      destruct (decide (v = x)) as [->|Hne].
      * intros [= <-]. lia.
      * apply inv_pos0.
    + intros x Hx. rewrite (Hsame x Hx). by apply inv_settled_fin0.
    + intros u' v' w' du' HE Hdu.
      assert (Hu' : u' ∈ {[u]} ∪ X0).
      { destruct HE as [[? _]|[-> _]]; set_solver. }
      rewrite (Hsame u' Hu') in Hdu.
      assert (Hcase : relaxed_edges g X0 u done u' v' w'
                      ∨ (u' = u ∧ v' = v ∧ w' = w)).
      { destruct HE as [HE|[-> Hin]]; [left; by left|].
        apply elem_of_app in Hin as [Hin|Hin]; [left; by right|].
        apply list_elem_of_singleton in Hin as [= -> ->]. by right. }
      destruct Hcase as [HE'|(-> & -> & ->)].
      * destruct (inv_edges0 u' v' w' du' HE' Hdu) as (dv & Hdv & Hle).
        rewrite dist_get_insert.
        destruct (decide (v = v')) as [<-|Hne].
        -- eexists. split; [done|]. rewrite Hdv in Hlt. simpl in Hlt.
           apply Z.ltb_lt in Hlt. lia.
        -- by exists dv.
      * rewrite rx_dist0 in Hdu. injection Hdu as <-.
        rewrite dist_get_insert, decide_True by done.
        eexists. split; [done|]. lia.
    + intros x dx. rewrite dist_get_insert. unfold heappush.
      destruct (decide (v = x)) as [<-|Hne].
      * intros [= <-] _. by left.
      * intros Hdx Hx. right. by apply inv_queued0.
    + intros x dx d' y Hx. rewrite (Hsame x Hx). intros Hdx Hin.
      unfold heappush in Hin. apply elem_of_cons in Hin as [[= -> ->]|Hin].
      * pose proof (rx_le0 x dx Hx Hdx). lia.
      * by eapply inv_settled_le0.
    + intros x y. rewrite prev_get_insert.
      destruct (decide (v = x)) as [<-|Hne].
      * intros [= <-]. split; [set_solver|]. split; [done|].
        exists d, w. rewrite (Hsame u rx_in0). split; [done|].
        split; [done|]. by rewrite dist_get_insert, decide_True.
      * intros Hp. destruct (inv_prev0 x y Hp)
          as (Hy & Hxs & dy & w0 & Hdy & Hedge & Hdx).
        split; [done|]. split; [done|]. exists dy, w0.
        rewrite (Hsame y Hy). split; [done|]. split; [done|].
        rewrite dist_get_insert. by rewrite decide_False.
    + intros x dx. rewrite dist_get_insert.
      destruct (decide (v = x)) as [<-|Hne].
      * intros _ _. destruct (decide (u = s)) as [->|Hus].
        -- exists [v]. split; [|simpl; lia]. apply sc_first.
           rewrite prev_get_insert. by rewrite decide_True.
        -- destruct (rx_chain0 Hus) as (l & Hl & Hlen).
           exists (l ++ [v]). split; [|rewrite length_app; simpl; lia].
           apply sc_step with (u := u); [|done|done|].
           ++ rewrite prev_get_insert. by rewrite decide_True.
           ++ apply schain_update; [done| |done]. intros ->. done.
      * intros Hdx Hxs. destruct (inv_chain0 x dx Hdx Hxs) as (l & Hl & Hlen).
        exists l. split; [|done]. apply schain_update; [done| |done].
        intros ->. done.
  - constructor; simpl.
    + done.
    + by rewrite (Hsame u rx_in0).
    + intros x dx Hx. rewrite (Hsame x Hx). by apply rx_le0.
    + intros Hus. destruct (rx_chain0 Hus) as (l & Hl & Hlen).
      exists l. split; [|done].
      apply schain_update; [done| |done]. intros ->. done.
Qed.

Local Abbreviation settled X := (λ (u v : string) (w : Z), u ∈ X ∧ edge g u v w).

Lemma inv_weaken X (E E' : string → string → Z → Prop) k k' st :
  (∀ u v w, E' u v w → E u v w) → k ≤ k' →
  inv g s X E k st → inv g s X E' k' st.
Proof.
  intros HE Hk []. constructor; try done.
  - intros u v w du HE'. apply (inv_edges0 u v w du). by apply HE.
  - intros v d Hd Hv. destruct (inv_chain0 v d Hd Hv) as (l & Hl & Hlen).
    exists l. split; [done|lia].
Qed.

(** *** The row of a settled node *)

Lemma relax_unfold u d st v w :
  relax u d st (v, w)
  = if lt_inf (d + w) (dist_get (dist st) v) then
      DState (<[v := Some (d + w)%Z]> (dist st)) (<[v := Some u]> (prev st))
             (heappush (pq st) ((d + w)%Z, v))
    else st.
Proof. done. Qed.

Lemma relax_row X0 u d k adj :
  ∀ done st,
    (∀ v w, (v, w) ∈ adj → edge g u v w) →
    inv g s ({[u]} ∪ X0) (relaxed_edges g X0 u done) (S k) st →
    relaxing s ({[u]} ∪ X0) u d k st →
    inv g s ({[u]} ∪ X0) (relaxed_edges g X0 u (done ++ adj)) (S k)
      (fold_left (relax u d) adj st)
    ∧ length (pq (fold_left (relax u d) adj st))
      ≤ length (pq st) + length adj.
Proof.
  induction adj as [|[v w] adj IH]; intros done st Hadj Hinv Hrx.
  - simpl. rewrite app_nil_r. split; [done|lia].
  - assert (He : edge g u v w) by (apply Hadj; by left).
    assert (Hadj' : ∀ v' w', (v', w') ∈ adj → edge g u v' w').
    { intros v' w' Hin. apply Hadj. by right. }
    cbn [fold_left]. rewrite relax_unfold.
    replace (done ++ (v, w) :: adj) with ((done ++ [(v, w)]) ++ adj)
      by (by rewrite <- app_assoc).
    destruct (lt_inf (d + w) (dist_get (dist st) v)) eqn:Hlt.
    + destruct (relax_lowers X0 u d k done st v w Hinv Hrx He Hlt)
        as [Hinv' Hrx'].
      destruct (IH _ _ Hadj' Hinv' Hrx') as [Hfin Hlen].
      split; [done|]. unfold heappush in *. simpl in Hlen |- *. lia.
    + pose proof (relax_keeps X0 u d k done st v w Hinv Hrx He Hlt) as Hinv'.
      destruct (IH _ _ Hadj' Hinv' Hrx) as [Hfin Hlen].
      split; [done|]. simpl. lia.
Qed.

Lemma differs_false d o : differs d o = false ↔ o = Some d.
Proof.
  destruct o as [d'|]; simpl; [|split; done].
  rewrite negb_false_iff, Z.eqb_eq. split; [by intros ->|by intros [= ->]].
Qed.

(** Popping a node for the first time at its current distance. *)
Lemma settle X k st d u rest :
  inv g s X (settled X) k st →
  heappop (pq st) = Some ((d, u), rest) →
  dist_get (dist st) u = Some d →
  u ∉ X →
  let st' := fold_left (relax u d) (graph_get g u)
               (DState (dist st) (prev st) rest) in
  inv g s ({[u]} ∪ X) (settled ({[u]} ∪ X)) (S k) st'
  ∧ S (length (pq st') + pending ({[u]} ∪ X) g)
    ≤ length (pq st) + pending X g.
Proof.
  intros Hinv Hpop Hdu HuX st'.
  destruct (heappop_some _ _ _ Hpop) as (Hin & Hmin & Hrest & Hsub & Hlen).
  pose proof Hinv as [].
  assert (Hinv0 : inv g s ({[u]} ∪ X) (relaxed_edges g X u []) (S k)
                    (DState (dist st) (prev st) rest)).
  { constructor; simpl; try done.
    - intros x Hx. apply elem_of_union in Hx as [Hx|Hx].
      + apply elem_of_singleton in Hx as ->. by eexists.
      + by apply inv_settled_fin0.
    - intros u' v' w' du' [HE|[_ Hnil]]; [|by apply elem_of_nil in Hnil].
      by apply inv_edges0.
    - intros x dx Hdx Hx. apply Hrest.
      + apply inv_queued0; [done|set_solver].
      + intros [= -> ->]. set_solver.
    - intros x dx d' y Hx Hdx Hy. apply Hsub in Hy.
      apply elem_of_union in Hx as [Hx|Hx].
      + apply elem_of_singleton in Hx as ->.
        rewrite Hdu in Hdx. injection Hdx as <-. apply (Hmin (d', y) Hy).
      + by eapply inv_settled_le0.
    - intros x y Hp. destruct (inv_prev0 x y Hp) as (Hy & Hrest').
      split; [set_solver|done].
    - intros x dx Hdx Hx. destruct (inv_chain0 x dx Hdx Hx) as (l & Hl & Hle).
      exists l. split; [|lia]. eapply schain_mono; [|done]. set_solver. }
  assert (Hrx : relaxing s ({[u]} ∪ X) u d k
                  (DState (dist st) (prev st) rest)).
  { constructor; simpl.
    - set_solver.
    - done.
    - intros x dx Hx Hdx. apply elem_of_union in Hx as [Hx|Hx].
      + apply elem_of_singleton in Hx as ->.
        rewrite Hdu in Hdx. injection Hdx as <-. lia.
      + by apply (inv_settled_le0 x dx d u).
    - intros Hus. destruct (inv_chain0 u d Hdu Hus) as (l & Hl & Hle).
      exists l. split; [|done]. eapply schain_mono; [|done]. set_solver. }
  destruct (relax_row X u d k (graph_get g u) [] _ (λ v w H, H) Hinv0 Hrx)
    as [Hfin Hlenq].
  split.
  - eapply inv_weaken; [|reflexivity|exact Hfin].
    intros u' v' w' [Hu' He]. simpl.
    apply elem_of_union in Hu' as [Hu'|Hu'].
    + apply elem_of_singleton in Hu' as ->. by right.
    + by left.
  - pose proof (pending_settle X u g HuX). fold st' in Hlenq.
    simpl in Hlenq. lia.
Qed.

(** Popping a stale tuple, or a node that is settled already. *)
Lemma skip X k st d u rest :
  inv g s X (settled X) k st →
  heappop (pq st) = Some ((d, u), rest) →
  dist_get (dist st) u ≠ Some d ∨ u ∈ X →
  inv g s X (settled X) k (DState (dist st) (prev st) rest).
Proof.
  intros [] Hpop Hwhy.
  destruct (heappop_some _ _ _ Hpop) as (Hin & Hmin & Hrest & Hsub & Hlen).
  constructor; simpl; try done.
  - intros x dx Hdx Hx. apply Hrest; [by apply inv_queued0|].
    intros [= -> ->]. destruct Hwhy; done.
  - intros x dx d' y Hx Hdx Hy. apply Hsub in Hy. by eapply inv_settled_le0.
Qed.

Lemma relax_settled_row X k st d u adj :
  inv g s X (settled X) k st →
  u ∈ X → dist_get (dist st) u = Some d →
  (∀ v w, (v, w) ∈ adj → edge g u v w) →
  fold_left (relax u d) adj st = st.
Proof.
  intros [] Hu Hdu. induction adj as [|[v w] adj IH]; intros Hadj; [done|].
  cbn [fold_left]. rewrite relax_unfold.
  destruct (inv_edges0 u v w d) as (dv & Hdv & Hle);
    [split; [done|apply Hadj; by left]|done|].
  rewrite Hdv. simpl.
  destruct (d + w <? dv)%Z eqn:Hlt; [apply Z.ltb_lt in Hlt; lia|].
  apply IH. intros v' w' Hin. apply Hadj. by right.
Qed.

(** *** The loop runs to the end *)

Lemma dijkstra_loop_runs fuel :
  ∀ X k st,
    inv g s X (settled X) k st →
    length (pq st) + pending X g ≤ fuel →
    ∃ X' k' st',
      dijkstra_loop fuel g st = Some st'
      ∧ inv g s X' (settled X') k' st'
      ∧ pq st' = []
      ∧ k' ≤ k + fuel.
Proof.
  induction fuel as [|fuel IH]; intros X k st Hinv Hfuel.
  - destruct (heappop (pq st)) as [[[d u] rest]|] eqn:Hpop.
    + destruct (heappop_some _ _ _ Hpop) as (_ & _ & _ & _ & Hlen). lia.
    + exists X, k, st. simpl. rewrite Hpop.
      split; [done|]. split; [done|]. split; [by apply heappop_none|lia].
  - destruct (heappop (pq st)) as [[[d u] rest]|] eqn:Hpop.
    2: { exists X, k, st. simpl. rewrite Hpop.
         split; [done|]. split; [done|]. split; [by apply heappop_none|lia]. }
    pose proof (heappop_some _ _ _ Hpop) as (_ & _ & _ & _ & Hlen).
    simpl. rewrite Hpop.
    destruct (differs d (dist_get (dist st) u)) eqn:Hdiff.
    + assert (Hne : dist_get (dist st) u ≠ Some d).
      { intros Heq. apply differs_false in Heq. congruence. }
      pose proof (skip X k st d u rest Hinv Hpop (or_introl Hne)) as Hinv'.
      destruct (IH X k _ Hinv') as (X' & k' & st' & Hrun & Hfin & Hq & Hk).
      { simpl. lia. }
      exists X', k', st'. split; [done|]. split; [done|]. split; [done|lia].
    + apply differs_false in Hdiff.
      destruct (decide (u ∈ X)) as [HuX|HuX].
      * pose proof (skip X k st d u rest Hinv Hpop (or_intror HuX)) as Hinv'.
        rewrite (relax_settled_row X k _ d u (graph_get g u) Hinv' HuX Hdiff)
          by done.
        destruct (IH X k _ Hinv') as (X' & k' & st' & Hrun & Hfin & Hq & Hk).
        { simpl. lia. }
        exists X', k', st'. split; [done|]. split; [done|]. split; [done|lia].
      * destruct (settle X k st d u rest Hinv Hpop Hdiff HuX) as [Hinv' Hpot].
        destruct (IH _ _ _ Hinv') as (X' & k' & st' & Hrun & Hfin & Hq & Hk).
        { lia. }
        exists X', k', st'. split; [done|]. split; [done|]. split; [done|lia].
Qed.

(** *** Before and after the loop *)

Lemma init_dist x :
  dist_get (dist (dijkstra_init g s)) x
  = if decide (s = x) then Some 0%Z else None.
Proof.
  unfold dijkstra_init. simpl. rewrite dist_get_insert.
  destruct (decide (s = x)); [done|]. apply all_none_lookup.
Qed.

Lemma init_prev x : prev_get (prev (dijkstra_init g s)) x = None.
Proof. apply all_none_lookup. Qed.

Lemma init_inv :
  inv g s ∅ (settled (∅ : gset string)) 0 (dijkstra_init g s).
Proof.
  constructor.
  - rewrite init_dist. by rewrite decide_True.
  - apply init_prev.
  - intros v d. rewrite init_dist. destruct (decide (s = v)); [|done].
    intros [= <-]. lia.
  - intros u Hu. set_solver.
  - intros u v w du [Hu _]. set_solver.
  - intros v d. rewrite init_dist. destruct (decide (s = v)) as [<-|]; [|done].
    intros [= <-] _. simpl. by left.
  - intros u du d v Hu. set_solver.
  - intros v u. by rewrite init_prev.
  - intros v d. rewrite init_dist. destruct (decide (s = v)); [done|done].
Qed.

(** With the queue empty, every walk ends at a settled node whose
    distance is at most the cost of the walk. *)
Lemma final_lower_bound X k st :
  inv g s X (settled X) k st → pq st = [] →
  ∀ l v c, walk g s l v c →
    ∃ dv, dist_get (dist st) v = Some dv ∧ (dv ≤ c)%Z ∧ v ∈ X.
Proof.
  intros [] Hq.
  assert (Hall : ∀ v d, dist_get (dist st) v = Some d → v ∈ X).
  { intros v d Hd. destruct (decide (v ∈ X)) as [|Hn]; [done|].
    pose proof (inv_queued0 v d Hd Hn) as Hin. rewrite Hq in Hin.
    by apply elem_of_nil in Hin. }
  induction 1 as [|l u c v w _ IH He].
  - exists 0%Z. split; [done|]. split; [lia|]. by eapply Hall.
  - destruct IH as (du & Hdu & Hle & Hu).
    destruct (inv_edges0 u v w du (conj Hu He) Hdu) as (dv & Hdv & Hle').
    exists dv. split; [done|]. split; [lia|]. by eapply Hall.
Qed.

(** The chain of predecessors is a walk of the recorded cost, and its
    first node is a neighbour of the source. *)
Lemma chain_walk X E k st :
  inv g s X E k st →
  ∀ v l, schain X (prev st) s v l →
    ∀ d, dist_get (dist st) v = Some d →
      walk g s l v d
      ∧ ∃ h l' w, l = h :: l' ∧ edge g s h w.
Proof.
  intros []. induction 1 as [v Hv|v u l Hv Hus Hu Hc IH]; intros d Hd.
  - destruct (inv_prev0 v s Hv) as (_ & _ & du & w & Hds & He & Hdv).
    rewrite inv_src0 in Hds. injection Hds as <-.
    rewrite Hd in Hdv. injection Hdv as ->. split.
    + apply (walk_snoc g s [] s 0%Z v w); [constructor|done].
    + by exists v, [], w.
  - destruct (inv_prev0 v u Hv) as (_ & _ & du & w & Hdu & He & Hdv).
    rewrite Hd in Hdv. injection Hdv as ->.
    destruct (IH du Hdu) as (Hw & h & l' & w' & -> & He').
    split.
    + by apply walk_snoc with (u := u).
    + by exists h, (l' ++ [v]), w'.
Qed.

Lemma walk_back_unfold fuel prev hop :
  walk_back fuel prev s hop
  = match prev_get prev hop with
    | Some p =>
        if negb (String.eqb p "") && negb (String.eqb p s) then
          match fuel with
          | O => None
          | S fuel' => walk_back fuel' prev s p
          end
        else Some hop
    | None => Some hop
    end.
Proof. by destruct fuel. Qed.

(** The backward walk stops at the head of the chain, provided no node on
    the way is named by the empty string. *)
Lemma walk_back_chain X prev v l :
  (∀ x y, prev_get prev x = Some y → y ≠ s → y ≠ "") →
  schain X prev s v l →
  ∀ fuel, length l ≤ S fuel →
    ∃ h l', l = h :: l' ∧ walk_back fuel prev s v = Some h.
Proof.
  intros Hnamed. induction 1 as [v Hv|v u l Hv Hus Hu Hc IH]; intros fuel Hlen.
  - exists v, []. split; [done|]. rewrite walk_back_unfold, Hv.
    by rewrite String.eqb_refl, andb_false_r.
  - pose proof (schain_nonempty _ _ _ _ _ Hc) as Hl.
    rewrite length_app in Hlen. simpl in Hlen.
    destruct fuel as [|fuel]; [destruct l; [done|simpl in Hlen; lia]|].
    destruct (IH fuel ltac:(lia)) as (h & l' & -> & Hwb).
    exists h, (l' ++ [v]). split; [done|].
    rewrite walk_back_unfold, Hv.
    apply String.eqb_neq in Hus. rewrite Hus.
    pose proof (Hnamed v u Hv ltac:(by apply String.eqb_neq)) as Hne.
    apply String.eqb_neq in Hne. by rewrite Hne.
Qed.

(** *** The table *)

Lemma build_table_spec fuel st dests :
  (∀ dest c, dest ∈ dests → dest ≠ s →
     dist_get (dist st) dest = Some c →
     is_Some (walk_back fuel (prev st) s dest)) →
  ∃ table,
    build_table fuel st s dests = Some table
    ∧ ∀ e, e ∈ table ↔
        destino e ∈ dests ∧ destino e ≠ s
        ∧ dist_get (dist st) (destino e) = Some (costo e)
        ∧ walk_back fuel (prev st) s (destino e) = Some (next_hop e).
Proof.
  induction dests as [|dest dests IH]; intros Hwb.
  - exists []. split; [done|]. intros e. split.
    + intros He. by apply elem_of_nil in He.
    + intros [He _]. by apply elem_of_nil in He.
  - destruct IH as (table & Hrun & Hspec).
    { intros d c Hd. apply Hwb. by right. }
    simpl. destruct (dist_get (dist st) dest) as [c|] eqn:Hc.
    + destruct (String.eqb dest s) eqn:Hds.
      * apply String.eqb_eq in Hds as ->. exists table. split; [done|].
        intros e. rewrite Hspec. split.
        -- intros (? & ? & ? & ?). split; [by right|done].
        -- intros (Hin & Hne & ? & ?).
           apply elem_of_cons in Hin as [Heq|Hin]; [done|done].
      * apply String.eqb_neq in Hds.
        destruct (Hwb dest c ltac:(by left) Hds Hc) as [hop Hhop].
        rewrite Hhop, Hrun. simpl. eexists. split; [done|].
        intros e. rewrite elem_of_cons, Hspec. split.
        -- intros [->|(? & ? & ? & ?)]; simpl.
           ++ split; [by left|done].
           ++ split; [by right|done].
        -- intros (Hin & Hne & Hd & Hw).
           apply elem_of_cons in Hin as [Heq|Hin]; [|by right].
           left. destruct e as [de he ce]. simpl in *. subst de.
           rewrite Hc in Hd. rewrite Hhop in Hw. congruence.
    + exists table. split; [done|]. intros e. rewrite Hspec. split.
      * intros (? & ? & ? & ?). split; [by right|done].
      * intros (Hin & Hne & Hd & ?).
        apply elem_of_cons in Hin as [Heq|Hin]; [|done].
        rewrite Heq, Hc in Hd. done.
Qed.

End Search.

(** *** Correctness of [routing_table_for] *)

Lemma alist_get_key {V} (k : string) (v : V) (d : list (string * V)) :
  alist_get k d = Some v → k ∈ map fst d.
Proof.
  induction d as [|[k' v'] d IH]; simpl; [done|].
  destruct (decide (k = k')) as [->|Hne]; [by left|].
  intros H. right. by apply IH.
Qed.

Lemma edge_source_key g u v w : edge g u v w → u ∈ map fst g.
Proof.
  unfold edge, graph_get. destruct (alist_get u g) as [row|] eqn:Hrow.
  - intros _. by eapply alist_get_key.
  - simpl. intros H. by apply elem_of_nil in H.
Qed.

Lemma fold_max_le (l : list Z) (w : Z) :
  w ∈ l → (w ≤ fold_right Z.max 0 l)%Z.
Proof.
  induction l as [|x l IH]; intros Hin; [by apply elem_of_nil in Hin|].
  simpl. apply elem_of_cons in Hin as [->|Hin]; [lia|].
  specialize (IH Hin). lia.
Qed.

Lemma fold_max_nonneg (l : list Z) : (0 ≤ fold_right Z.max 0 l)%Z.
Proof. induction l as [|x l IH]; simpl; lia. Qed.

Lemma alist_get_in {V} (k : string) (v : V) (d : list (string * V)) :
  alist_get k d = Some v → (k, v) ∈ d.
Proof.
  induction d as [|[k' v'] d IH]; simpl; [done|].
  destruct (decide (k = k')) as [->|Hne].
  - intros [= ->]. by left.
  - intros H. right. by apply IH.
Qed.

Lemma elem_of_concat {A} (x : A) (ls : list (list A)) (l : list A) :
  l ∈ ls → x ∈ l → x ∈ concat ls.
Proof.
  induction ls as [|l0 ls IH]; intros Hl Hx; [by apply elem_of_nil in Hl|].
  simpl. apply elem_of_app.
  apply elem_of_cons in Hl as [->|Hl]; [by left|right; by apply IH].
Qed.

Lemma max_cost_edge g u v w : edge g u v w → (w ≤ max_cost g)%Z.
Proof.
  unfold edge, graph_get, max_cost.
  destruct (alist_get u g) as [row|] eqn:Hrow; simpl.
  - intros He. apply fold_max_le.
    apply (list_elem_of_fmap_2' snd _ (v, w)); [|done].
    apply (elem_of_concat _ _ row); [|done].
    apply (list_elem_of_fmap_2' snd _ (u, row)); [|done].
    by apply alist_get_in.
  - intros He. by apply elem_of_nil in He.
Qed.

(** A walk costs at most its number of edges times the largest cost. *)
Lemma walk_cost_le g s l v c :
  walk g s l v c → (c ≤ Z.of_nat (length l) * max_cost g)%Z.
Proof.
  induction 1 as [|l u c v w _ IH He]; simpl; [lia|].
  rewrite length_app. simpl. apply max_cost_edge in He.
  pose proof (fold_max_nonneg (map snd (concat (map snd g)))) as H0.
  fold (max_cost g) in H0. nia.
Qed.

(** Where a node can be reached at all, it can be reached by a walk of
    at most as many edges as the graph has, plus one, that costs no more. *)
Lemma short_walk g source dest l' c' :
  nonneg g → walk g source l' dest c' → dest ≠ source →
  ∃ l c, walk g source l dest c
         ∧ length l ≤ S (edge_count g) ∧ (0 ≤ c ≤ c')%Z.
Proof.
  intros Hnn Hw Hne.
  destruct (dijkstra_loop_runs g source Hnn (S (edge_count g)) ∅ 0
              (dijkstra_init g source) (init_inv g source Hnn))
    as (X & k & st & Hrun & Hinv & Hq & Hk).
  { simpl. rewrite pending_empty. lia. }
  destruct (final_lower_bound g source X k st Hinv Hq l' dest c' Hw)
    as (dv & Hdv & Hle & _).
  destruct (inv_chain _ _ _ _ _ _ Hinv dest dv Hdv Hne) as (l & Hl & Hlen).
  destruct (chain_walk g source X _ k st Hinv dest l Hl dv Hdv)
    as (Hwalk & _).
  exists l, dv. split; [done|]. split; [lia|]. split; [|done].
  by apply (inv_pos _ _ _ _ _ _ Hinv dest).
Qed.

(** C1, as the code has it.  On a graph with non-negative costs, small
    enough for the doubles of the search to add them without rounding, in
    which no row of the adjacency mapping belongs to a node named by the
    empty string, and with a step budget above the number of edges, the
    search returns a table.  Each entry is for a key of the mapping other
    than the source; its cost is the cost of a cheapest walk from the
    source; its next hop is a neighbour of the source and the first node
    of a walk from the source to the destination of exactly that cost.
    Every key other than the source that can be reached has an entry; the
    source and the nodes that cannot be reached have none.  The costs of
    the table, and the sums of such a cost, or of the 0 of the source, and
    the cost of an edge that leaves the node, which are the sums that the
    search forms, lie within the whole numbers that doubles hold
    exactly. *)
Theorem routing_table_for_correct (g : Graph) (source : string) (fuel : nat) :
  nonneg g →
  exact_costs g →
  "" ∉ map fst g →
  edge_count g < fuel →
  ∃ table,
    routing_table_for fuel g source = Some table
    ∧ (∀ e, e ∈ table →
         destino e ∈ map fst g
         ∧ destino e ≠ source
         ∧ shortest g source (destino e) (costo e)
         ∧ (0 ≤ costo e ≤ 2 ^ 53)%Z
         ∧ (∀ v w, edge g (destino e) v w → (0 ≤ costo e + w ≤ 2 ^ 53)%Z)
         ∧ (∃ w, edge g source (next_hop e) w)
         ∧ ∃ l, walk g source (next_hop e :: l) (destino e) (costo e))
    ∧ (∀ v w, edge g source v w → (0 ≤ 0 + w ≤ 2 ^ 53)%Z)
    ∧ (∀ dest, dest ∈ map fst g → dest ≠ source →
         reachable g source dest → ∃ e, e ∈ table ∧ destino e = dest)
    ∧ (∀ dest, dest = source ∨ ¬ reachable g source dest →
         ∀ e, e ∈ table → destino e ≠ dest).
Proof.
  intros Hnn Hexact Hnamed Hfuel.
  destruct (dijkstra_loop_runs g source Hnn fuel ∅ 0 (dijkstra_init g source)
              (init_inv g source Hnn))
    as (X & k & st & Hrun & Hinv & Hq & Hk).
  { simpl. rewrite pending_empty. lia. }
  pose proof (final_lower_bound g source X k st Hinv Hq) as Hlow.
  assert (Hprev : ∀ x y, prev_get (prev st) x = Some y → y ≠ source → y ≠ "").
  { intros x y Hp _ ->.
    destruct (inv_prev _ _ _ _ _ _ Hinv x "" Hp)
      as (_ & _ & du & w & _ & He & _).
    apply Hnamed. by eapply edge_source_key. }
  assert (Hhop : ∀ dest c, dest ≠ source →
            dist_get (dist st) dest = Some c →
            ∃ h l, walk g source (h :: l) dest c
                   ∧ (∃ w, edge g source h w)
                   ∧ walk_back fuel (prev st) source dest = Some h).
  { intros dest c Hne Hc.
    destruct (inv_chain _ _ _ _ _ _ Hinv dest c Hc Hne) as (l & Hl & Hlen).
    destruct (chain_walk g source X _ k st Hinv dest l Hl c Hc)
      as (Hw & h & l' & w & -> & He).
    destruct (walk_back_chain source X (prev st) dest (h :: l') Hprev Hl fuel)
      as (h' & l'' & [= <- <-] & Hwb); [lia|].
    exists h, l'. split; [done|]. split; [by exists w|done]. }
  destruct (build_table_spec source fuel st (map fst g))
    as (table & Hbuild & Hspec).
  { intros dest c _ Hne Hc.
    destruct (Hhop dest c Hne Hc) as (h & _ & _ & _ & Hwb). by exists h. }
  assert (Hsound : ∀ e, e ∈ table →
            destino e ∈ map fst g
            ∧ destino e ≠ source
            ∧ shortest g source (destino e) (costo e)
            ∧ (0 ≤ costo e ≤ 2 ^ 53)%Z
            ∧ (∀ v w, edge g (destino e) v w →
                 (0 ≤ costo e + w ≤ 2 ^ 53)%Z)
            ∧ (∃ w, edge g source (next_hop e) w)
            ∧ ∃ l, walk g source (next_hop e :: l) (destino e) (costo e)).
  { intros e He. apply Hspec in He as (Hkey & Hne & Hc & Hwb).
    destruct (Hhop _ _ Hne Hc) as (h & l & Hw & He & Hwb').
    rewrite Hwb in Hwb'. injection Hwb' as <-.
    assert (Hmin : ∀ l' d', walk g source l' (destino e) d' →
                            (costo e ≤ d')%Z).
    { intros l' d' Hw'.
      destruct (Hlow l' _ d' Hw') as (dv & Hdv & Hle & _).
      rewrite Hc in Hdv. injection Hdv as <-. done. }
    split; [done|]. split; [done|]. split; [by split; [eexists|]|].
    pose proof (inv_pos _ _ _ _ _ _ Hinv (destino e) _ Hc) as Hpos.
    destruct (short_walk g source (destino e) _ _ Hnn Hw Hne)
      as (ls & cs & Hws & Hlen & _ & _).
    pose proof (Hmin _ _ Hws) as Hle1.
    pose proof (walk_cost_le _ _ _ _ _ Hws) as Hle2.
    pose proof (fold_max_nonneg (map snd (concat (map snd g)))) as H0.
    fold (max_cost g) in H0. unfold exact_costs in Hexact.
    split; [nia|]. split; [|split; [done|by exists l]].
    intros v w Hvw. pose proof (Hnn _ _ _ Hvw) as Hw0.
    apply max_cost_edge in Hvw. nia. }
  exists table. split; [|split; [done|split; [|split]]].
  - unfold routing_table_for. rewrite Hrun. done.
  - intros v w Hvw. pose proof (Hnn _ _ _ Hvw) as Hw0.
    apply max_cost_edge in Hvw. unfold exact_costs in Hexact. nia.
  - intros dest Hkey Hne (l & c & Hw).
    destruct (Hlow l dest c Hw) as (dv & Hdv & _ & _).
    destruct (Hhop dest dv Hne Hdv) as (h & _ & _ & _ & Hwb).
    exists (Route dest h dv). split; [|done]. by apply Hspec.
  - intros dest Hno e He Heq.
    destruct (Hsound e He) as (_ & Hne & [[l Hw] _] & _).
    destruct Hno as [->|Hno]; [done|].
    apply Hno. subst dest. by exists l, (costo e).
Qed.

Lemma alist_get_elem {V} (k : string) (v : V) (d : list (string * V)) :
  alist_get k d = Some v → (k, v) ∈ d.
Proof.
  induction d as [|[k' v'] d IH]; simpl; [done|].
  destruct (decide (k = k')) as [->|Hne].
  - intros [= ->]. by left.
  - intros H. right. by apply IH.
Qed.

Lemma nonneg_rows g :
  Forall (λ row, Forall (λ e, (0 ≤ e.2)%Z) row.2) g → nonneg g.
Proof.
  intros Hrows u v w He. unfold edge, graph_get in He.
  destruct (alist_get u g) as [row|] eqn:Hrow; simpl in He.
  - apply alist_get_elem in Hrow.
    rewrite Forall_forall in Hrows. specialize (Hrows _ Hrow). simpl in Hrows.
    rewrite Forall_forall in Hrows. apply (Hrows _ He).
  - by apply elem_of_nil in He.
Qed.

Lemma demo_graph_nonneg : nonneg demo_graph.
Proof. apply nonneg_rows. repeat constructor; simpl; lia. Qed.

Lemma demo_graph_exact : exact_costs demo_graph.
Proof. by vm_compute. Qed.

Lemma routing_table_for_correct_witness :
  ∃ table,
    routing_table_for 7 demo_graph "A" = Some table
    ∧ ∀ e, e ∈ table →
        shortest demo_graph "A" (destino e) (costo e)
        ∧ (0 ≤ costo e ≤ 2 ^ 53)%Z.
Proof.
  destruct (routing_table_for_correct demo_graph "A" 7 demo_graph_nonneg
              demo_graph_exact)
    as (table & Hrun & Hsound & _).
  - unfold demo_graph. simpl. rewrite !elem_of_cons, elem_of_nil.
    intros H. repeat (destruct H as [H|H]); done.
  - vm_compute. lia.
  - exists table. split; [done|]. intros e He.
    destruct (Hsound e He) as (_ & _ & Hs & Hb & _). by split.
Defined.

Lemma unnamed_graph_nonneg : nonneg unnamed_graph.
Proof. apply nonneg_rows. repeat constructor; simpl; lia. Qed.

(** C1 as stated fails when a node on the way is named by the empty
    string.  From S the cheapest walk to B goes through that node, and the
    backward walk over the predecessors, which stops at a false value,
    stops at B itself: the entry for B names B as next hop, and B is no
    neighbour of S. *)
Lemma unnamed_node_next_hop_counterexample :
  nonneg unnamed_graph
  ∧ "S" ∈ map fst unnamed_graph
  ∧ routing_table_for 4 unnamed_graph "S"
    = Some [Route "" "" 1; Route "B" "B" 2]
  ∧ ¬ ∃ w, edge unnamed_graph "S" "B" w.
Proof.
  split; [apply unnamed_graph_nonneg|]. split; [by left|].
  split; [by vm_compute|]. intros [w Hw].
  unfold edge, graph_get, unnamed_graph in Hw. simpl in Hw.
  apply list_elem_of_singleton in Hw. done.
Qed.

(** The sibling timer of [InteractiveLSRRouter] does stamp an identity,
    [LSP-<node>-<sequence number>], though into a list that takes the
    place of the headers, so that no receiver accepts the packet. *)
Lemma interactive_emit_lsp_stamps_id :
  ∃ lsp,
    log (InteractiveLSRRouter._emit_lsp "10" "0" demo_names demo_lsr_A
           (World 0 [])).2 = [Publish "sec10.grupo0.bob" lsp]
    ∧ alist_get "headers" lsp = Some (VList [VDict [("id", VStr "LSP-A-0")]])
    ∧ validate_packet (VDict lsp) = false.
Proof. eexists. by vm_compute. Qed.

(* ================================================================== *)
(** * Further properties of the code *)

(** ** What every handler of the link-state engine preserves

    The handlers change the router object in five ways only: they append
    a node that some address resolves to, add an identity to the seen set,
    write a row of the LSDB, bump the sequence number and replace the
    routing table.  A reflexive and transitive relation on router objects
    that each of the five respects is respected by every handler, timer
    and send. *)

Section OnState.
Context {St : Type}.
Variable Rs : St → St → Prop.
Hypothesis Rs_refl : ∀ s, Rs s s.
Hypothesis Rs_trans : ∀ a b c, Rs a b → Rs b c → Rs a c.

Lemma on_state_refl (c : St * world) : on_state Rs c c.
Proof. apply Rs_refl. Qed.

Lemma on_state_trans (a b c : St * world) :
  on_state Rs a b → on_state Rs b c → on_state Rs a c.
Proof. apply Rs_trans. Qed.

Lemma on_state_emit ev : respects (on_state Rs) (emit ev : M St unit).
Proof. intros s w. apply Rs_refl. Qed.

Lemma on_state_draw uuid4 :
  respects (on_state Rs) (draw_uuid uuid4 : M St string).
Proof. intros s w. apply Rs_refl. Qed.

Lemma on_state_modify f :
  (∀ s, Rs s (f s)) → respects (on_state Rs) (modify f).
Proof. intros Hf s w. apply Hf. Qed.

End OnState.

Ltac frame_step refl trans :=
  first
    [ apply (respects_ret _ (on_state_refl _ refl))
    | apply (respects_raise _ (on_state_refl _ refl))
    | apply (respects_get _ (on_state_refl _ refl))
    | apply (respects_lift_opt _ (on_state_refl _ refl))
    | apply (respects_as_str _ (on_state_refl _ refl))
    | apply (respects_py_dict _ (on_state_refl _ refl))
    | apply (respects_py_float _ (on_state_refl _ refl))
    | apply (on_state_emit _ refl)
    | apply (on_state_draw _ refl)
    | apply (respects_for_each _ (on_state_refl _ refl)
               (on_state_trans _ trans)); intros ?
    | apply (respects_map_m _ (on_state_refl _ refl)
               (on_state_trans _ trans)); intros ?
    | apply respects_try_except
    | apply respects_if
    | apply (respects_bind _ (on_state_trans _ trans)); [|intros ?] ].

Section Frame.
Import LinkStateRouterRedis.
Variables SECTION GROUP : string.
Variable NODES_TO_USER : list (string * string).
Variable uuid4 : nat → string.
Variable fuel : nat.
Variable Rs : router → router → Prop.
Hypothesis Rs_refl : ∀ s, Rs s s.
Hypothesis Rs_trans : ∀ a b c, Rs a b → Rs b c → Rs a c.
Hypothesis Rs_neighbor : ∀ s ch,
  channel_to_node NODES_TO_USER ch ≠ "" →
  Rs s (set_neighbors (λ l, l ++ [channel_to_node NODES_TO_USER ch]) s).
Hypothesis Rs_seen : ∀ s k, Rs s (set_seen_lsp_ids (λ x, {[k]} ∪ x) s).
Hypothesis Rs_lsdb : ∀ s key record, Rs s (set_lsdb (alist_set key record) s).
Hypothesis Rs_sequence : ∀ s, Rs s (set_sequence_number (λ n, n + 1)%Z s).
Hypothesis Rs_table : ∀ s t, Rs s (set_routing_table t s).

Ltac fstep := frame_step Rs_refl Rs_trans.

Lemma frame_flood_lsp packet exclude :
  respects (on_state Rs)
    (_flood_lsp SECTION GROUP NODES_TO_USER packet exclude).
Proof. unfold _flood_lsp, channel_of, publish. repeat fstep. Qed.

Lemma frame_emit_hello :
  respects (on_state Rs) (_emit_hello SECTION GROUP NODES_TO_USER).
Proof. unfold _emit_hello, channel_of, publish. repeat fstep. Qed.

Lemma frame_emit_lsp :
  respects (on_state Rs) (_emit_lsp SECTION GROUP NODES_TO_USER).
Proof.
  unfold _emit_lsp, channel_of.
  repeat first
    [ apply frame_flood_lsp | by apply on_state_modify | fstep ].
Qed.

Lemma frame_learn sender_ch (st : router) :
  respects (on_state Rs)
    (if negb (String.eqb (channel_to_node NODES_TO_USER sender_ch) "")
        && negb (bool_decide
                   (channel_to_node NODES_TO_USER sender_ch ∈ neighbors st))
     then modify (set_neighbors
                    (λ l, l ++ [channel_to_node NODES_TO_USER sender_ch]))
     else mret tt).
Proof.
  destruct (String.eqb (channel_to_node NODES_TO_USER sender_ch) "") eqn:He.
  - simpl. fstep.
  - apply String.eqb_neq in He. apply respects_if; [|fstep].
    apply on_state_modify. intros s. by apply Rs_neighbor.
Qed.

Lemma frame_handle_hello packet :
  respects (on_state Rs) (_handle_hello NODES_TO_USER packet).
Proof.
  unfold _handle_hello, publish.
  fstep; [fstep|]. fstep; [fstep|]. fstep; [apply frame_learn|]. fstep.
Qed.

Lemma frame_handle_hello_ack packet :
  respects (on_state Rs) (_handle_hello_ack NODES_TO_USER packet).
Proof.
  unfold _handle_hello_ack.
  fstep; [fstep|]. fstep; [fstep|]. apply frame_learn.
Qed.

Lemma frame_calculate_routing_table :
  respects (on_state Rs) (_calculate_routing_table fuel).
Proof.
  unfold _calculate_routing_table.
  fstep; [fstep|].
  fstep.
  { fstep. destruct x as [node rec].
    fstep; [|fstep].
    fstep. destruct x as [v c]. repeat fstep. }
  fstep.
  { fstep. destruct x as [[| |s] row]; fstep. }
  repeat first [ by apply on_state_modify | fstep ].
Qed.

Lemma frame_handle_lsp packet :
  respects (on_state Rs)
    (_handle_lsp SECTION GROUP NODES_TO_USER uuid4 fuel packet).
Proof.
  unfold _handle_lsp.
  repeat first
    [ apply frame_flood_lsp | apply frame_calculate_routing_table
    | by apply on_state_modify | fstep ].
Qed.

Lemma frame_forward_packet packet nh :
  respects (on_state Rs)
    (_forward_packet SECTION GROUP NODES_TO_USER packet nh).
Proof.
  unfold _forward_packet, channel_of, publish.
  destruct (dec_hops packet) as [h p]. repeat fstep.
Qed.

Lemma frame_handle_data_packet packet :
  respects (on_state Rs)
    (_handle_data_packet SECTION GROUP NODES_TO_USER packet).
Proof.
  unfold _handle_data_packet.
  repeat first [ apply frame_forward_packet | fstep ].
Qed.

Lemma frame_on_packet packet :
  respects (on_state Rs)
    (_on_packet SECTION GROUP NODES_TO_USER uuid4 fuel packet).
Proof.
  unfold _on_packet. fstep; [fstep|].
  destruct (normalize_packet packet);
  repeat first
    [ apply frame_handle_hello | apply frame_handle_hello_ack
    | apply frame_handle_lsp | apply frame_handle_data_packet
    | fstep ].
Qed.

Lemma frame_send dst payload hops :
  respects (on_state Rs) (send SECTION GROUP NODES_TO_USER dst payload hops).
Proof.
  unfold send, channel_of, publish.
  repeat first [ apply frame_forward_packet | fstep ].
Qed.

End Frame.

(** ** id_map.py *)

Section IdMapProperties.
Variables SECTION GROUP : string.
Variable NODES_TO_USER : list (string * string).

Local Abbreviation channel := (get_channel SECTION GROUP NODES_TO_USER).
Local Abbreviation node_of := (channel_to_node NODES_TO_USER).

Lemma has_dot_append a b : has_dot (a +:+ b) = has_dot a || has_dot b.
Proof.
  induction a as [|c a IH]; simpl; [done|]. by rewrite IH, orb_assoc.
Qed.

Lemma last_segment_append p q :
  has_dot q = true → last_segment (p +:+ q) = last_segment q.
Proof.
  intros Hq. induction p as [|c p IH]; simpl; [done|].
  by rewrite has_dot_append, Hq, orb_true_r.
Qed.

Lemma last_segment_mk_channel user :
  has_dot user = false →
  last_segment (_mk_channel SECTION GROUP user) = user.
Proof.
  intros Hu. unfold _mk_channel.
  rewrite last_segment_append
    by (rewrite !has_dot_append; simpl; by rewrite ?orb_true_r).
  rewrite last_segment_append
    by (rewrite !has_dot_append; simpl; by rewrite ?orb_true_r).
  rewrite last_segment_append
    by (rewrite !has_dot_append; simpl; by rewrite ?orb_true_r).
  rewrite last_segment_append by done.
  change ("." +:+ user) with (String "." user).
  simpl. by rewrite Hu.
Qed.

Lemma node_to_channel_lookup node :
  alist_get node (NODE_TO_CHANNEL SECTION GROUP NODES_TO_USER)
  = _mk_channel SECTION GROUP <$> alist_get node NODES_TO_USER.
Proof.
  unfold NODE_TO_CHANNEL.
  induction NODES_TO_USER as [|[n u] names IH]; simpl; [done|].
  destruct (decide (node = n)); [done|apply IH].
Qed.

Lemma first_node_of_user_elem user names :
  first_node_of_user user names ≠ "" →
  (first_node_of_user user names, user) ∈ names.
Proof.
  induction names as [|[n u] names IH]; simpl; [done|].
  destruct (String.eqb u user) eqn:Hu.
  - apply String.eqb_eq in Hu as ->. intros _. by left.
  - intros H. right. by apply IH.
Qed.

Lemma alist_get_of_elem {V} (k : string) (v : V) (d : list (string * V)) :
  (k, v) ∈ d → is_Some (alist_get k d).
Proof.
  induction d as [|[k' v'] d IH]; intros Hin.
  - by apply elem_of_nil in Hin.
  - simpl. destruct (decide (k = k')); [by eexists|].
    apply elem_of_cons in Hin as [[= -> ->]|Hin]; [done|by apply IH].
Qed.

Lemma node_of_resolves ch :
  node_of ch ≠ "" → is_Some (channel (node_of ch)).
Proof.
  intros Hne. unfold get_channel.
  destruct (String.eqb (node_of ch) "*"); [by eexists|].
  rewrite node_to_channel_lookup.
  apply first_node_of_user_elem in Hne.
  apply alist_get_of_elem in Hne as [u Hu].
  unfold channel_to_node. rewrite Hu. by eexists.
Qed.

Lemma mk_channel_nonempty user : _mk_channel SECTION GROUP user ≠ "".
Proof. done. Qed.

Lemma channel_nonempty node ch : channel node = Some ch → ch ≠ "".
Proof.
  unfold get_channel. destruct (String.eqb node "*").
  - by intros [= <-].
  - rewrite node_to_channel_lookup.
    destruct (alist_get node NODES_TO_USER); [|done].
    intros [= <-]. apply mk_channel_nonempty.
Qed.

(** X1.  Address and node are each other's inverse: a node other than
    the wildcard whose user name holds no dot, and is not the user name of
    a node listed before it, has a channel, and that channel resolves
    back to the node. *)
Theorem channel_round_trip (node user : string) :
  node ≠ "*" →
  alist_get node NODES_TO_USER = Some user →
  has_dot user = false →
  first_node_of_user user NODES_TO_USER = node →
  channel node = Some (_mk_channel SECTION GROUP user)
  ∧ node_of (_mk_channel SECTION GROUP user) = node.
Proof.
  intros Hstar Hnode Hdot Hfirst. split.
  - unfold get_channel. apply String.eqb_neq in Hstar. rewrite Hstar.
    by rewrite node_to_channel_lookup, Hnode.
  - unfold channel_to_node. by rewrite last_segment_mk_channel.
Qed.

(** X2.  What an address resolves to can be addressed: a node returned
    by [channel_to_node] has a channel, and an address that belongs to no
    listed user resolves to the empty string. *)
Theorem resolved_node_has_channel (ch : string) :
  (node_of ch ≠ "" → is_Some (channel (node_of ch)))
  ∧ ((∀ node user, (node, user) ∈ NODES_TO_USER → user ≠ last_segment ch) →
     node_of ch = "").
Proof.
  split; [apply node_of_resolves|].
  unfold channel_to_node.
  induction NODES_TO_USER as [|[n u] names IH]; intros Hno; simpl; [done|].
  destruct (String.eqb u (last_segment ch)) eqn:Hu.
  - apply String.eqb_eq in Hu. exfalso. apply (Hno n u); [by left|done].
  - apply IH. intros node user Hin. apply (Hno node user). by right.
Qed.

End IdMapProperties.

Lemma channel_round_trip_witness :
  get_channel "10" "0" demo_names "B" = Some "sec10.grupo0.bob"
  ∧ channel_to_node demo_names "sec10.grupo0.bob" = "B".
Proof.
  apply (channel_round_trip "10" "0" demo_names "B" "bob");
    [discriminate|reflexivity|reflexivity|reflexivity].
Defined.

Lemma resolved_node_has_channel_witness :
  is_Some (get_channel "10" "0" demo_names
             (channel_to_node demo_names "sec10.grupo0.carol"))
  ∧ channel_to_node demo_names "sec10.grupo0.zed" = "".
Proof.
  destruct (resolved_node_has_channel "10" "0" demo_names
              "sec10.grupo0.carol") as [Hsome _].
  destruct (resolved_node_has_channel "10" "0" demo_names
              "sec10.grupo0.zed") as [_ Hnone].
  split; [apply Hsome; discriminate|].
  apply Hnone. intros node user Hin.
  unfold demo_names in Hin. rewrite !elem_of_cons, elem_of_nil in Hin.
  destruct Hin as [[= -> ->]|[[= -> ->]|[[= -> ->]|[]]]]; discriminate.
Defined.

(** ** packets.py *)

Lemma alist_has_get {V} (k : string) (d : list (string * V)) :
  alist_has k d = true → is_Some (alist_get k d).
Proof. unfold alist_has. destruct (alist_get k d); [by eexists|done]. Qed.

Lemma get_default_inv k d v :
  alist_has k d = true → get_default k VNone d = v → alist_get k d = Some v.
Proof.
  intros [x Hx]%alist_has_get. unfold get_default. rewrite Hx. simpl.
  by intros ->.
Qed.

Lemma validate_packet_inv pkt :
  validate_packet pkt = true →
  ∃ d ty fr to h hd,
    pkt = VDict d
    ∧ alist_get "type" d = Some (VStr ty)
    ∧ alist_get "from" d = Some (VStr fr)
    ∧ alist_get "to" d = Some (VStr to)
    ∧ alist_get "hops" d = Some (VInt h)
    ∧ alist_get "headers" d = Some (VDict hd)
    ∧ is_Some (alist_get "alg" hd).
Proof.
  destruct pkt as [| | | |d]; try done. unfold validate_packet.
  destruct (forallb _ _) eqn:Hall; simpl; [|done].
  simpl in Hall. rewrite !andb_true_iff in Hall.
  destruct Hall as (Hty & Hfr & Hto & Hh & Hhd & _).
  destruct (get_default "type" VNone d) as [| |ty| |] eqn:Ety; try done.
  destruct (get_default "from" VNone d) as [| |fr| |] eqn:Efr; try done.
  destruct (get_default "to" VNone d) as [| |to| |] eqn:Eto; try done.
  destruct (get_default "hops" VNone d) as [|h| | |] eqn:Eh; try done.
  destruct (get_default "headers" VNone d) as [| | | |hd] eqn:Ehd; try done.
  simpl. destruct (alist_has "alg" hd) eqn:Halg; [|done]. intros _.
  exists d, ty, fr, to, h, hd.
  repeat split; try by apply get_default_inv.
  by apply alist_has_get.
Qed.

Lemma validate_packet_intro d ty fr to h hd :
  alist_get "type" d = Some (VStr ty) →
  alist_get "from" d = Some (VStr fr) →
  alist_get "to" d = Some (VStr to) →
  alist_get "hops" d = Some (VInt h) →
  alist_get "headers" d = Some (VDict hd) →
  is_Some (alist_get "alg" hd) →
  validate_packet (VDict d) = true.
Proof.
  intros Hty Hfr Hto Hh Hhd [a Ha]. unfold validate_packet, get_default.
  simpl. unfold alist_has. rewrite Hty, Hfr, Hto, Hh, Hhd. simpl.
  by rewrite Ha.
Qed.

(** X3.  [validate_packet] accepts exactly the dicts that hold a string
    under [type], [from] and [to], an integer under [hops] and, under
    [headers], a dict with the key [alg]; everything else, a value that is
    no dict included, is turned down. *)
Theorem validate_packet_exactly (pkt : value) :
  validate_packet pkt = true ↔
  ∃ d ty fr to h hd,
    pkt = VDict d
    ∧ alist_get "type" d = Some (VStr ty)
    ∧ alist_get "from" d = Some (VStr fr)
    ∧ alist_get "to" d = Some (VStr to)
    ∧ alist_get "hops" d = Some (VInt h)
    ∧ alist_get "headers" d = Some (VDict hd)
    ∧ is_Some (alist_get "alg" hd).
Proof.
  split; [apply validate_packet_inv|].
  intros (d & ty & fr & to & h & hd & -> & ? & ? & ? & ? & ? & ?).
  by eapply validate_packet_intro.
Qed.

(** X4.  Taking a hop off a valid packet leaves it valid: the hop count
    goes down by exactly one, the returned number is the stored one, and
    no other field changes. *)
Theorem dec_hops_keeps_valid (d : dict) :
  validate_packet (VDict d) = true →
  validate_packet (VDict (dec_hops d).2) = true
  ∧ (∃ h, alist_get "hops" d = Some (VInt h)
          ∧ (dec_hops d).1 = (h - 1)%Z
          ∧ alist_get "hops" (dec_hops d).2 = Some (VInt (h - 1)))
  ∧ ∀ k, k ≠ "hops" → alist_get k (dec_hops d).2 = alist_get k d.
Proof.
  intros Hv.
  destruct (validate_packet_inv _ Hv)
    as (d0 & ty & fr & to & h & hd & [= <-] & Hty & Hfr & Hto & Hh & Hhd & Ha).
  rewrite (dec_hops_int d h Hh). simpl.
  assert (Hother : ∀ k, k ≠ "hops" →
            alist_get k (alist_set "hops" (VInt (h - 1)) d) = alist_get k d).
  { intros k Hk. by apply alist_get_set_ne. }
  split; [|split; [|done]].
  - apply (validate_packet_intro _ ty fr to (h - 1)%Z hd);
      rewrite ?Hother by done; try done. apply alist_get_set_eq.
  - exists h. split; [done|]. split; [done|]. apply alist_get_set_eq.
Qed.

Lemma dec_hops_keeps_valid_witness :
  validate_packet (VDict (dec_hops demo_message).2) = true
  ∧ (dec_hops demo_message).1 = 4%Z.
Proof.
  destruct (dec_hops_keeps_valid demo_message eq_refl)
    as (Hv & (h & Hh & Hdec & _) & _).
  split; [exact Hv|]. rewrite Hdec. injection Hh as <-. reflexivity.
Defined.

(** X5.  [dec_hops] fails closed.  The number it returns is always the
    number it stores under [hops]; with no [hops] in the packet that
    number is [-1], and so it is when [hops] holds [None], a list or a
    dict. *)
Theorem dec_hops_fails_closed (d : dict) :
  alist_get "hops" (dec_hops d).2 = Some (VInt (dec_hops d).1)
  ∧ (alist_get "hops" d = None → (dec_hops d).1 = (-1)%Z)
  ∧ (∀ v, alist_get "hops" d = Some v →
       match v with VNone | VList _ | VDict _ => True | _ => False end →
       (dec_hops d).1 = (-1)%Z).
Proof.
  split; [apply alist_get_set_eq|]. split.
  - intros Hn. unfold dec_hops. by rewrite (get_default_none _ _ _ Hn).
  - intros v Hv Hbad. unfold dec_hops.
    rewrite (get_default_some _ _ _ _ Hv). by destruct v.
Qed.

Lemma dec_hops_fails_closed_witness :
  (dec_hops [("type", VStr "message")]).1 = (-1)%Z
  ∧ (dec_hops [("hops", VNone)]).1 = (-1)%Z.
Proof.
  split.
  - by apply (dec_hops_fails_closed [("type", VStr "message")]).
  - by apply (dec_hops_fails_closed [("hops", VNone)]) with (v := VNone).
Defined.

(** X6.  The identity of a packet survives forwarding: after [dec_hops]
    the identity helper returns what it returned before, whether the
    packet carries an identity or not. *)
Theorem identity_survives_dec_hops (d : dict) (u : string) :
  get_packet_id (dec_hops d).2 u = get_packet_id d u.
Proof.
  unfold get_packet_id, get_default, dec_hops. simpl.
  by rewrite alist_get_set_ne.
Qed.

(** ** Link-state engine: what stays and what only grows *)

Section LinkStateInvariants.
Import LinkStateRouterRedis.
Variables SECTION GROUP : string.
Variable NODES_TO_USER : list (string * string).
Variable uuid4 : nat → string.
Variable fuel : nat.

Local Abbreviation on_packet :=
  (_on_packet SECTION GROUP NODES_TO_USER uuid4 fuel).
Local Abbreviation emit_hello := (_emit_hello SECTION GROUP NODES_TO_USER).
Local Abbreviation emit_lsp := (_emit_lsp SECTION GROUP NODES_TO_USER).
Local Abbreviation send_ := (send SECTION GROUP NODES_TO_USER).
Local Abbreviation can_reach := (resolvable SECTION GROUP NODES_TO_USER).
Local Abbreviation reach := (keeps_reach SECTION GROUP NODES_TO_USER).

Lemma reach_refl s : reach s s.
Proof. by unfold keeps_reach. Qed.

Lemma reach_trans a b c : reach a b → reach b c → reach a c.
Proof. unfold keeps_reach. intros Hab Hbc Ha. by apply Hbc, Hab. Qed.

Lemma reach_neighbor s ch :
  channel_to_node NODES_TO_USER ch ≠ "" →
  reach s (set_neighbors (λ l, l ++ [channel_to_node NODES_TO_USER ch]) s).
Proof.
  intros Hne Hs. simpl. apply Forall_app. split; [done|].
  apply Forall_singleton. by apply node_of_resolves.
Qed.

(** X7.  From a start in which every neighbour has a channel, every
    neighbour has a channel for good: no packet, timer or send puts a node
    without a channel into the list. *)
Theorem neighbors_stay_resolvable (st : router) (w : world) :
  can_reach (neighbors st) →
  (∀ packet, can_reach (neighbors (on_packet packet st w).1.2))
  ∧ can_reach (neighbors (emit_hello st w).1.2)
  ∧ can_reach (neighbors (emit_lsp st w).1.2)
  ∧ ∀ dst payload hops, can_reach (neighbors (send_ dst payload hops st w).1.2).
Proof.
  intros Hst. repeat split.
  - intros packet.
    by apply (frame_on_packet SECTION GROUP NODES_TO_USER uuid4 fuel reach
                reach_refl reach_trans reach_neighbor
                ltac:(by intros; unfold keeps_reach) ltac:(by intros; unfold keeps_reach) ltac:(by intros; unfold keeps_reach) packet st w).
  - by apply (frame_emit_hello SECTION GROUP NODES_TO_USER reach
                reach_refl reach_trans st w).
  - by apply (frame_emit_lsp SECTION GROUP NODES_TO_USER reach
                reach_refl reach_trans ltac:(by intros; unfold keeps_reach) st w).
  - intros dst payload hops.
    by apply (frame_send SECTION GROUP NODES_TO_USER reach
                reach_refl reach_trans dst payload hops st w).
Qed.

Lemma rows_refl s : keeps_rows s s.
Proof. by intros k. Qed.

Lemma rows_trans a b c : keeps_rows a b → keeps_rows b c → keeps_rows a c.
Proof. intros Hab Hbc k Hk. by apply Hbc, Hab. Qed.

Lemma rows_lsdb s key record :
  keeps_rows s (set_lsdb (alist_set key record) s).
Proof.
  intros k Hk. simpl. destruct (decide (key = k)) as [->|Hne].
  - rewrite alist_get_set_eq. by eexists.
  - by rewrite alist_get_set_ne.
Qed.

(** X8.  The LSDB never loses a row: an originator that has a row keeps
    one through every packet, timer and send.  Rows are overwritten, never
    aged out. *)
Theorem lsdb_rows_never_removed (st : router) (w : world) (k : hkey) :
  is_Some (alist_get k (lsdb st)) →
  (∀ packet, is_Some (alist_get k (lsdb (on_packet packet st w).1.2)))
  ∧ is_Some (alist_get k (lsdb (emit_hello st w).1.2))
  ∧ is_Some (alist_get k (lsdb (emit_lsp st w).1.2))
  ∧ ∀ dst payload hops,
      is_Some (alist_get k (lsdb (send_ dst payload hops st w).1.2)).
Proof.
  intros Hk. repeat split.
  - intros packet.
    by apply (frame_on_packet SECTION GROUP NODES_TO_USER uuid4 fuel
                keeps_rows rows_refl rows_trans
                ltac:(by intros; intros ?) ltac:(by intros; intros ?) rows_lsdb ltac:(by intros; intros ?) packet st w).
  - by apply (frame_emit_hello SECTION GROUP NODES_TO_USER keeps_rows
                rows_refl rows_trans st w).
  - by apply (frame_emit_lsp SECTION GROUP NODES_TO_USER keeps_rows
                rows_refl rows_trans ltac:(by intros; intros ?) st w).
  - intros dst payload hops.
    by apply (frame_send SECTION GROUP NODES_TO_USER keeps_rows
                rows_refl rows_trans dst payload hops st w).
Qed.

Lemma identity_refl s : keeps_identity s s.
Proof. unfold keeps_identity. repeat split; lia. Qed.

Lemma identity_trans a b c :
  keeps_identity a b → keeps_identity b c → keeps_identity a c.
Proof.
  unfold keeps_identity. intros (? & ? & ?) (? & ? & ?).
  repeat split; [congruence|congruence|lia].
Qed.

(** X9.  A router keeps its identity.  Its node name and its own channel
    are never written after construction and its sequence number never
    goes down; the hello timer and [send] do not touch the router object
    at all. *)
Theorem router_identity_fixed (st : router) (w : world) :
  (∀ packet, keeps_identity st (on_packet packet st w).1.2)
  ∧ keeps_identity st (emit_lsp st w).1.2
  ∧ (emit_hello st w).1.2 = st
  ∧ ∀ dst payload hops, (send_ dst payload hops st w).1.2 = st.
Proof.
  split; [|split; [|split]].
  - intros packet.
    apply (frame_on_packet SECTION GROUP NODES_TO_USER uuid4 fuel
             keeps_identity identity_refl identity_trans); intros;
      unfold keeps_identity; simpl; repeat split; lia.
  - apply (frame_emit_lsp SECTION GROUP NODES_TO_USER
             keeps_identity identity_refl identity_trans); intros;
      unfold keeps_identity; simpl; repeat split; lia.
  - symmetry.
    apply (frame_emit_hello SECTION GROUP NODES_TO_USER eq
             ltac:(done) ltac:(by intros ??? -> ->) st w).
  - intros dst payload hops. symmetry.
    apply (frame_send SECTION GROUP NODES_TO_USER eq
             ltac:(done) ltac:(by intros ??? -> ->) dst payload hops st w).
Qed.

End LinkStateInvariants.

(** ** Link-state engine: what the handlers send *)

Section LinkStateBehaviour.
Import LinkStateRouterRedis.
Variables SECTION GROUP : string.
Variable NODES_TO_USER : list (string * string).
Variable uuid4 : nat → string.
Variable fuel : nat.

Local Abbreviation on_packet :=
  (_on_packet SECTION GROUP NODES_TO_USER uuid4 fuel).
Local Abbreviation handle_lsp :=
  (_handle_lsp SECTION GROUP NODES_TO_USER uuid4 fuel).
Local Abbreviation channel := (get_channel SECTION GROUP NODES_TO_USER).
Local Abbreviation chan_of := (channel_of SECTION GROUP NODES_TO_USER).
Local Abbreviation to_node := (channel_to_node NODES_TO_USER).

(** A loop that publishes to one neighbour after the other gets as far
    as the neighbours have channels. *)
Lemma for_each_publish_upto (l1 rest : list string) (f : string → dict)
    chans (st : router) w :
  mapM channel l1 = Some chans →
  for_each (l1 ++ rest) (λ neigh, ch ← chan_of neigh; publish ch (f ch)) st w
  = for_each rest (λ neigh, ch ← chan_of neigh; publish ch (f ch)) st
      (World (rng w) (log w ++ map (λ ch, Publish ch (f ch)) chans)).
Proof.
  revert chans w. induction l1 as [|n l1 IH]; intros chans w Hm.
  - simpl in Hm. injection Hm as <-. simpl. rewrite app_nil_r.
    by destruct w.
  - rewrite mapM_Some in Hm. apply Forall2_cons_inv_l in Hm
      as (ch & chans' & Hch & Hrest & ->).
    apply mapM_Some in Hrest. simpl.
    unfold mbind at 1, M_bind at 1. unfold mbind at 1, M_bind at 1.
    unfold channel_of at 1. rewrite Hch. simpl.
    rewrite (IH chans' _ Hrest). simpl. by rewrite <- app_assoc.
Qed.

(** X10.  The hello timer.  When every neighbour has a channel, each gets
    exactly one hello with one hop, addressed to its channel, in the order
    of the list.  A neighbour without a channel raises [KeyError] on the
    spot: the neighbours before it have their hello, those after it get
    none. *)
Theorem emit_hello_sends (st : router) (w : world) :
  let hello ch := make_packet "hello" (channel_local st) ch 1 "lsr"
                    VNone VNone (VStr "HELLO") in
  (∀ chans,
     mapM channel (neighbors st) = Some chans →
     _emit_hello SECTION GROUP NODES_TO_USER st w
     = (Ok tt, st,
        World (rng w) (log w ++ map (λ ch, Publish ch (hello ch)) chans)))
  ∧ (∀ before bad after chans,
       neighbors st = before ++ bad :: after →
       mapM channel before = Some chans →
       channel bad = None →
       _emit_hello SECTION GROUP NODES_TO_USER st w
       = (Raise KeyError, st,
          World (rng w) (log w ++ map (λ ch, Publish ch (hello ch)) chans))).
Proof.
  intros hello. split.
  - intros chans Hm. unfold _emit_hello. unfold mbind at 1, M_bind at 1.
    simpl. rewrite <- (app_nil_r (neighbors st)).
    by rewrite (for_each_publish_upto (neighbors st) [] hello chans).
  - intros before bad after chans Hnb Hm Hbad. unfold _emit_hello.
    unfold mbind at 1, M_bind at 1. simpl. rewrite Hnb.
    rewrite (for_each_publish_upto before (bad :: after) hello chans) by done.
    simpl. unfold mbind at 1, M_bind at 1. unfold mbind at 1, M_bind at 1.
    unfold channel_of at 1. by rewrite Hbad.
Qed.

(** X11.  Which packets the listener ignores.  A packet that fails
    validation, and a valid packet of a type other than hello, hello_ack,
    lsp and message, leave the router and the world as they were. *)
Theorem on_packet_ignores (st : router) (w : world) :
  (∀ packet, validate_packet packet = false →
     on_packet packet st w = (Ok tt, st, w))
  ∧ (∀ d ty,
       validate_packet (VDict d) = true →
       alist_get "type" d = Some (VStr ty) →
       ty ∉ ["hello"; "hello_ack"; "lsp"; "message"] →
       on_packet (VDict d) st w = (Ok tt, st, w)).
Proof.
  split.
  - intros packet Hv. unfold _on_packet, normalize_packet. by rewrite Hv.
  - intros d ty Hv Hty Hother. unfold _on_packet, normalize_packet.
    rewrite Hv. simpl. rewrite (get_default_some _ _ _ _ Hty). simpl.
    rewrite !not_elem_of_cons in Hother.
    destruct Hother as (H1 & H2 & H3 & H4 & _).
    apply String.eqb_neq in H1, H2, H3, H4. by rewrite H1, H2, H3, H4.
Qed.

Lemma flood_lsp_not_to d f :
  respects (emits (not_to f))
    (_flood_lsp SECTION GROUP NODES_TO_USER d (VStr f)).
Proof.
  unfold _flood_lsp. emits_step; [emits_step|]. emits_step.
  intros s w. unfold mbind, M_bind, channel_of, lift_opt.
  destruct (channel x) as [ch|] eqn:Hch; simpl.
  2: { exists []. split; [by rewrite app_nil_r|done]. }
  destruct (negb (String.eqb f "") && String.eqb f ch) eqn:Hex; simpl.
  - exists []. split; [by rewrite app_nil_r|done].
  - exists [Publish ch d]. split; [done|]. constructor; [|done]. simpl.
    intros ->. apply andb_false_iff in Hex as [Hex|Hex].
    + apply negb_false_iff, String.eqb_eq in Hex as ->.
      by apply (channel_nonempty SECTION GROUP NODES_TO_USER x "").
    + by rewrite String.eqb_refl in Hex.
Qed.

Lemma calculate_routing_table_emits (P : event → Prop) :
  (∀ t, P (Recalc t)) → respects (emits P) (_calculate_routing_table fuel).
Proof.
  intros HP. unfold _calculate_routing_table.
  emits_step; [emits_step|].
  emits_step.
  { emits_step. destruct x as [node rec].
    emits_step; [|emits_step].
    emits_step. destruct x as [v c]. repeat emits_step. }
  emits_step.
  { emits_step. destruct x as [[| |s] row]; emits_step. }
  repeat first [ by apply emits_emit | emits_step ].
Qed.

(** X12.  Split horizon.  An advertisement is never flooded back to the
    channel named in its [from] field, whatever else is done with it. *)
Theorem advertisement_not_sent_back (d : dict) (f : string) (st : router)
    (w : world) :
  alist_get "from" d = Some (VStr f) →
  ∃ evs, log (handle_lsp d st w).2 = log w ++ evs ∧ Forall (not_to f) evs.
Proof.
  intros Hf.
  assert (H : respects (emits (not_to f)) (handle_lsp d)).
  { unfold _handle_lsp. rewrite (get_default_some _ _ _ _ Hf).
    repeat first
      [ apply flood_lsp_not_to
      | by apply calculate_routing_table_emits
      | emits_step ]. }
  apply (H st w).
Qed.

Lemma lsdb_same_trans (a b c : router) :
  lsdb b = lsdb a → lsdb c = lsdb b → lsdb c = lsdb a.
Proof. by intros -> ->. Qed.

(** X13.  A fresh advertisement always leaves its row.  If the identity is
    new, the originator a non-empty string and the neighbour costs a dict
    (or absent), the LSDB afterwards holds exactly these costs for the
    originator and the rows of all others as before, even when flooding
    or the table computation raises afterwards. *)
Theorem fresh_advertisement_writes_row (d : dict) (k : hkey) (o : string)
    (costs : dict) (st : router) (w : world) :
  truthy (get_packet_id d (uuid4 (rng w))) = true →
  py_hash (get_packet_id d (uuid4 (rng w))) = Some k →
  k ∉ seen_lsp_ids st →
  alist_get "originator" d = Some (VStr o) →
  o ≠ "" →
  get_default "neighbors" (VDict []) d = VDict costs →
  alist_get (HStr o) (lsdb (handle_lsp d st w).1.2) = Some costs
  ∧ ∀ k', k' ≠ HStr o →
      alist_get k' (lsdb (handle_lsp d st w).1.2) = alist_get k' (lsdb st).
Proof.
  intros Ht Hk Hnin Ho Hne Hcosts.
  assert (Hl : lsdb (handle_lsp d st w).1.2
               = alist_set (HStr o) costs (lsdb st)).
  { unfold _handle_lsp. unfold mbind at 1, M_bind at 1, draw_uuid. simpl.
    rewrite Ht. simpl. unfold mbind at 1, M_bind at 1. rewrite Hk. simpl.
    unfold mbind at 1, M_bind at 1. simpl.
    rewrite bool_decide_eq_false_2 by done.
    unfold mbind at 1, M_bind at 1. simpl.
    rewrite (get_default_some _ _ _ _ Ho). simpl.
    apply String.eqb_neq in Hne. rewrite Hne. simpl.
    rewrite Hcosts. unfold mbind at 1, M_bind at 1. simpl.
    unfold mbind at 1, M_bind at 1. simpl.
    unfold mbind at 1, M_bind at 1. simpl.
    match goal with
    | |- lsdb (?m ?s1 ?w1).1.2 = _ =>
        assert (Hr : respects (on_state (λ s s', lsdb s' = lsdb s)) m);
        [|exact (Hr s1 w1)]
    end.
    apply (respects_bind _
             (on_state_trans (λ s s', lsdb s' = lsdb s) lsdb_same_trans));
      [|intros _].
    - by apply (frame_flood_lsp _ _ _ (λ s s', lsdb s' = lsdb s)
                  ltac:(done) lsdb_same_trans).
    - by apply (frame_calculate_routing_table _ (λ s s', lsdb s' = lsdb s)
                  ltac:(done) lsdb_same_trans). }
  rewrite Hl. split.
  - apply alist_get_set_eq.
  - intros k' Hk'. by apply alist_get_set_ne.
Qed.

(** X14.  A data packet for this node, or for everyone, is handed to the
    console and goes no further: nothing is published, and the hop count
    is not looked at.  A data packet whose address belongs to no node is
    dropped with a diagnostic. *)
Theorem data_packet_delivered_or_unknown (d : dict) (st : router) (w : world) :
  validate_packet (VDict d) = true →
  alist_get "type" d = Some (VStr "message") →
  (is_deliver_to_me d (channel_local st) = true →
   on_packet (VDict d) st w
   = (Ok tt, st,
      World (rng w) (log w ++ [Deliver (get_default "payload" VNone d)])))
  ∧ (∀ dst_ch,
       is_deliver_to_me d (channel_local st) = false →
       alist_get "to" d = Some (VStr dst_ch) →
       to_node dst_ch = "" →
       on_packet (VDict d) st w
       = (Ok tt, st, World (rng w) (log w ++ [UnknownDest dst_ch]))).
Proof.
  intros Hv Hty.
  assert (Hon : on_packet (VDict d) st w
                = _handle_data_packet SECTION GROUP NODES_TO_USER d st w).
  { unfold _on_packet, normalize_packet. rewrite Hv. simpl.
    by rewrite (get_default_some _ _ _ _ Hty). }
  rewrite Hon. unfold _handle_data_packet, mbind, M_bind. simpl. split.
  - by intros ->.
  - intros dst_ch -> Hto Hnode.
    rewrite (get_default_some _ _ _ _ Hto). simpl. by rewrite Hnode.
Qed.

(** X15.  Forwarding along a route.  A data packet for another node to
    which the table has a route is published once, to the channel of the
    next hop and to nobody else, with one hop less; with one hop or none
    left it is dropped in silence; and when the next hop has no channel
    the handler raises [KeyError] with nothing published. *)
Theorem data_packet_forwarded (d : dict) (dst_ch nh : string) (h : Z)
    (st : router) (w : world) :
  is_deliver_to_me d (channel_local st) = false →
  alist_get "to" d = Some (VStr dst_ch) →
  to_node dst_ch ≠ "" →
  _get_next_hop (routing_table st) (to_node dst_ch) = nh →
  nh ≠ "" →
  alist_get "hops" d = Some (VInt h) →
  let run := _handle_data_packet SECTION GROUP NODES_TO_USER d st w in
  ((h ≤ 1)%Z → run = (Ok tt, st, w))
  ∧ (∀ ch, (1 < h)%Z → channel nh = Some ch →
       run = (Ok tt, st,
              World (rng w)
                (log w ++ [Publish ch (alist_set "hops" (VInt (h - 1)) d)])))
  ∧ ((1 < h)%Z → channel nh = None → run = (Raise KeyError, st, w)).
Proof.
  intros Hme Hto Hnode Hnh Hne Hh run.
  assert (Hrun : run = _forward_packet SECTION GROUP NODES_TO_USER d nh st w).
  { unfold run, _handle_data_packet, mbind, M_bind. simpl. rewrite Hme.
    rewrite (get_default_some _ _ _ _ Hto). simpl.
    apply String.eqb_neq in Hnode. rewrite Hnode, Hnh.
    apply String.eqb_neq in Hne. by rewrite Hne. }
  rewrite Hrun. unfold _forward_packet. rewrite (dec_hops_int d h Hh).
  split; [|split].
  - intros Hle. destruct (h - 1 <=? 0)%Z eqn:E; [by destruct w|].
    apply Z.leb_gt in E. lia.
  - intros ch Hlt Hch. destruct (h - 1 <=? 0)%Z eqn:E.
    { apply Z.leb_le in E. lia. }
    unfold mbind, M_bind, channel_of. by rewrite Hch.
  - intros Hlt Hch. destruct (h - 1 <=? 0)%Z eqn:E.
    { apply Z.leb_le in E. lia. }
    unfold mbind, M_bind, channel_of. by rewrite Hch.
Qed.


End LinkStateBehaviour.

Lemma emit_hello_sends_witness :
  LinkStateRouterRedis._emit_hello "10" "0" demo_names demo_lsr_A (World 0 [])
  = (Ok tt, demo_lsr_A,
     World 0 [Publish "sec10.grupo0.bob"
                (make_packet "hello" "sec10.grupo0.alice" "sec10.grupo0.bob"
                   1 "lsr" VNone VNone (VStr "HELLO"))])
  ∧ (LinkStateRouterRedis._emit_hello "10" "0" demo_names
       (LinkStateRouterRedis.set_neighbors (λ _, ["B"; "Z"; "C"]) demo_lsr_A)
       (World 0 [])).1.1 = Raise KeyError.
Proof.
  split.
  - destruct (emit_hello_sends "10" "0" demo_names demo_lsr_A (World 0 []))
      as [Hall _].
    apply (Hall ["sec10.grupo0.bob"]). reflexivity.
  - destruct (emit_hello_sends "10" "0" demo_names
                (LinkStateRouterRedis.set_neighbors (λ _, ["B"; "Z"; "C"])
                   demo_lsr_A) (World 0 [])) as [_ Hbad].
    rewrite (Hbad ["B"] "Z" ["C"] ["sec10.grupo0.bob"]); reflexivity.
Defined.

Lemma on_packet_ignores_witness :
  LinkStateRouterRedis._on_packet "10" "0" demo_names demo_uuid4 10
    (VList []) demo_lsr_A (World 0 [])
  = (Ok tt, demo_lsr_A, World 0 [])
  ∧ LinkStateRouterRedis._on_packet "10" "0" demo_names demo_uuid4 10
      (VDict (make_packet "info" "sec10.grupo0.bob" "sec10.grupo0.alice"
                5 "lsr" VNone VNone (VStr "")))
      demo_lsr_A (World 0 [])
    = (Ok tt, demo_lsr_A, World 0 []).
Proof.
  destruct (on_packet_ignores "10" "0" demo_names demo_uuid4 10
              demo_lsr_A (World 0 [])) as [Hbad Hother].
  split; [by apply Hbad|].
  apply (Hother _ "info"); [reflexivity|reflexivity|].
  rewrite !not_elem_of_cons. repeat split; try discriminate.
  apply not_elem_of_nil.
Defined.

Lemma advertisement_not_sent_back_witness :
  ∃ evs,
    log (LinkStateRouterRedis._handle_lsp "10" "0" demo_names demo_uuid4 10
           demo_lsp
           (LinkStateRouterRedis.set_neighbors (λ _, ["B"; "C"]) demo_lsr_A)
           (World 0 [])).2 = [] ++ evs
    ∧ Forall (not_to "sec10.grupo0.carol") evs.
Proof.
  apply (advertisement_not_sent_back "10" "0" demo_names demo_uuid4 10
           demo_lsp "sec10.grupo0.carol"). reflexivity.
Defined.

Lemma fresh_advertisement_writes_row_witness :
  alist_get (HStr "C")
    (LinkStateRouterRedis.lsdb
       (LinkStateRouterRedis._handle_lsp "10" "0" demo_names demo_uuid4 10
          demo_lsp demo_lsr_A (World 0 [])).1.2)
  = Some [("B", VInt 1)].
Proof.
  apply (fresh_advertisement_writes_row "10" "0" demo_names demo_uuid4 10
           demo_lsp (HStr "LSP-C-0") "C" [("B", VInt 1)] demo_lsr_A
           (World 0 []));
    [reflexivity|reflexivity|apply not_elem_of_empty|reflexivity
    |discriminate|reflexivity].
Defined.

Lemma data_packet_delivered_or_unknown_witness :
  LinkStateRouterRedis._on_packet "10" "0" demo_names demo_uuid4 10
    (VDict (make_packet "message" "sec10.grupo0.bob" "sec10.grupo0.alice" 0
              "lsr" VNone VNone (VStr "hi")))
    demo_lsr_A (World 0 [])
  = (Ok tt, demo_lsr_A, World 0 [Deliver (VStr "hi")])
  ∧ LinkStateRouterRedis._on_packet "10" "0" demo_names demo_uuid4 10
      (VDict (make_packet "message" "sec10.grupo0.bob" "sec10.grupo0.zed" 5
                "lsr" VNone VNone (VStr "hi")))
      demo_lsr_A (World 0 [])
    = (Ok tt, demo_lsr_A, World 0 [UnknownDest "sec10.grupo0.zed"]).
Proof.
  split.
  - by apply (data_packet_delivered_or_unknown "10" "0" demo_names
                demo_uuid4 10).
  - by apply (data_packet_delivered_or_unknown "10" "0" demo_names
                demo_uuid4 10) with (dst_ch := "sec10.grupo0.zed").
Defined.

Lemma data_packet_forwarded_witness :
  LinkStateRouterRedis._handle_data_packet "10" "0" demo_names demo_message
    (LinkStateRouterRedis.set_routing_table [Route "C" "B" 2] demo_lsr_A)
    (World 0 [])
  = (Ok tt,
     LinkStateRouterRedis.set_routing_table [Route "C" "B" 2] demo_lsr_A,
     World 0 [Publish "sec10.grupo0.bob"
                (alist_set "hops" (VInt (5 - 1)) demo_message)]).
Proof.
  by apply (data_packet_forwarded "10" "0" demo_names demo_message
              "sec10.grupo0.carol" "B" 5%Z
              (LinkStateRouterRedis.set_routing_table [Route "C" "B" 2]
                 demo_lsr_A) (World 0 [])).
Defined.


Lemma neighbors_stay_resolvable_witness :
  resolvable "10" "0" demo_names
    (LinkStateRouterRedis.neighbors
       (LinkStateRouterRedis._on_packet "10" "0" demo_names demo_uuid4 10
          (VDict (make_packet "hello" "sec10.grupo0.carol"
                    "sec10.grupo0.alice" 1 "lsr" VNone VNone (VStr "HELLO")))
          demo_lsr_A (World 0 [])).1.2).
Proof.
  destruct (neighbors_stay_resolvable "10" "0" demo_names demo_uuid4 10
              demo_lsr_A (World 0 [])) as [Hpkt _]; [|apply Hpkt].
  apply Forall_singleton. by eexists.
Defined.

Lemma lsdb_rows_never_removed_witness :
  let st1 := (LinkStateRouterRedis._on_packet "10" "0" demo_names demo_uuid4
                10 (VDict demo_lsp) demo_lsr_A (World 0 [])).1.2 in
  is_Some (alist_get (HStr "C")
             (LinkStateRouterRedis.lsdb
                (LinkStateRouterRedis._emit_lsp "10" "0" demo_names st1
                   (World 1 [])).1.2)).
Proof.
  intros st1.
  destruct (lsdb_rows_never_removed "10" "0" demo_names demo_uuid4 10
              st1 (World 1 []) (HStr "C")) as (_ & _ & Hlsp & _);
    [by eexists|exact Hlsp].
Defined.

(** ** dijkstra_rt.py: more about the table *)

Lemma build_table_dests fuel st s dests table :
  build_table fuel st s dests = Some table →
  map destino table `sublist_of` dests
  ∧ Forall (λ e, destino e ≠ s
                 ∧ dist_get (dist st) (destino e) = Some (costo e)) table.
Proof.
  revert table. induction dests as [|dest dests IH]; intros table; simpl.
  - intros [= <-]. split; [constructor|constructor].
  - destruct (dist_get (dist st) dest) as [c|] eqn:Hc.
    + destruct (String.eqb dest s) eqn:Hs.
      * intros H. destruct (IH _ H). split; [by apply sublist_cons|done].
      * destruct (walk_back fuel (prev st) s dest) as [hop|]; [|done].
        simpl. destruct (build_table fuel st s dests) as [t|]; [|done].
        simpl. intros [= <-]. destruct (IH t eq_refl) as [Hsub Hall].
        split; [by apply sublist_skip|]. constructor; [|done]. simpl.
        split; [by apply String.eqb_neq|done].
    + intros H. destruct (IH _ H). split; [by apply sublist_cons|done].
Qed.

(** X17.  Whatever the costs, also negative ones, a table that
    [routing_table_for] returns lists destinations in the order of the
    keys of the graph, at most one entry for each occurrence of a key, and
    never the source. *)
Theorem table_lists_keys (fuel : nat) (g : Graph) (source : string)
    (table : list route) :
  routing_table_for fuel g source = Some table →
  map destino table `sublist_of` map fst g
  ∧ Forall (λ e, destino e ≠ source) table.
Proof.
  unfold routing_table_for.
  destruct (dijkstra_loop fuel g (dijkstra_init g source)) as [st|]; [|done].
  simpl. intros H. destruct (build_table_dests _ _ _ _ _ H) as [Hsub Hall].
  split; [done|]. eapply Forall_impl; [exact Hall|]. by intros e [? _].
Qed.

Lemma table_lists_keys_witness :
  map destino [Route "" "" 1; Route "B" "B" 2]
    `sublist_of` map fst unnamed_graph.
Proof.
  apply (table_lists_keys 4 unnamed_graph "S"). by vm_compute.
Defined.

Lemma build_table_initial fuel g s dests :
  build_table fuel
    (DState (dist (dijkstra_init g s)) (prev (dijkstra_init g s)) [])
    s dests = Some [].
Proof.
  induction dests as [|dest dests IH]; [done|].
  cbn [build_table dist]. rewrite init_dist.
  destruct (decide (s = dest)) as [<-|Hne]; [|done].
  by rewrite String.eqb_refl.
Qed.

(** X18.  A source with no outgoing edge has an empty routing table:
    the search ends after one step, whatever else the graph holds. *)
Theorem isolated_source_has_no_routes (fuel : nat) (g : Graph)
    (source : string) :
  graph_get g source = [] →
  0 < fuel →
  routing_table_for fuel g source = Some [].
Proof.
  intros Hrow Hfuel. destruct fuel as [|fuel]; [lia|].
  unfold routing_table_for.
  assert (Hloop : dijkstra_loop (S fuel) g (dijkstra_init g source)
                  = Some (DState (dist (dijkstra_init g source))
                                 (prev (dijkstra_init g source)) [])).
  { cbn [dijkstra_loop]. unfold dijkstra_init at 1. cbn [pq heappop heap_min].
    cbn [remove_first]. rewrite decide_True by done.
    rewrite init_dist, decide_True by done. cbn [differs].
    rewrite Z.eqb_refl. cbn [negb]. rewrite Hrow. cbn [fold_left].
    by destruct fuel. }
  rewrite Hloop. apply build_table_initial.
Qed.

Lemma isolated_source_has_no_routes_witness :
  routing_table_for 1 demo_graph "D" = Some [].
Proof. apply isolated_source_has_no_routes; [reflexivity|lia]. Defined.

(** What the search leaves behind, on a graph with non-negative costs and
    no row for the empty string: the final state with its invariant, and
    the entries of the table read off that state. *)
Lemma search_outcome (g : Graph) (s : string) (fuel : nat) :
  nonneg g → "" ∉ map fst g → edge_count g < fuel →
  ∃ X k st table,
    routing_table_for fuel g s = Some table
    ∧ inv g s X (λ u v w, u ∈ X ∧ edge g u v w) k st
    ∧ pq st = []
    ∧ ∀ e, e ∈ table ↔
        destino e ∈ map fst g ∧ destino e ≠ s
        ∧ dist_get (dist st) (destino e) = Some (costo e)
        ∧ ∃ l, schain X (prev st) s (destino e) (next_hop e :: l).
Proof.
  intros Hnn Hnamed Hfuel.
  destruct (dijkstra_loop_runs g s Hnn fuel ∅ 0 (dijkstra_init g s)
              (init_inv g s Hnn))
    as (X & k & st & Hrun & Hinv & Hq & Hk).
  { simpl. rewrite pending_empty. lia. }
  assert (Hprev : ∀ x y, prev_get (prev st) x = Some y → y ≠ s → y ≠ "").
  { intros x y Hp _ ->.
    destruct (inv_prev _ _ _ _ _ _ Hinv x "" Hp)
      as (_ & _ & du & w & _ & He & _).
    apply Hnamed. by eapply edge_source_key. }
  assert (Hhop : ∀ dest c, dest ≠ s →
            dist_get (dist st) dest = Some c →
            ∃ h l, schain X (prev st) s dest (h :: l)
                   ∧ walk_back fuel (prev st) s dest = Some h).
  { intros dest c Hne Hc.
    destruct (inv_chain _ _ _ _ _ _ Hinv dest c Hc Hne) as (l & Hl & Hlen).
    destruct (walk_back_chain s X (prev st) dest l Hprev Hl fuel)
      as (h & l' & -> & Hwb); [lia|].
    by exists h, l'. }
  assert (Hone : ∀ dest h l h' l',
            schain X (prev st) s dest (h :: l) →
            schain X (prev st) s dest (h' :: l') → h = h').
  { intros dest h l h' l' H1 H2.
    assert (Hlen : ∀ n, ∀ v l1 l2,
              length l1 ≤ n →
              schain X (prev st) s v l1 → schain X (prev st) s v l2 →
              l1 = l2).
    { induction n as [|n IH]; intros v l1 l2 Hn Hc1 Hc2.
      - destruct Hc1; [simpl in Hn; lia|].
        rewrite length_app in Hn. simpl in Hn. lia.
      - destruct Hc1 as [v Hv|v u l1 Hv Hus Hu Hc1];
          destruct Hc2 as [v Hv'|v u' l2 Hv' Hus' Hu' Hc2].
        + done.
        + rewrite Hv in Hv'. injection Hv' as <-. done.
        + rewrite Hv in Hv'. injection Hv' as ->. done.
        + rewrite Hv in Hv'. injection Hv' as <-.
          rewrite length_app in Hn. simpl in Hn.
          by rewrite (IH u l1 l2 ltac:(lia) Hc1 Hc2). }
    pose proof (Hlen _ _ _ _ (le_n _) H1 H2) as Heq. by injection Heq. }
  destruct (build_table_spec s fuel st (map fst g))
    as (table & Hbuild & Hspec).
  { intros dest c _ Hne Hc.
    destruct (Hhop dest c Hne Hc) as (h & _ & _ & Hwb). by exists h. }
  exists X, k, st, table. split; [|split; [done|split; [done|]]].
  { unfold routing_table_for. by rewrite Hrun. }
  intros e. rewrite Hspec. split.
  - intros (Hkey & Hne & Hc & Hwb).
    destruct (Hhop _ _ Hne Hc) as (h & l & Hl & Hwb').
    rewrite Hwb in Hwb'. injection Hwb' as <-.
    split; [done|]. split; [done|]. split; [done|by exists l].
  - intros (Hkey & Hne & Hc & l & Hl).
    destruct (Hhop _ _ Hne Hc) as (h & l' & Hl' & Hwb).
    rewrite (Hone _ _ _ _ _ Hl Hl'). done.
Qed.

Lemma unit_walk_length g s l v c :
  unit_costs g → walk g s l v c → c = Z.of_nat (length l).
Proof.
  intros Hunit. induction 1 as [|l u c v w _ IH He]; [done|].
  rewrite (Hunit _ _ _ He), IH, length_app. simpl. lia.
Qed.

Lemma unit_costs_nonneg g : unit_costs g → nonneg g.
Proof. intros Hunit u v w He. rewrite (Hunit _ _ _ He). lia. Qed.

(** X19.  With the unit costs that the engine gives its links, the cost
    of an entry is a hop count: the number of nodes on a walk from the
    source that starts with the entry's next hop and ends at its
    destination, and no walk to that destination is shorter. *)
Theorem unit_costs_count_hops (g : Graph) (source : string) (fuel : nat) :
  unit_costs g →
  "" ∉ map fst g →
  edge_count g < fuel →
  ∃ table,
    routing_table_for fuel g source = Some table
    ∧ ∀ e, e ∈ table →
        ∃ l, walk g source (next_hop e :: l) (destino e) (costo e)
             ∧ costo e = Z.of_nat (length (next_hop e :: l))
             ∧ ∀ l' c', walk g source l' (destino e) c' →
                 length (next_hop e :: l) ≤ length l'.
Proof.
  intros Hunit Hnamed Hfuel.
  destruct (search_outcome g source fuel (unit_costs_nonneg g Hunit)
              Hnamed Hfuel) as (X & k & st & table & Hrun & Hinv & Hq & Hspec).
  exists table. split; [done|]. intros e He.
  apply Hspec in He as (_ & Hne & Hc & l & Hl).
  destruct (chain_walk g source X _ k st Hinv _ _ Hl _ Hc) as [Hw _].
  exists l. split; [done|].
  pose proof (unit_walk_length _ _ _ _ _ Hunit Hw) as Hlen.
  split; [done|]. intros l' c' Hw'.
  destruct (final_lower_bound g source X k st Hinv Hq l' _ c' Hw')
    as (dv & Hdv & Hle & _).
  rewrite Hc in Hdv. injection Hdv as <-.
  pose proof (unit_walk_length _ _ _ _ _ Hunit Hw') as Hlen'. lia.
Qed.

Lemma chain_head_le g s X E k st :
  nonneg g → inv g s X E k st →
  ∀ v l, schain X (prev st) s v l →
    ∀ h l' ch cv, l = h :: l' →
      dist_get (dist st) h = Some ch → dist_get (dist st) v = Some cv →
      prev_get (prev st) h = Some s ∧ (ch ≤ cv)%Z.
Proof.
  intros Hnn Hinv. induction 1 as [v Hv|v u l Hv Hus Hu Hc IH];
    intros h l' ch cv Heq Hh Hcv.
  - injection Heq as <- <-. rewrite Hh in Hcv. injection Hcv as <-.
    split; [done|lia].
  - destruct (inv_prev _ _ _ _ _ _ Hinv v u Hv)
      as (_ & _ & du & w & Hdu & He & Hdv).
    rewrite Hcv in Hdv. injection Hdv as ->.
    pose proof (schain_nonempty _ _ _ _ _ Hc) as Hl.
    destruct l as [|h0 l0]; [done|]. injection Heq as <- _.
    destruct (IH h0 l0 ch du eq_refl Hh Hdu) as [Hp Hle].
    split; [done|]. pose proof (Hnn _ _ _ He). lia.
Qed.

(** X20.  Routes agree on their first hop.  When the next hop of an entry
    is itself a key of the graph, the table has an entry for it that names
    it as its own next hop and costs no more than the entry it leads to. *)
Theorem next_hop_is_direct (g : Graph) (source : string) (fuel : nat) :
  nonneg g →
  "" ∉ map fst g →
  edge_count g < fuel →
  ∃ table,
    routing_table_for fuel g source = Some table
    ∧ ∀ e, e ∈ table → next_hop e ∈ map fst g →
        ∃ c, Route (next_hop e) (next_hop e) c ∈ table ∧ (c ≤ costo e)%Z.
Proof.
  intros Hnn Hnamed Hfuel.
  destruct (search_outcome g source fuel Hnn Hnamed Hfuel)
    as (X & k & st & table & Hrun & Hinv & Hq & Hspec).
  exists table. split; [done|]. intros e He Hkey.
  apply Hspec in He as (_ & Hne & Hc & l & Hl).
  destruct (chain_walk g source X _ k st Hinv _ _ Hl _ Hc)
    as (_ & h & l' & w & [= <- <-] & Hedge).
  destruct (final_lower_bound g source X k st Hinv Hq [next_hop e]
              (next_hop e) (0 + w)%Z) as (ch & Hch & _ & _).
  { apply (walk_snoc g source [] source 0%Z); [constructor|done]. }
  destruct (chain_head_le g source X _ k st Hnn Hinv _ _ Hl
              (next_hop e) l ch (costo e) eq_refl Hch Hc) as [Hp Hle].
  exists ch. split; [|done]. apply Hspec. simpl.
  split; [done|]. split.
  { by destruct (inv_prev _ _ _ _ _ _ Hinv _ _ Hp) as (_ & ? & _). }
  split; [done|]. exists []. by apply sc_first.
Qed.

Lemma unit_rows g :
  Forall (λ row, Forall (λ e, e.2 = 1%Z) row.2) g → unit_costs g.
Proof.
  intros Hrows u v w He. unfold edge, graph_get in He.
  destruct (alist_get u g) as [row|] eqn:Hrow; simpl in He.
  - apply alist_get_elem in Hrow.
    rewrite Forall_forall in Hrows. specialize (Hrows _ Hrow). simpl in Hrows.
    rewrite Forall_forall in Hrows. apply (Hrows _ He).
  - by apply elem_of_nil in He.
Qed.

Lemma line_graph_unit : unit_costs line_graph.
Proof. apply unit_rows. by repeat constructor. Qed.

Lemma line_graph_named : "" ∉ map fst line_graph.
Proof.
  unfold line_graph. simpl. rewrite !not_elem_of_cons.
  repeat split; try discriminate. apply not_elem_of_nil.
Qed.

Lemma unit_costs_count_hops_witness :
  ∃ table,
    routing_table_for 5 line_graph "A" = Some table
    ∧ ∀ e, e ∈ table →
        ∃ l, walk line_graph "A" (next_hop e :: l) (destino e) (costo e)
             ∧ costo e = Z.of_nat (length (next_hop e :: l)).
Proof.
  destruct (unit_costs_count_hops line_graph "A" 5 line_graph_unit
              line_graph_named) as (table & Hrun & Hall).
  { vm_compute. lia. }
  exists table. split; [done|]. intros e He.
  destruct (Hall e He) as (l & Hw & Hlen & _). by exists l.
Defined.

Lemma next_hop_is_direct_witness :
  ∃ table,
    routing_table_for 5 line_graph "A" = Some table
    ∧ ∀ e, e ∈ table → next_hop e ∈ map fst line_graph →
        ∃ c, Route (next_hop e) (next_hop e) c ∈ table ∧ (c ≤ costo e)%Z.
Proof.
  apply (next_hop_is_direct line_graph "A" 5
           (unit_costs_nonneg _ line_graph_unit) line_graph_named).
  vm_compute. lia.
Defined.

(** ** Flooding engine: duplicates, forwarding and sending *)

Section FloodingBehaviour.
Import FloodingRouterRedis.
Variables SECTION GROUP : string.
Variable NODES_TO_USER : list (string * string).
Variable uuid4 : nat → string.

Local Abbreviation channel := (get_channel SECTION GROUP NODES_TO_USER).
Local Abbreviation chan_of := (channel_of SECTION GROUP NODES_TO_USER).
Local Abbreviation flood_on_packet :=
  (_on_packet SECTION GROUP NODES_TO_USER uuid4).
Local Abbreviation flood_send := (send SECTION GROUP NODES_TO_USER uuid4).

Lemma flood_keeps_refl s : flood_keeps s s.
Proof. by repeat split. Qed.

Lemma flood_keeps_trans a b c :
  flood_keeps a b → flood_keeps b c → flood_keeps a c.
Proof.
  intros (? & ? & ? & ?) (? & ? & ? & ?).
  repeat split; [congruence..|set_solver].
Qed.

Lemma flood_keeps_seen k s : flood_keeps s (set_seen (λ x, {[k]} ∪ x) s).
Proof. repeat split. simpl. set_solver. Qed.

Ltac flstep := frame_step flood_keeps_refl flood_keeps_trans.

Lemma flood_forward_keeps d :
  respects (on_state flood_keeps)
    (_flood_forward SECTION GROUP NODES_TO_USER uuid4 d).
Proof. unfold _flood_forward, channel_of, publish. repeat flstep. Qed.

Lemma flood_on_packet_keeps packet :
  respects (on_state flood_keeps) (flood_on_packet packet).
Proof.
  unfold _on_packet. flstep; [flstep|].
  destruct (normalize_packet packet) as [| | | |d]; [flstep..|].
  destruct (dec_hops d) as [h d'].
  repeat first
    [ apply flood_forward_keeps
    | apply on_state_modify; intros s; apply flood_keeps_seen
    | flstep ].
Qed.

Lemma flood_send_keeps dst payload hops :
  respects (on_state flood_keeps) (flood_send dst payload hops).
Proof.
  unfold send, channel_of, publish. flstep; [flstep|].
  destruct (channel dst) as [dst_ch|]; [|flstep].
  repeat first
    [ apply on_state_modify; intros s; apply flood_keeps_seen | flstep ].
Qed.

(** The loop of [_flood_forward]: a neighbour without a channel is
    skipped, each of the others gets the packet, and one identifier is
    drawn for each progress line. *)
Lemma flood_forward_loop (l : list string) (d : dict) (st : router) w :
  for_each l (λ neigh,
    try_except (ch ← chan_of neigh;
                publish ch d ≫= λ _, draw_uuid uuid4 ≫= λ _, mret tt)) st w
  = (Ok tt, st,
     World (rng w + length (omap channel l))
           (log w ++ map (λ ch, Publish ch d) (omap channel l))).
Proof.
  revert w. induction l as [|n l IH]; intros w.
  - simpl. rewrite app_nil_r, Nat.add_0_r. by destruct w.
  - cbn [for_each omap list_omap]. unfold mbind at 1, M_bind at 1.
    unfold try_except at 1, mbind at 1, M_bind at 1, channel_of at 1.
    destruct (channel n) as [ch|] eqn:Hch; simpl.
    + rewrite IH. simpl. rewrite <- app_assoc. simpl.
      by rewrite Nat.add_succ_r.
    + by rewrite IH.
Qed.

(** The loop of [send]. *)
Lemma flood_send_loop (l : list string) (d : dict) (st : router) w :
  for_each l (λ neigh, try_except (ch ← chan_of neigh; publish ch d)) st w
  = (Ok tt, st,
     World (rng w) (log w ++ map (λ ch, Publish ch d) (omap channel l))).
Proof.
  revert w. induction l as [|n l IH]; intros w.
  - simpl. rewrite app_nil_r. by destruct w.
  - cbn [for_each omap list_omap]. unfold mbind at 1, M_bind at 1.
    unfold try_except at 1, mbind at 1, M_bind at 1, channel_of at 1.
    destruct (channel n) as [ch|] eqn:Hch; simpl.
    + rewrite IH. simpl. by rewrite <- app_assoc.
    + by rewrite IH.
Qed.

(** A packet whose headers hold an identity has that identity, whatever
    identifier is drawn. *)
Lemma get_packet_id_headers d h v u :
  alist_get "headers" d = Some (VDict h) → alist_get "id" h = Some v →
  get_packet_id d u = v.
Proof.
  intros Hh Hid. unfold get_packet_id, get_default. rewrite Hh. simpl.
  by rewrite Hid.
Qed.

(** The listener up to the test of the seen set. *)
Lemma flood_on_packet_fresh d v k (st : router) w :
  validate_packet (VDict d) = true →
  get_packet_id d (uuid4 (rng w)) = v → truthy v = true →
  py_hash v = Some k → k ∉ seen st →
  flood_on_packet (VDict d) st w
  = (if is_deliver_to_me d (channel_local st)
     then emit (Deliver (get_default "payload" (VStr "") d))
     else if ((dec_hops d).1 <=? 0)%Z then mret tt
          else _flood_forward SECTION GROUP NODES_TO_USER uuid4 (dec_hops d).2)
      (set_seen (λ s, {[k]} ∪ s) st) (World (S (rng w)) (log w)).
Proof.
  intros Hv Hid Ht Hk Hnew. unfold _on_packet, normalize_packet.
  rewrite Hv. simpl. unfold mbind at 1, M_bind at 1. simpl.
  rewrite Hid, Ht. simpl. unfold mbind at 1, M_bind at 1. rewrite Hk. simpl.
  unfold mbind at 1, M_bind at 1. simpl.
  rewrite bool_decide_eq_false_2 by done.
  unfold mbind at 1, M_bind at 1. simpl.
  destruct (is_deliver_to_me d (channel_local st)); [done|].
  by destruct (dec_hops d) as [h d'].
Qed.

Lemma flood_on_packet_seen d v k (st : router) w :
  validate_packet (VDict d) = true →
  get_packet_id d (uuid4 (rng w)) = v → truthy v = true →
  py_hash v = Some k → k ∈ seen st →
  flood_on_packet (VDict d) st w = (Ok tt, st, World (S (rng w)) (log w)).
Proof.
  intros Hv Hid Ht Hk Hin. unfold _on_packet, normalize_packet.
  rewrite Hv. simpl. unfold mbind at 1, M_bind at 1. simpl.
  rewrite Hid, Ht. simpl. unfold mbind at 1, M_bind at 1. rewrite Hk. simpl.
  unfold mbind at 1, M_bind at 1. simpl.
  by rewrite bool_decide_eq_true_2.
Qed.

(** The identity of a packet received for the first time is in the seen
    set afterwards, whatever is done with the packet. *)
Lemma flood_on_packet_marks d v k (st : router) w :
  validate_packet (VDict d) = true →
  get_packet_id d (uuid4 (rng w)) = v → truthy v = true →
  py_hash v = Some k →
  k ∈ seen (flood_on_packet (VDict d) st w).1.2.
Proof.
  intros Hv Hid Ht Hk. destruct (decide (k ∈ seen st)) as [Hin|Hnew].
  - by rewrite (flood_on_packet_seen d v k st w).
  - rewrite (flood_on_packet_fresh d v k st w) by done.
    assert (H : respects (on_state flood_keeps)
      (if is_deliver_to_me d (channel_local st)
       then emit (Deliver (get_default "payload" (VStr "") d))
       else if ((dec_hops d).1 <=? 0)%Z then mret tt
            else _flood_forward SECTION GROUP NODES_TO_USER uuid4
                   (dec_hops d).2)).
    { repeat first [ apply flood_forward_keeps | flstep ]. }
    destruct (H (set_seen (λ s, {[k]} ∪ s) st) (World (S (rng w)) (log w)))
      as (_ & _ & _ & Hsub).
    apply Hsub. simpl. set_solver.
Qed.

(** X21.  Forwarding in the flooding engine.  A valid packet for another
    node whose identity is new is marked as seen; with more than one hop
    left it goes, one hop lower, to every neighbour that has a channel, in
    the order of the list and the neighbour it came from included, and a
    neighbour without a channel is skipped without an error; with one hop
    or less it is dropped. *)
Theorem flooding_forwards_to_neighbours (d : dict) (v : value) (k : hkey)
    (hops : Z) (st : router) (w : world) :
  validate_packet (VDict d) = true →
  get_packet_id d (uuid4 (rng w)) = v → truthy v = true →
  py_hash v = Some k → k ∉ seen st →
  is_deliver_to_me d (channel_local st) = false →
  alist_get "hops" d = Some (VInt hops) →
  let chans := omap channel (neighbors st) in
  flood_on_packet (VDict d) st w
  = (Ok tt, set_seen (λ s, {[k]} ∪ s) st,
     if (hops <=? 1)%Z then World (S (rng w)) (log w)
     else World (S (rng w) + length chans)
            (log w ++ map (λ ch, Publish ch
                             (alist_set "hops" (VInt (hops - 1)) d)) chans)).
Proof.
  intros Hv Hid Ht Hk Hnew Hme Hh chans.
  rewrite (flood_on_packet_fresh d v k st w) by done.
  rewrite Hme, (dec_hops_int d hops Hh). cbn [fst snd].
  destruct (Z.leb_spec (hops - 1) 0), (Z.leb_spec hops 1); try lia; [done|].
  unfold _flood_forward. unfold mbind at 1, M_bind at 1. simpl.
  by rewrite flood_forward_loop.
Qed.

(** The listener goes through all the packets: an exception of the
    callback does not end the loop. *)
Lemma listen_loop_cons {St} (f : value → M St unit) x l s w :
  _listen_loop f (x :: l) s w = _listen_loop f l (f x s w).1.2 (f x s w).2.
Proof.
  unfold _listen_loop. simpl. unfold mbind, M_bind, try_except.
  by destruct (f x s w) as [[[[]|e] s1] w1].
Qed.

Lemma listen_loop_ok {St} (f : value → M St unit) l s w :
  (_listen_loop f l s w).1.1 = Ok tt.
Proof.
  revert s w. induction l as [|x l IH]; intros s w; [done|].
  rewrite listen_loop_cons. apply IH.
Qed.

Lemma listen_loop_app {St} (f : value → M St unit) l1 l2 s w :
  _listen_loop f (l1 ++ l2) s w
  = _listen_loop f l2 (_listen_loop f l1 s w).1.2 (_listen_loop f l1 s w).2.
Proof.
  revert s w. induction l1 as [|x l1 IH]; intros s w; [done|].
  simpl. rewrite !listen_loop_cons. apply IH.
Qed.

(** X22.  A duplicate is dropped for good.  When the listener is handed a
    valid packet with an identity in its headers, then any packets
    whatever, also such on which the callback raises, and then a valid
    packet with the same identity, it goes through them all, and the last
    one changes nothing in the router and sends nothing. *)
Theorem flooding_drops_duplicates (d d' h h' : dict) (v : value) (k : hkey)
    (between : list value) (st : router) (w : world) :
  validate_packet (VDict d) = true → validate_packet (VDict d') = true →
  alist_get "headers" d = Some (VDict h) → alist_get "id" h = Some v →
  alist_get "headers" d' = Some (VDict h') → alist_get "id" h' = Some v →
  truthy v = true → py_hash v = Some k →
  let c2 := _listen_loop flood_on_packet (VDict d :: between) st w in
  c2.1.1 = Ok tt
  ∧ _listen_loop flood_on_packet (VDict d :: between ++ [VDict d']) st w
    = (Ok tt, c2.1.2, World (S (rng c2.2)) (log c2.2)).
Proof.
  intros Hv Hv' Hh Hid Hh' Hid' Ht Hk c2. split; [apply listen_loop_ok|].
  rewrite (listen_loop_app _ (VDict d :: between) [VDict d']). fold c2.
  rewrite listen_loop_cons.
  assert (Hseen : k ∈ seen c2.1.2).
  { unfold c2. rewrite listen_loop_cons.
    assert (H1 : k ∈ seen (flood_on_packet (VDict d) st w).1.2).
    { apply (flood_on_packet_marks d v k st w); try done.
      by apply (get_packet_id_headers d h). }
    assert (H2 : respects (on_state flood_keeps)
                   (_listen_loop flood_on_packet between)).
    { unfold _listen_loop. flstep. flstep. apply flood_on_packet_keeps. }
    destruct (H2 (flood_on_packet (VDict d) st w).1.2
                 (flood_on_packet (VDict d) st w).2) as (_ & _ & _ & Hsub).
    by apply Hsub. }
  rewrite (flood_on_packet_seen d' v k c2.1.2 c2.2); try done.
  by apply (get_packet_id_headers d' h').
Qed.

(** X23.  The flooding router is fixed but for its seen set.  Receiving
    any packet and sending to any destination, returning or raising,
    leave the node name, the channel and the neighbour list as they were
    and only add to the seen set: unlike the link-state engine, this one
    never learns a neighbour. *)
Theorem flooding_router_fixed (st : router) (w : world) :
  (∀ packet, flood_keeps st (flood_on_packet packet st w).1.2)
  ∧ (∀ dst payload hops, flood_keeps st (flood_send dst payload hops st w).1.2).
Proof.
  split.
  - intros packet. apply (flood_on_packet_keeps packet st w).
  - intros dst payload hops. apply (flood_send_keeps dst payload hops st w).
Qed.

(** X24.  [send] of the flooding engine never raises.  For a destination
    without a channel it does nothing at all.  Otherwise the packet goes
    to every neighbour that has a channel with the hop count it was given,
    no hop spent at the origin; the identity under which the sender marks
    it as seen is a fresh identifier that the packet itself does not
    carry. *)
Theorem flooding_send_floods (dst : string) (payload : value) (hops : Z)
    (st : router) (w : world) :
  (channel dst = None → flood_send dst payload hops st w = (Ok tt, st, w))
  ∧ ∀ dst_ch, channel dst = Some dst_ch →
      let pkt := make_packet "message" (channel_local st) dst_ch hops
                   "flooding" VNone VNone payload in
      let u := uuid4 (rng w) in
      flood_send dst payload hops st w
      = (Ok tt,
         (if String.eqb u "" then st else set_seen (λ s, {[HStr u]} ∪ s) st),
         World (S (rng w))
           (log w ++ map (λ ch, Publish ch pkt) (omap channel (neighbors st))))
      ∧ alist_get "hops" pkt = Some (VInt hops)
      ∧ ∀ u', get_packet_id pkt u' = VStr u'.
Proof.
  split.
  - intros Hch. unfold send. unfold mbind at 1, M_bind at 1. simpl.
    by rewrite Hch.
  - intros dst_ch Hch pkt u. split; [|by split].
    unfold send. unfold mbind at 1, M_bind at 1. simpl. rewrite Hch.
    unfold mbind at 1, M_bind at 1. simpl.
    change (get_packet_id _ (uuid4 (rng w))) with (VStr u). simpl.
    fold u. destruct (String.eqb u ""); simpl.
    + unfold mbind at 1, M_bind at 1. simpl. by rewrite flood_send_loop.
    + unfold mbind at 1, M_bind at 1. simpl. by rewrite flood_send_loop.
Qed.

(** X25.  Delivery ends the flood.  A valid packet with a new identity
    that is addressed to this node or to everyone is handed to the
    application and never forwarded, whatever its hop count: a broadcast
    gets as far as the neighbours of its sender. *)
Theorem flooding_delivery_ends_flood (d : dict) (v : value) (k : hkey)
    (to : string) (st : router) (w : world) :
  validate_packet (VDict d) = true →
  get_packet_id d (uuid4 (rng w)) = v → truthy v = true →
  py_hash v = Some k → k ∉ seen st →
  alist_get "to" d = Some (VStr to) →
  to = channel_local st ∨ to = "*" →
  flood_on_packet (VDict d) st w
  = (Ok tt, set_seen (λ s, {[k]} ∪ s) st,
     World (S (rng w))
       (log w ++ [Deliver (get_default "payload" (VStr "") d)])).
Proof.
  intros Hv Hid Ht Hk Hnew Hto Hme.
  rewrite (flood_on_packet_fresh d v k st w) by done.
  assert (is_deliver_to_me d (channel_local st) = true) as ->; [|done].
  unfold is_deliver_to_me, get_default. rewrite Hto. simpl.
  destruct Hme as [->| ->].
  - by rewrite String.eqb_refl.
  - by rewrite orb_true_r.
Qed.

End FloodingBehaviour.

Lemma flooding_forwards_to_neighbours_witness :
  log (FloodingRouterRedis._on_packet "10" "0" demo_names demo_uuid4
         (VDict demo_flood_packet) demo_flood_B (World 0 [])).2
  = [ Publish "sec10.grupo0.alice"
        (alist_set "hops" (VInt (3 - 1)) demo_flood_packet);
      Publish "sec10.grupo0.carol"
        (alist_set "hops" (VInt (3 - 1)) demo_flood_packet) ].
Proof.
  rewrite (flooding_forwards_to_neighbours "10" "0" demo_names demo_uuid4
             demo_flood_packet (VStr "m-1") (HStr "m-1") 3 demo_flood_B
             (World 0 []));
    [reflexivity..| |reflexivity|reflexivity].
  apply not_elem_of_empty.
Defined.

Lemma flooding_drops_duplicates_witness :
  log (_listen_loop
         (FloodingRouterRedis._on_packet "10" "0" demo_names demo_uuid4)
         [ VDict demo_flood_packet;
           VDict (alist_set "headers"
                    (VDict [("alg", VStr "flooding"); ("id", VList [VInt 1])])
                    demo_flood_packet);
           VDict demo_flood_broadcast;
           VDict (alist_set "hops" (VInt 2) demo_flood_packet) ]
         demo_flood_B (World 0 [])).2
  = [ Publish "sec10.grupo0.alice"
        (alist_set "hops" (VInt 2) demo_flood_packet);
      Publish "sec10.grupo0.carol"
        (alist_set "hops" (VInt 2) demo_flood_packet);
      Deliver (VStr "all") ].
Proof.
  destruct (flooding_drops_duplicates "10" "0" demo_names demo_uuid4
              demo_flood_packet (alist_set "hops" (VInt 2) demo_flood_packet)
              [("alg", VStr "flooding"); ("id", VStr "m-1")]
              [("alg", VStr "flooding"); ("id", VStr "m-1")]
              (VStr "m-1") (HStr "m-1")
              [ VDict (alist_set "headers"
                         (VDict [("alg", VStr "flooding");
                                 ("id", VList [VInt 1])])
                         demo_flood_packet);
                VDict demo_flood_broadcast ]
              demo_flood_B (World 0 [])) as [_ Heq]; [reflexivity..|].
  exact (eq_trans (f_equal (λ c, log c.2) Heq) eq_refl).
Defined.

Lemma flooding_send_floods_witness :
  FloodingRouterRedis.send "10" "0" demo_names demo_uuid4 "Z" (VStr "hi") 8
    demo_flood_B (World 0 [])
  = (Ok tt, demo_flood_B, World 0 [])
  ∧ log (FloodingRouterRedis.send "10" "0" demo_names demo_uuid4 "C"
           (VStr "hi") 8 demo_flood_B (World 0 [])).2
    = [ Publish "sec10.grupo0.alice"
          (make_packet "message" "sec10.grupo0.bob" "sec10.grupo0.carol" 8
             "flooding" VNone VNone (VStr "hi"));
        Publish "sec10.grupo0.carol"
          (make_packet "message" "sec10.grupo0.bob" "sec10.grupo0.carol" 8
             "flooding" VNone VNone (VStr "hi")) ].
Proof.
  destruct (flooding_send_floods "10" "0" demo_names demo_uuid4 "Z"
              (VStr "hi") 8 demo_flood_B (World 0 [])) as [Hnone _].
  destruct (flooding_send_floods "10" "0" demo_names demo_uuid4 "C"
              (VStr "hi") 8 demo_flood_B (World 0 [])) as [_ Hsome].
  split; [by apply Hnone|].
  destruct (Hsome "sec10.grupo0.carol" eq_refl) as [-> _]. reflexivity.
Defined.

Lemma flooding_delivery_ends_flood_witness :
  FloodingRouterRedis._on_packet "10" "0" demo_names demo_uuid4
    (VDict demo_flood_broadcast) demo_flood_B (World 0 [])
  = (Ok tt, FloodingRouterRedis.set_seen (λ s, {[HStr "m-2"]} ∪ s) demo_flood_B,
     World 1 [Deliver (VStr "all")]).
Proof.
  apply (flooding_delivery_ends_flood "10" "0" demo_names demo_uuid4
           demo_flood_broadcast (VStr "m-2") (HStr "m-2") "*" demo_flood_B
           (World 0 []));
    [reflexivity..| |reflexivity|by right].
  apply not_elem_of_empty.
Defined.

(** ** interactive_lsr_router.py: the advertisement timer *)

Section InteractiveProperties.
Variables SECTION GROUP : string.
Variable NODES_TO_USER : list (string * string).

Lemma flood_lsp_publishes_only d exclude :
  respects (emits (publishes_only d))
    (LinkStateRouterRedis._flood_lsp SECTION GROUP NODES_TO_USER d exclude).
Proof.
  unfold LinkStateRouterRedis._flood_lsp, LinkStateRouterRedis.channel_of,
    publish.
  repeat first [ by apply emits_emit | emits_step ].
Qed.

Lemma interactive_emit_lsp_publishes (st : LinkStateRouterRedis.router) w :
  ∃ evs neighbors_costs,
    log (InteractiveLSRRouter._emit_lsp SECTION GROUP NODES_TO_USER st w).2
    = log w ++ evs
    ∧ Forall (publishes_only
        (alist_set "headers"
           (VList [VDict [("id",
              VStr ("LSP-" +:+ LinkStateRouterRedis.node_id st +:+ "-"
                    +:+ pretty (LinkStateRouterRedis.sequence_number st)))]])
           (alist_set "neighbors" (VDict neighbors_costs)
              (alist_set "originator" (VStr (LinkStateRouterRedis.node_id st))
                 (make_packet "info" (LinkStateRouterRedis.channel_local st)
                    "*" 8 "lsr" VNone VNone (VStr "")))))) evs.
Proof.
  unfold InteractiveLSRRouter._emit_lsp.
  unfold mbind at 1, M_bind at 1. simpl. unfold mbind at 1, M_bind at 1.
  assert (Hpure : respects (emits (λ _, False))
            (map_m (LinkStateRouterRedis.channel_of SECTION GROUP
                      NODES_TO_USER) (LinkStateRouterRedis.neighbors st))).
  { unfold LinkStateRouterRedis.channel_of. repeat emits_step. }
  destruct (Hpure st w) as (evs0 & Hlog0 & Hnone).
  destruct evs0 as [|ev evs0]; [|by inversion Hnone].
  rewrite app_nil_r in Hlog0.
  destruct (map_m _ _ st w) as [[[chans|e] s1] w1]; simpl in Hlog0.
  - exists (drop (length (log w1))
              (log (LinkStateRouterRedis._flood_lsp SECTION GROUP
                      NODES_TO_USER
                      (alist_set "headers"
                         (VList [VDict [("id",
                            VStr ("LSP-" +:+ LinkStateRouterRedis.node_id st
                                  +:+ "-" +:+ pretty
                                    (LinkStateRouterRedis.sequence_number
                                       st)))]])
                         (alist_set "neighbors"
                            (VDict (const_dict (VInt 1) chans))
                            (alist_set "originator"
                               (VStr (LinkStateRouterRedis.node_id st))
                               (make_packet "info"
                                  (LinkStateRouterRedis.channel_local st)
                                  "*" 8 "lsr" VNone VNone (VStr "")))))
                      VNone
                      (LinkStateRouterRedis.set_sequence_number
                         (λ n, (n + 1)%Z) s1) w1).2)),
      (const_dict (VInt 1) chans).
    unfold mbind at 1, M_bind at 1. simpl.
    match goal with
    | |- context [LinkStateRouterRedis._flood_lsp _ _ _ ?d ?x ?s ?w] =>
        destruct (flood_lsp_publishes_only d x s w) as (evs & Hlog & Hall)
    end.
    simpl in Hlog. rewrite Hlog, drop_app_length. by rewrite <- Hlog0.
  - exists [], []. simpl. by rewrite app_nil_r, Hlog0.
Qed.

(** X26.  The advertisement of [InteractiveLSRRouter] is unusable.
    Whatever the state of the node, every packet its timer publishes has
    a list in the place of the headers: it fails [validate_packet], the
    identity stamped into it is never read, and the listeners of the
    link-state and of the flooding engine drop it without a trace. *)
Theorem interactive_advertisement_unusable
    (st : LinkStateRouterRedis.router) (w : world) :
  ∃ evs,
    log (InteractiveLSRRouter._emit_lsp SECTION GROUP NODES_TO_USER st w).2
    = log w ++ evs
    ∧ ∀ ch p, Publish ch p ∈ evs →
        validate_packet (VDict p) = false
        ∧ (∀ u, get_packet_id p u = VStr u)
        ∧ (∀ uuid4 fuel st' w',
             LinkStateRouterRedis._on_packet SECTION GROUP NODES_TO_USER
               uuid4 fuel (VDict p) st' w' = (Ok tt, st', w'))
        ∧ (∀ uuid4 st' w',
             FloodingRouterRedis._on_packet SECTION GROUP NODES_TO_USER
               uuid4 (VDict p) st' w' = (Ok tt, st', w')).
Proof.
  destruct (interactive_emit_lsp_publishes st w) as (evs & nc & Hlog & Hall).
  exists evs. split; [done|]. intros ch p Hin.
  rewrite Forall_forall in Hall. specialize (Hall _ Hin). simpl in Hall.
  subst p. repeat split.
Qed.

End InteractiveProperties.

(** ** Link-state engine: the destinations of the routing table *)

Lemma bind_ok {St A B} (m : M St A) (f : A → M St B) s w b s' w' :
  (m ≫= f) s w = (Ok b, s', w') →
  ∃ a s1 w1, m s w = (Ok a, s1, w1) ∧ f a s1 w1 = (Ok b, s', w').
Proof.
  unfold mbind, M_bind. destruct (m s w) as [[[a|e] s1] w1]; [|done].
  intros H. by exists a, s1, w1.
Qed.

Lemma bind_run {St A B} (m : M St A) (f : A → M St B) s w a s1 w1 :
  m s w = (Ok a, s1, w1) → (m ≫= f) s w = f a s1 w1.
Proof. intros H. unfold mbind, M_bind. by rewrite H. Qed.

Lemma map_m_Forall2 {St A B} (f : A → M St B) (P : A → B → Prop) l :
  (∀ x s w y s' w', f x s w = (Ok y, s', w') → P x y) →
  ∀ s w r s' w', map_m f l s w = (Ok r, s', w') → Forall2 P l r.
Proof.
  intros Hf. induction l as [|x l IH]; intros s w r s' w'; simpl.
  - intros [= <- _ _]. constructor.
  - intros (y & s1 & w1 & Hx & H)%bind_ok.
    apply bind_ok in H as (ys & s2 & w2 & Hl & H).
    injection H as <- _ _. constructor; [by eapply Hf|by eapply IH].
Qed.

Lemma alist_key_get {K} `{EqDecision K} {V} (k : K) (d : list (K * V)) :
  k ∈ map fst d → is_Some (alist_get k d).
Proof.
  induction d as [|[k' v'] d IH]; simpl; intros Hin.
  - by apply elem_of_nil in Hin.
  - destruct (decide (k = k')); [by eexists|].
    apply elem_of_cons in Hin as [->|Hin]; [done|by apply IH].
Qed.

Lemma alist_set_keys {K} `{EqDecision K} {V} (k k' : K) (v : V) d :
  k' ∈ map fst (alist_set k v d) → k' = k ∨ k' ∈ map fst d.
Proof.
  induction d as [|[k0 v0] d IH]; simpl.
  - intros ->%list_elem_of_singleton. by left.
  - destruct (decide (k = k0)) as [->|Hne]; simpl.
    + intros [->|Hin]%elem_of_cons; [by left|]. right. by right.
    + intros [->|Hin]%elem_of_cons; [right; by left|].
      destruct (IH Hin) as [->|Hin']; [by left|]. right. by right.
Qed.

Section RoutingTableOfLsdb.
Import LinkStateRouterRedis.
Variable fuel : nat.

(** X27.  Routes lead to advertisers only.  After a recomputation that
    succeeds, every destination of the routing table is another node
    whose advertisement is stored in the LSDB: a neighbour that has not
    advertised, though named in rows of the LSDB or in the neighbour
    list, has no route. *)
Theorem routes_only_to_advertisers (st : router) (w : world) :
  let c := _calculate_routing_table fuel st w in
  c.1.1 = Ok tt →
  ∀ e, e ∈ routing_table c.1.2 →
    destino e ≠ node_id st
    ∧ is_Some (alist_get (HStr (destino e)) (lsdb st)).
Proof.
  intros c Hok e He. subst c.
  destruct (_calculate_routing_table fuel st w) as [[r s'] w'] eqn:Hrun.
  simpl in Hok, He. subst r. unfold _calculate_routing_table in Hrun.
  apply bind_ok in Hrun as (st0 & s0 & w0 & Hget & Hrun).
  injection Hget as <- <- <-.
  apply bind_ok in Hrun as (graph & s1 & w1 & Hgraph & Hrun).
  apply bind_ok in Hrun as (g & s2 & w2 & Hg & Hrun).
  apply bind_ok in Hrun as (table & s3 & w3 & Htable & Hrun).
  apply bind_ok in Hrun as ([] & s4 & w4 & Hmod & Hrun).
  injection Hmod as <- <-. injection Hrun as <- _. simpl in He.
  destruct (routing_table_for fuel g (node_id st)) as [t|] eqn:Hrt;
    [|done].
  injection Htable as <- _ _.
  assert (Hkeys : map fst graph = map fst (lsdb st)).
  { apply (map_m_Forall2 _ (λ x y, y.1 = x.1)) in Hgraph.
    - clear -Hgraph.
      induction Hgraph as [|x y l r Hxy _ IH]; simpl; [done|by f_equal].
    - intros [node rec] sa wa [node' row] sb wb
        (row' & ? & ? & _ & [= <- _ _ _])%bind_ok. done. }
  assert (Hg' : Forall2 (λ x y, x.1 = HStr y.1)
                  (if alist_has (HStr (node_id st)) graph then graph
                   else alist_set (HStr (node_id st))
                          (const_dict 1%Z (neighbors st)) graph) g).
  { apply (map_m_Forall2 _ (λ x y, x.1 = HStr y.1)) in Hg; [done|].
    intros [[| |n] row] sa wa y sb wb; try done. by intros [= <- _ _]. }
  unfold routing_table_for in Hrt.
  destruct (dijkstra_loop fuel g (dijkstra_init g (node_id st)))
    as [dst|]; [|done].
  simpl in Hrt. destruct (build_table_dests _ _ _ _ _ Hrt) as [Hsub Hall].
  rewrite Forall_forall in Hall. destruct (Hall e He) as [Hne _].
  split; [done|].
  assert (Hin : HStr (destino e) ∈ map fst
            (if alist_has (HStr (node_id st)) graph then graph
             else alist_set (HStr (node_id st))
                    (const_dict 1%Z (neighbors st)) graph)).
  { assert (Hd : destino e ∈ map fst g).
    { eapply elem_of_sublist; [|exact Hsub]. by apply list_elem_of_fmap_2. }
    clear -Hd Hg'. induction Hg' as [|x y l r Hxy _ IH]; simpl in *.
    - by apply elem_of_nil in Hd.
    - apply elem_of_cons in Hd as [->|Hd]; [rewrite Hxy; by left|].
      right. by apply IH. }
  apply alist_key_get. rewrite <- Hkeys.
  destruct (alist_has (HStr (node_id st)) graph); [done|].
  apply alist_set_keys in Hin as [[= Heq]|Hin]; [done|done].
Qed.

End RoutingTableOfLsdb.

Lemma routes_only_to_advertisers_witness :
  Forall (λ e, destino e ≠ "A"
               ∧ is_Some (alist_get (HStr (destino e))
                            (LinkStateRouterRedis.lsdb demo_lsr_A_learned)))
    (LinkStateRouterRedis.routing_table
       (LinkStateRouterRedis._calculate_routing_table 10
          demo_lsr_A_learned (World 0 [])).1.2).
Proof.
  apply Forall_forall.
  apply (routes_only_to_advertisers 10 demo_lsr_A_learned (World 0 [])).
  by vm_compute.
Defined.

(** ** dijkstra_rt.py: [load_topology] *)

Lemma alist_set_elem {K} `{EqDecision K} {V} (k k' : K) (v v' : V) d :
  (k', v') ∈ alist_set k v d → (k' = k ∧ v' = v) ∨ (k', v') ∈ d.
Proof.
  induction d as [|[k0 v0] d IH]; simpl.
  - intros [= -> ->]%list_elem_of_singleton. by left.
  - destruct (decide (k = k0)) as [->|Hne].
    + intros [[= -> ->]|Hin]%elem_of_cons; [by left|]. right. by right.
    + intros [[= -> ->]|Hin]%elem_of_cons; [right; by left|].
      destruct (IH Hin) as [?|?]; [by left|]. right. by right.
Qed.

Lemma alist_set_elem_new {K} `{EqDecision K} {V} (k : K) (v : V) d :
  (k, v) ∈ alist_set k v d.
Proof.
  induction d as [|[k0 v0] d IH]; simpl.
  - by left.
  - destruct (decide (k = k0)) as [->|Hne]; [by left|by right].
Qed.

Lemma alist_set_elem_old {K} `{EqDecision K} {V} (k k' : K) (v : V) d :
  (k', v) ∈ d → (k', v) ∈ alist_set k v d.
Proof.
  induction d as [|[k0 v0] d IH]; simpl; intros Hin.
  - by apply elem_of_nil in Hin.
  - apply elem_of_cons in Hin as [[= <- <-]|Hin].
    + destruct (decide (k = k')) as [->|Hne]; by left.
    + destruct (decide (k = k0)) as [->|Hne]; right; [done|by apply IH].
Qed.

(** The dict [{n: c for n in names}] holds exactly the names, each with
    the value [c]. *)
Lemma const_dict_elem {V} (c : V) (names : list string) v c' :
  (v, c') ∈ const_dict c names ↔ c' = c ∧ v ∈ names.
Proof.
  unfold const_dict. split.
  - assert (H : ∀ acc,
      (v, c') ∈ fold_left (λ d n, alist_set n c d) names acc →
      (c' = c ∧ v ∈ names) ∨ (v, c') ∈ acc).
    { induction names as [|n names IH]; intros acc; simpl; [by right|].
      intros [[-> Hin]|Hin]%IH.
      - left. split; [done|by right].
      - apply alist_set_elem in Hin as [[-> ->]|Hin]; [|by right].
        left. split; [done|by left]. }
    intros [?|Hin]%H; [done|by apply elem_of_nil in Hin].
  - intros [-> Hin].
    assert (H : ∀ acc,
      v ∈ names ∨ (v, c) ∈ acc →
      (v, c) ∈ fold_left (λ d n, alist_set n c d) names acc).
    { clear Hin. induction names as [|n names IH]; intros acc; simpl.
      - intros [Hin|Hin]; [by apply elem_of_nil in Hin|done].
      - intros [[->|Hin]%elem_of_cons|Hin]; apply IH.
        + right. apply alist_set_elem_new.
        + by left.
        + right. by apply alist_set_elem_old. }
    apply H. by left.
Qed.

Section LoadTopology.
Context {St : Type}.

Lemma names_row (names : list string) (s : St) w :
  topology_row (VList (map VStr names)) s w
  = (Ok (const_dict 1%Z names), s, w).
Proof.
  unfold topology_row.
  assert (H : map_m (λ v, match v with
                          | VStr n => mret n
                          | VList _ | VDict _ => raise TypeError
                          | _ => raise Unmodelled
                          end) (map VStr names) s w = (Ok names, s, w)).
  { induction names as [|n names IH]; [done|]. simpl.
    unfold mbind at 1, M_bind at 1. simpl.
    unfold mbind at 1, M_bind at 1. by rewrite IH. }
  unfold mbind, M_bind. by rewrite H.
Qed.

Lemma names_rows (cfg : dict) (s : St) w :
  rows_of_names cfg →
  ∃ g, map_m (λ '(u, neigh), row ← topology_row neigh; mret (u, row)) cfg s w
       = (Ok g, s, w)
       ∧ Forall2 (λ x y, y.1 = x.1
                         ∧ ∃ names, x.2 = VList (map VStr names)
                                    ∧ y.2 = const_dict 1%Z names) cfg g.
Proof.
  induction 1 as [|[u neigh] cfg [names Hrow] _ (g & Hg & Hall)].
  - exists []. split; [done|constructor].
  - simpl in Hrow. subst neigh. exists ((u, const_dict 1%Z names) :: g).
    split.
    + cbn [map_m].
      erewrite bind_run; [|erewrite bind_run; [|apply names_row]; reflexivity].
      by erewrite bind_run; [|exact Hg].
    + constructor; [|done]. split; [done|]. by exists names.
Qed.

(** X28.  A topology file whose rows are lists of names.  Loading it
    never fails and touches nothing else; the graph has the nodes of the
    file in the order of the file, under a key [config] when there is
    one; every listed neighbour, and nothing else, is an edge, at the
    unit cost. *)
Theorem load_topology_of_names (d cfg : dict) (s : St) (w : world) :
  get_default "config" (VDict d) d = VDict cfg →
  rows_of_names cfg →
  ∃ g, load_topology (VDict d) s w = (Ok g, s, w)
       ∧ map fst g = map fst cfg
       ∧ unit_costs g
       ∧ ∀ u names v,
           alist_get u cfg = Some (VList (map VStr names)) →
           edge g u v 1 ↔ v ∈ names.
Proof.
  intros Hcfg Hrows. destruct (names_rows cfg s w Hrows) as (g & Hg & Hall).
  exists g. unfold load_topology. rewrite Hcfg. split; [done|].
  assert (Hrow : ∀ u,
    match alist_get u cfg with
    | Some x => ∃ names, x = VList (map VStr names)
                         ∧ alist_get u g = Some (const_dict 1%Z names)
    | None => alist_get u g = None
    end).
  { intros u. clear -Hall.
    induction Hall as [|[u1 x] [u2 y] cfg g (Hk & names & Hx & Hy) _ IH];
      simpl in *; [done|]. subst.
    destruct (decide (u = u1)); [by exists names|done]. }
  split; [|split].
  - clear -Hall. induction Hall as [|x y cfg g [Hk _] _ IH]; simpl;
      [done|by f_equal].
  - intros u v c He. unfold edge, graph_get in He. specialize (Hrow u).
    destruct (alist_get u cfg) as [x|].
    + destruct Hrow as (names & _ & Hgu). rewrite Hgu in He. simpl in He.
      by apply const_dict_elem in He as [-> _].
    + rewrite Hrow in He. by apply elem_of_nil in He.
  - intros u names v Hu. specialize (Hrow u). rewrite Hu in Hrow.
    destruct Hrow as (names' & Heq & Hgu). unfold edge, graph_get.
    rewrite Hgu. simpl. rewrite const_dict_elem.
    assert (names' = names) as ->.
    { injection Heq as Heq. clear -Heq. revert names' Heq.
      induction names as [|n names IH]; intros [|n' names'] Heq;
        simpl in Heq; try done.
      injection Heq as -> Heq. f_equal. by apply IH. }
    naive_solver.
Qed.

End LoadTopology.

Lemma load_topology_of_names_witness :
  ∃ g, load_topology (VDict demo_topology) tt (World 0 [])
       = (Ok g, tt, World 0 [])
       ∧ map fst g = ["A"; "B"; "C"]
       ∧ unit_costs g.
Proof.
  destruct (load_topology_of_names demo_topology
              [ ("A", VList [VStr "B"]); ("B", VList [VStr "A"; VStr "C"]);
                ("C", VList [VStr "B"]) ] tt (World 0 []))
    as (g & Hrun & Hkeys & Hunit & _).
  - reflexivity.
  - repeat constructor.
    + by exists ["B"].
    + by exists ["A"; "C"].
    + by exists ["B"].
  - by exists g.
Defined.

Lemma interactive_advertisement_unusable_witness :
  ∃ p,
    log (InteractiveLSRRouter._emit_lsp "10" "0" demo_names demo_lsr_A
           (World 0 [])).2 = [Publish "sec10.grupo0.bob" p]
    ∧ validate_packet (VDict p) = false
    ∧ LinkStateRouterRedis._on_packet "10" "0" demo_names demo_uuid4 10
        (VDict p) demo_lsr_A (World 0 []) = (Ok tt, demo_lsr_A, World 0 []).
Proof.
  destruct (interactive_advertisement_unusable "10" "0" demo_names demo_lsr_A
              (World 0 [])) as (evs & Hlog & Hall).
  vm_compute in Hlog. subst evs. eexists. split; [by vm_compute|].
  match type of Hall with
  | ∀ ch p, Publish ch p ∈ [Publish ?c ?q] → _ =>
      destruct (Hall c q) as (Hv & _ & Hlsr & _); [by left|]
  end.
  split; [exact Hv|apply Hlsr].
Defined.

(** ** The hop limit in both engines *)

Section HopLimit.
Variables SECTION GROUP : string.
Variable NODES_TO_USER : list (string * string).
Variable uuid4 : nat → string.
Variable fuel : nat.

Local Abbreviation channel := (get_channel SECTION GROUP NODES_TO_USER).
Local Abbreviation to_node := (channel_to_node NODES_TO_USER).
Local Abbreviation forward_packet :=
  (LinkStateRouterRedis._forward_packet SECTION GROUP NODES_TO_USER).
Local Abbreviation handle_data_packet :=
  (LinkStateRouterRedis._handle_data_packet SECTION GROUP NODES_TO_USER).
Local Abbreviation flood_lsp :=
  (LinkStateRouterRedis._flood_lsp SECTION GROUP NODES_TO_USER).
Local Abbreviation handle_lsp :=
  (LinkStateRouterRedis._handle_lsp SECTION GROUP NODES_TO_USER uuid4 fuel).
Local Abbreviation flood_on_packet :=
  (FloodingRouterRedis._on_packet SECTION GROUP NODES_TO_USER uuid4).

Lemma forward_packet_exact d nh h (st : LinkStateRouterRedis.router) w :
  alist_get "hops" d = Some (VInt h) →
  forward_packet d nh st w
  = if (h <=? 1)%Z then (Ok tt, st, w)
    else match channel nh with
         | Some ch =>
             (Ok tt, st,
              World (rng w)
                (log w ++ [Publish ch (alist_set "hops" (VInt (h - 1)) d)]))
         | None => (Raise KeyError, st, w)
         end.
Proof.
  intros Hh. unfold LinkStateRouterRedis._forward_packet.
  rewrite (dec_hops_int d h Hh).
  destruct (Z.leb_spec (h - 1) 0), (Z.leb_spec h 1); try lia; [done|].
  unfold mbind, M_bind, LinkStateRouterRedis.channel_of.
  by destruct (channel nh).
Qed.

Lemma handle_data_packet_routed d dst_ch nh
    (st : LinkStateRouterRedis.router) w :
  is_deliver_to_me d (LinkStateRouterRedis.channel_local st) = false →
  alist_get "to" d = Some (VStr dst_ch) →
  to_node dst_ch ≠ "" →
  LinkStateRouterRedis._get_next_hop
    (LinkStateRouterRedis.routing_table st) (to_node dst_ch) = nh →
  nh ≠ "" →
  handle_data_packet d st w = forward_packet d nh st w.
Proof.
  intros Hme Hto Hdst Hnh Hne.
  unfold LinkStateRouterRedis._handle_data_packet.
  unfold mbind at 1, M_bind at 1. simpl. rewrite Hme.
  rewrite (get_default_some _ _ _ _ Hto). unfold mbind at 1, M_bind at 1.
  simpl. apply String.eqb_neq in Hdst. rewrite Hdst. rewrite Hnh.
  apply String.eqb_neq in Hne. by rewrite Hne.
Qed.

(** The loop of [_flood_lsp]: every channel but the excluded one gets
    the packet, the packet that was passed in. *)
Lemma flood_lsp_loop (l : list string) (a : dict) (exclude : value) chans
    (st : LinkStateRouterRedis.router) w :
  mapM channel l = Some chans →
  for_each l (λ neigh,
    ch ← LinkStateRouterRedis.channel_of SECTION GROUP NODES_TO_USER neigh;
    if truthy exclude && eq_str exclude ch then mret tt
    else publish ch a) st w
  = (Ok tt, st,
     World (rng w)
       (log w ++ map (λ ch, Publish ch a)
                   (List.filter
                      (λ ch, negb (truthy exclude && eq_str exclude ch))
                      chans))).
Proof.
  revert chans w. induction l as [|n l IH]; intros chans w Hm.
  - simpl in Hm. injection Hm as <-. simpl. rewrite app_nil_r.
    by destruct w.
  - rewrite mapM_Some in Hm. apply Forall2_cons_inv_l in Hm
      as (ch & chans' & Hch & Hrest & ->).
    apply mapM_Some in Hrest. cbn [for_each List.filter].
    unfold mbind at 1, M_bind at 1. unfold mbind at 1, M_bind at 1.
    unfold LinkStateRouterRedis.channel_of at 1. rewrite Hch. simpl.
    destruct (truthy exclude && eq_str exclude ch); simpl.
    + by rewrite (IH chans' _ Hrest).
    + rewrite (IH chans' _ Hrest). simpl. by rewrite <- app_assoc.
Qed.

Lemma flood_lsp_exact (a : dict) (exclude : value) chans
    (st : LinkStateRouterRedis.router) w :
  mapM channel (LinkStateRouterRedis.neighbors st) = Some chans →
  flood_lsp a exclude st w
  = (Ok tt, st,
     World (rng w)
       (log w ++ map (λ ch, Publish ch a)
                   (List.filter
                      (λ ch, negb (truthy exclude && eq_str exclude ch))
                      chans))).
Proof.
  intros Hm. unfold LinkStateRouterRedis._flood_lsp.
  unfold mbind at 1, M_bind at 1. simpl. by apply flood_lsp_loop.
Qed.

Lemma handle_lsp_fresh_log (a : dict) (k : hkey) (o : string) (costs : dict)
    chans (st : LinkStateRouterRedis.router) w :
  truthy (get_packet_id a (uuid4 (rng w))) = true →
  py_hash (get_packet_id a (uuid4 (rng w))) = Some k →
  k ∉ LinkStateRouterRedis.seen_lsp_ids st →
  alist_get "originator" a = Some (VStr o) →
  o ≠ "" →
  get_default "neighbors" (VDict []) a = VDict costs →
  mapM channel (LinkStateRouterRedis.neighbors st) = Some chans →
  ∃ rest,
    log (handle_lsp a st w).2
    = log w
      ++ map (λ ch, Publish ch a)
           (List.filter
              (λ ch, negb (truthy (get_default "from" (VStr "") a)
                           && eq_str (get_default "from" (VStr "") a) ch))
              chans)
      ++ rest
    ∧ Forall silent rest.
Proof.
  intros Ht Hk Hnin Ho Hne Hcosts Hm.
  unfold LinkStateRouterRedis._handle_lsp.
  unfold mbind at 1, M_bind at 1, draw_uuid. simpl.
  rewrite Ht. simpl. unfold mbind at 1, M_bind at 1. rewrite Hk. simpl.
  unfold mbind at 1, M_bind at 1. simpl.
  rewrite bool_decide_eq_false_2 by done.
  unfold mbind at 1, M_bind at 1. simpl.
  rewrite (get_default_some _ _ _ _ Ho). simpl.
  apply String.eqb_neq in Hne. rewrite Hne. simpl.
  rewrite Hcosts. unfold mbind at 1, M_bind at 1. simpl.
  unfold mbind at 1, M_bind at 1. simpl.
  unfold mbind at 1, M_bind at 1. simpl.
  erewrite bind_run; [|by apply flood_lsp_exact].
  match goal with
  | |- ∃ rest, log (?m ?s1 ?w1).2 = _ ∧ _ =>
      destruct (calculate_routing_table_emits fuel silent
                  ltac:(done) s1 w1) as (rest & Hlog & Hall)
  end.
  exists rest. split; [|done]. etrans; [exact Hlog|].
  simpl. by rewrite <- app_assoc.
Qed.

(** C3, as the code has it.  Forwarding a data packet lowers its hop
    count by one, and the packet goes on only when the lowered count is
    positive.  In the link-state engine the packet, so lowered, is
    published once, to the next hop; in the flooding engine a packet with
    a new identity that is for another node is published, so lowered, to
    every neighbour that has a channel; with one hop or less nothing is
    published by either; and nothing that either publishes about such a
    packet in any other state has another hop count.  Re-flooding an
    advertisement is different: whatever its hop count, also none left or
    none at all, [_flood_lsp] publishes the advertisement as it arrived
    to every neighbour but the excluded one, and so does the handler of a
    new advertisement. *)
Theorem forwarding_lowers_hops_reflooding_does_not (d : dict) (h : Z) :
  alist_get "hops" d = Some (VInt h) →
  let lowered := alist_set "hops" (VInt (h - 1)) d in
  (∀ nh st w,
     forward_packet d nh st w
     = if (h <=? 1)%Z then (Ok tt, st, w)
       else match channel nh with
            | Some ch =>
                (Ok tt, st, World (rng w) (log w ++ [Publish ch lowered]))
            | None => (Raise KeyError, st, w)
            end)
  ∧ (∀ st w dst_ch nh,
       is_deliver_to_me d (LinkStateRouterRedis.channel_local st) = false →
       alist_get "to" d = Some (VStr dst_ch) →
       to_node dst_ch ≠ "" →
       LinkStateRouterRedis._get_next_hop
         (LinkStateRouterRedis.routing_table st) (to_node dst_ch) = nh →
       nh ≠ "" →
       handle_data_packet d st w = forward_packet d nh st w)
  ∧ (∀ st w, ∃ evs,
       log (handle_data_packet d st w).2 = log w ++ evs
       ∧ Forall (ttl_ok h) evs)
  ∧ (∀ st w v k,
       validate_packet (VDict d) = true →
       get_packet_id d (uuid4 (rng w)) = v → truthy v = true →
       py_hash v = Some k → k ∉ FloodingRouterRedis.seen st →
       is_deliver_to_me d (FloodingRouterRedis.channel_local st) = false →
       log (flood_on_packet (VDict d) st w).2
       = log w
         ++ (if (h <=? 1)%Z then []
             else map (λ ch, Publish ch lowered)
                    (omap channel (FloodingRouterRedis.neighbors st))))
  ∧ (∀ st w, ∃ evs,
       log (flood_on_packet (VDict d) st w).2 = log w ++ evs
       ∧ Forall (ttl_ok h) evs)
  ∧ (∀ a exclude st w chans,
       mapM channel (LinkStateRouterRedis.neighbors st) = Some chans →
       flood_lsp a exclude st w
       = (Ok tt, st,
          World (rng w)
            (log w ++ map (λ ch, Publish ch a)
                        (List.filter
                           (λ ch, negb (truthy exclude
                                        && eq_str exclude ch))
                           chans))))
  ∧ (∀ a st w k o costs chans,
       truthy (get_packet_id a (uuid4 (rng w))) = true →
       py_hash (get_packet_id a (uuid4 (rng w))) = Some k →
       k ∉ LinkStateRouterRedis.seen_lsp_ids st →
       alist_get "originator" a = Some (VStr o) →
       o ≠ "" →
       get_default "neighbors" (VDict []) a = VDict costs →
       mapM channel (LinkStateRouterRedis.neighbors st) = Some chans →
       ∃ rest,
         log (handle_lsp a st w).2
         = log w
           ++ map (λ ch, Publish ch a)
                (List.filter
                   (λ ch, negb (truthy (get_default "from" (VStr "") a)
                                && eq_str (get_default "from" (VStr "") a)
                                     ch))
                   chans)
           ++ rest
         ∧ Forall silent rest)
  ∧ (∀ a st w, ∃ evs,
       log (handle_lsp a st w).2 = log w ++ evs
       ∧ Forall (publishes_only a) evs).
Proof.
  intros Hh lowered. repeat split.
  - intros nh st w. by apply forward_packet_exact.
  - intros st w dst_ch nh. apply handle_data_packet_routed.
  - intros st w. by apply (handle_data_packet_ttl _ _ _ d h Hh st w).
  - intros st w v k Hv Hid Ht Hk Hnew Hme.
    rewrite (flood_on_packet_fresh _ _ _ _ d v k st w) by done.
    rewrite Hme, (dec_hops_int d h Hh). cbn [fst snd].
    destruct (Z.leb_spec (h - 1) 0), (Z.leb_spec h 1); try lia.
    + simpl. by rewrite app_nil_r.
    + unfold FloodingRouterRedis._flood_forward.
      unfold mbind at 1, M_bind at 1. simpl.
      by rewrite flood_forward_loop.
  - intros st w. by apply (flooding_on_packet_ttl _ _ _ uuid4 d h Hh st w).
  - intros a exclude st w chans. apply flood_lsp_exact.
  - intros a st w k o costs chans. apply handle_lsp_fresh_log.
  - intros a st w. apply (handle_lsp_unmodified _ _ _ uuid4 fuel a st w).
Qed.

End HopLimit.

Lemma forwarding_lowers_hops_reflooding_does_not_witness :
  log (LinkStateRouterRedis._forward_packet "10" "0" demo_names
         demo_flood_packet "B" demo_lsr_A (World 0 [])).2
  = [Publish "sec10.grupo0.bob"
       (alist_set "hops" (VInt (3 - 1)) demo_flood_packet)]
  ∧ log (FloodingRouterRedis._on_packet "10" "0" demo_names demo_uuid4
           (VDict demo_flood_packet) demo_flood_B (World 0 [])).2
    = [ Publish "sec10.grupo0.alice"
          (alist_set "hops" (VInt (3 - 1)) demo_flood_packet);
        Publish "sec10.grupo0.carol"
          (alist_set "hops" (VInt (3 - 1)) demo_flood_packet) ]
  ∧ ∃ rest,
      log (LinkStateRouterRedis._handle_lsp "10" "0" demo_names demo_uuid4
             10 demo_lsp demo_lsr_A (World 0 [])).2
      = [Publish "sec10.grupo0.bob" demo_lsp] ++ rest
      ∧ Forall silent rest.
Proof.
  destruct (forwarding_lowers_hops_reflooding_does_not "10" "0" demo_names
              demo_uuid4 10 demo_flood_packet 3%Z eq_refl)
    as (Hfwd & _ & _ & Hflood & _ & _ & Hlsp & _).
  split; [by rewrite Hfwd|]. split.
  - rewrite (Hflood demo_flood_B (World 0 []) (VStr "m-1") (HStr "m-1"));
      [reflexivity..| |reflexivity].
    apply not_elem_of_empty.
  - destruct (Hlsp demo_lsp demo_lsr_A (World 0 []) (HStr "LSP-C-0") "C"
                [("B", VInt 1)] ["sec10.grupo0.bob"])
      as (rest & Hlog & Hall);
      [reflexivity|reflexivity|apply not_elem_of_empty|reflexivity
      |discriminate|reflexivity|reflexivity|].
    by exists rest.
Defined.
